(** * Hopenhayn (1992) stationary equilibrium: the solver of
      [Hopenhayn/hopenhayn.py] and its specification

    The Python class [Hopenhayn] solves the incumbent firm's problem by
    value-function iteration, finds the free-entry price by bisection and
    recovers the invariant distribution of firms in closed form.

    The embedding is shallow.  Floating-point numbers are read as real
    numbers ([R]), numpy arrays as lists, the object [self] as a record of
    its attributes, Python exceptions as the [Raise] case of a result type,
    and each [for ... in range(maxit)] loop as a recursion on the number of
    iterations that remain.  Rounding is outside the embedding, except for
    the price search of [solve_firm], whose loop is also given with an
    explicit rounding function and on binary64 numbers. *)

From Stdlib Require Import Reals List Bool Arith ZArith Lia Lra Psatz.
From Stdlib Require PrimFloat.
From Stdlib Require Import ClassicalEpsilon.
Import ListNotations.

Open Scope R_scope.

(** ** Python results *)

Module Py.

(** The exceptions the solver can raise: [IndexError] from indexing an
    array at its length, [UnboundLocalError] from reading a local that no
    loop iteration assigned, [LinAlgError] from [numpy.linalg.inv]. *)
Inductive exn : Type :=
| IndexError
| UnboundLocalError
| LinAlgError.

Inductive result (A : Type) : Type :=
| Return (a : A)
| Raise (e : exn).

Arguments Return {A} a.
Arguments Raise {A} e.

Definition bind {A B : Type} (c : result A) (k : A -> result B) : result B :=
  match c with
  | Return a => k a
  | Raise e => Raise e
  end.

(** [a\[i\]] for [0 <= i]: the element, or [IndexError] from [len(a)] on. *)
Definition getitem {A : Type} (a : list A) (i : nat) : result A :=
  match nth_error a i with
  | Some x => Return x
  | None => Raise IndexError
  end.

End Py.

Import Py.

Notation "x <- c ;; k" := (bind c (fun x => k))
  (at level 61, c at next level, right associativity).
Notation "' p <- c ;; k" := (bind c (fun p => k))
  (at level 61, p pattern, c at next level, right associativity).

(** ** numpy arrays *)

Module Np.

Definition vec : Type := list R.
(** A matrix is the list of its rows. *)
Definition mat : Type := list vec.

(** Elementwise combination of two arrays of one shape (the arrays of a
    constructed object all have [Nz] entries; on other shapes numpy
    broadcasts or raises, which the embedding leaves out). *)
Fixpoint zip_with {A B C : Type} (f : A -> B -> C) (u : list A) (v : list B)
  : list C :=
  match u, v with
  | x :: u', y :: v' => f x y :: zip_with f u' v'
  | _, _ => []
  end.

Definition zeros (n : nat) : vec := repeat 0 n.
Definition ones (n : nat) : vec := repeat 1 n.

(** [c * v] for a scalar [c]. *)
Definition scale (c : R) (v : vec) : vec := map (fun x => c * x) v.

Definition vadd (u v : vec) : vec := zip_with Rplus u v.
Definition vsub (u v : vec) : vec := zip_with Rminus u v.
Definition vmul (u v : vec) : vec := zip_with Rmult u v.

(** [x ** y]: real exponentiation, [exp (y * ln x)], which is what numpy
    computes on a positive base.  A base that is not positive is outside
    the embedding (numpy returns nan for a negative base and a fractional
    exponent). *)
Definition power (x y : R) : R := Rpower x y.

(** [np.dot] of two vectors. *)
Fixpoint dot (u v : vec) : R :=
  match u, v with
  | x :: u', y :: v' => x * y + dot u' v'
  | _, _ => 0
  end.

(** [np.dot] of a matrix and a vector. *)
Definition mat_vec (A : mat) (v : vec) : vec := map (fun row => dot row v) A.

(** [v.clip(min=lo)]. *)
Definition clip_min (lo : R) (v : vec) : vec := map (fun x => Rmax x lo) v.

(** [v.max()] of an array with at least one entry ([rouwenhorst] accepts
    no fewer than two states; on an empty array numpy raises). *)
Definition amax (v : vec) : R :=
  match v with
  | [] => 0
  | x :: t => fold_left Rmax t x
  end.

(** [np.sum] and [np.cumsum]. *)
Definition sum (v : vec) : R := fold_right Rplus 0 v.

Fixpoint cumsum_from (acc : R) (v : vec) : vec :=
  match v with
  | [] => []
  | x :: t => (acc + x) :: cumsum_from (acc + x) t
  end.

Definition cumsum (v : vec) : vec := cumsum_from 0 v.

(** [np.searchsorted(a, v)] (side left): numpy's binary search.  [fuel]
    bounds the number of halvings; [length a] of them are never used up. *)
Fixpoint binsearch (fuel : nat) (a : vec) (v : R) (min_idx max_idx : nat)
  : nat :=
  match fuel with
  | O => min_idx
  | S fuel' =>
      if (min_idx <? max_idx)%nat then
        let mid_idx := (min_idx + (max_idx - min_idx) / 2)%nat in
        if Rlt_dec (nth mid_idx a 0) v
        then binsearch fuel' a v (S mid_idx) max_idx
        else binsearch fuel' a v min_idx mid_idx
      else min_idx
  end.

Definition searchsorted (a : vec) (v : R) : nat :=
  binsearch (length a) a v 0 (length a).

(** [np.where(cond, 1, 0)] over the entries of an array. *)
Definition where_1_0 (cond : R -> bool) (v : vec) : list Z :=
  map (fun x => if cond x then 1%Z else 0%Z) v.

(** Matrices: identity, transpose, difference, product. *)
Definition eye (n : nat) : mat :=
  map (fun i => map (fun j => if (i =? j)%nat then 1 else 0) (seq 0 n))
      (seq 0 n).

Definition col (j : nat) (A : mat) : vec := map (fun row => nth j row 0) A.

(** [A.T] for a matrix with [n] columns. *)
Definition transpose (n : nat) (A : mat) : mat :=
  map (fun j => col j A) (seq 0 n).

Definition msub (A B : mat) : mat := zip_with vsub A B.

Definition mat_mul (n : nat) (A B : mat) : mat :=
  map (fun row => map (fun j => dot row (col j B)) (seq 0 n)) A.

Definition square (n : nat) (A : mat) : Prop :=
  length A = n /\ Forall (fun row => length row = n) A.

(** [B] is the inverse of the [n] by [n] matrix [A]. *)
Definition inverse_of (n : nat) (A B : mat) : Prop :=
  square n A /\ square n B /\ mat_mul n A B = eye n /\ mat_mul n B A = eye n.

Definition invertible (A : mat) : Prop := exists B, inverse_of (length A) A B.

(** [numpy.linalg.inv]: the inverse of a non-singular square matrix,
    [LinAlgError] otherwise.  This is the function over the reals; in
    floating point numpy raises only on a pivot that is exactly zero and
    can return an array for a singular matrix, so the properties below rest
    on the [Return] case, under an invertibility hypothesis or for a call
    that returned. *)
Definition la_inv (A : mat) : result mat :=
  match excluded_middle_informative (invertible A) with
  | left H => Return (proj1_sig (constructive_indefinite_description _ H))
  | right _ => Raise LinAlgError
  end.

End Np.

Import Np.

(** ** The class [Hopenhayn] *)

(** What [quantecon]'s [rouwenhorst(Nz, z_bar, sigma_u, rho_z)] returns: the
    transition matrix [P], the state values and the stationary distribution
    of the chain (a single row, which [np.squeeze] turns into a vector). *)
Record MarkovChain : Type := {
  P : mat;
  state_values : vec;
  stationary_distribution : vec
}.

(** The arguments of [__init__]. *)
Record Params : Type := {
  p_beta : R;
  p_theta : R;
  p_cf : R;
  p_ce : R;
  p_D : R;
  p_wage : R;
  p_rho_z : R;
  p_sigma_u : R;
  p_Nz : nat;
  p_z_bar : R;
  p_plott : bool
}.

(** The default arguments of [__init__]. *)
Definition defaults : Params := {|
  p_beta := 0.8;
  p_theta := 2 / 3;
  p_cf := 20;
  p_ce := 40;
  p_D := 100;
  p_wage := 1;
  p_rho_z := 0.9;
  p_sigma_u := 0.2;
  p_Nz := 20;
  p_z_bar := 0.14;
  p_plott := true
|}.

(** The attributes of [self] once [__init__] has run. *)
Record Hopenhayn : Type := {
  beta : R;
  theta : R;
  cf : R;
  ce : R;
  D : R;
  wage : R;
  rho_z : R;
  sigma_u : R;
  Nz : nat;
  z_bar : R;
  plott : bool;
  tol : R;
  maxit : nat;
  mc : MarkovChain;
  pi : mat;
  grid_z : vec;
  nu : vec
}.

(** [setup_parameters]: the tolerance and the iteration cap. *)
Definition setup_parameters : R * nat := (1e-8, 2000%nat).

(** [setup_grid]: transition matrix, productivity levels (the exponential
    of the state values) and the entrants' distribution. *)
Definition setup_grid (chain : MarkovChain) : mat * vec * vec :=
  (P chain, map exp (state_values chain), stationary_distribution chain).

(** [__init__], given the chain that [rouwenhorst] returns for the
    arguments [p_Nz], [p_z_bar], [p_sigma_u], [p_rho_z]. *)
Definition init (a : Params) (chain : MarkovChain) : Hopenhayn :=
  let '(tol0, maxit0) := setup_parameters in
  let '(pi0, grid0, nu0) := setup_grid chain in
  {| beta := p_beta a; theta := p_theta a; cf := p_cf a; ce := p_ce a;
     D := p_D a; wage := p_wage a; rho_z := p_rho_z a;
     sigma_u := p_sigma_u a; Nz := p_Nz a; z_bar := p_z_bar a;
     plott := p_plott a;
     tol := tol0; maxit := maxit0;
     mc := chain; pi := pi0; grid_z := grid0; nu := nu0 |}.

Section Solver.

Variable self : Hopenhayn.

(** *** 3. Problem of an incumbent plant *)

(** [incumbent_firm]: labour demand, output and profit at [price].  At
    [theta = 1] the Python expression [1 / (1 - self.theta)] raises
    [ZeroDivisionError]; that case is outside this function: see the
    hypothesis [theta <> 1] of the properties on what [solve_firm]
    returns. *)
Definition incumbent_firm (price : R) : vec * vec * vec :=
  let pol_n :=
    map (fun z => power ((theta self * price * z) / wage self)
                        (1 / (1 - theta self)))
        (grid_z self) in
  let firm_output :=
    vmul (grid_z self) (map (fun n => power n (theta self)) pol_n) in
  let firm_profit :=
    vsub (vsub (scale price firm_output) (scale (wage self) pol_n))
         (scale (cf self) (ones (Nz self))) in
  (firm_profit, firm_output, pol_n).

(** *** 4. Incumbent and entrant problems *)

Definition entry_condition (VF : vec) : R := beta self * dot VF (nu self).

(** One pass of the body of the loop of [solve_vf]: the new [VF]. *)
Definition vf_update (firm_profit VF_old : vec) : vec :=
  vadd firm_profit
       (scale (beta self) (clip_min 0 (mat_vec (pi self) VF_old))).

Definition vf_dist (VF_old VF : vec) : R :=
  amax (map Rabs (vsub VF_old VF)).

(** The loop of [solve_vf] with [n] iterations left; its state is the pair
    [VF_old], [VF].  It returns the [VF] the loop leaves. *)
Fixpoint vf_loop (firm_profit : vec) (n : nat) (VF_old VF : vec) : vec :=
  match n with
  | O => VF
  | S n' =>
      let VF := vf_update firm_profit VF_old in
      let dist := vf_dist VF_old VF in
      if Rlt_dec dist (tol self) then VF
      else vf_loop firm_profit n' VF VF
  end.

Definition solve_vf (price : R) : vec * vec * vec * vec :=
  let VF_old := zeros (Nz self) in
  let VF := zeros (Nz self) in
  let '(firm_profit, firm_output, pol_n) := incumbent_firm price in
  (vf_loop firm_profit (maxit self) VF_old VF, firm_profit, firm_output, pol_n).

(** [exit_decision]: the cutoff [grid_z\[idx\]] and the exit policy. *)
Definition exit_decision (VF : vec) : result (R * list Z) :=
  let avg_VF := mat_vec (pi self) VF in
  let idx := searchsorted avg_VF 0 in
  exit_cutoff <- getitem (grid_z self) idx ;;
  let pol_exit :=
    where_1_0 (fun z => if Rlt_dec z exit_cutoff then true else false)
              (grid_z self) in
  Return (exit_cutoff, pol_exit).

(** The loop of [solve_firm] with [n] iterations left.  [price] is the
    local of that name: unbound ([None]) until an iteration assigns it. *)
Fixpoint price_loop (n : nat) (pmin pmax : R) (price : option R)
  : option R :=
  match n with
  | O => price
  | S n' =>
      let price := (pmin + pmax) / 2 in
      let '(VF, _, _, _) := solve_vf price in
      let VF_entrant := entry_condition VF in
      let diff := Rabs (VF_entrant - ce self) in
      if Rlt_dec diff (tol self) then Some price
      else if Rlt_dec VF_entrant (ce self)
           then price_loop n' price pmax (Some price)
           else price_loop n' pmin price (Some price)
  end.

Definition solve_firm : result R :=
  let '(pmin, pmax) := (0.01, 100) in
  match price_loop (maxit self) pmin pmax None with
  | Some price => Return price
  | None => Raise UnboundLocalError
  end.

(** *** 5. Stationary distribution *)

(** [pi_tilde] of [solve_invariant_distribution]: row [i] of [pi] times
    [1 - pol_exit\[i\]], then the transpose. *)
Definition pi_tilde (pol_exit : list Z) : mat :=
  transpose (Nz self)
    (zip_with (fun row e => map (fun x => x * IZR (1 - e)) row)
              (pi self) pol_exit).

Definition solve_invariant_distribution (m : R) (pol_exit : list Z)
  : result vec :=
  let I := eye (Nz self) in
  inv <- la_inv (msub I (pi_tilde pol_exit)) ;;
  Return (scale m (mat_vec inv (nu self))).

(** [solve_m_star].  The quotient is the real one; a zero divisor, where
    numpy returns inf, is outside the embedding. *)
Definition solve_m_star (distrib_stationary_0 firm_output : vec) : R :=
  D self / dot distrib_stationary_0 firm_output.

End Solver.

(** *** 6. Main function *)

(** The attributes [solve_model] adds to [self] (plots and printing left
    out). *)
Record Solution : Type := {
  price_ss : R;
  VF : vec;
  firm_profit : vec;
  firm_output : vec;
  pol_n : vec;
  exit_cutoff : R;
  pol_exit : list Z;
  distrib_stationary_0 : vec;
  m_star : R;
  distrib_stationary : vec;
  total_mass : R;
  pdf_stationary : vec;
  cdf_stationary : vec;
  distrib_emp : vec;
  pdf_emp : vec;
  cdf_emp : vec;
  total_employment : R;
  average_firm_size : R;
  exit_rate : R
}.

(** Steps c to e of [solve_model]: the invariant distribution for a unit
    mass of entrants, the entrant mass that clears the goods market, and the
    rescaled distribution. *)
Definition stationary_steps (self : Hopenhayn) (pol_exit : list Z)
    (firm_output : vec) : result (vec * R * vec) :=
  distrib_stationary_0 <- solve_invariant_distribution self 1 pol_exit ;;
  let m_star := solve_m_star self distrib_stationary_0 firm_output in
  let distrib_stationary := scale m_star distrib_stationary_0 in
  Return (distrib_stationary_0, m_star, distrib_stationary).

Definition solve_model (self : Hopenhayn) : result Solution :=
  (* a. the price, by bisection *)
  price_ss <- solve_firm self ;;
  (* b. the incumbent's solution at that price, and the exit decision *)
  let '(VF, firm_profit, firm_output, pol_n) := solve_vf self price_ss in
  '(exit_cutoff, pol_exit) <- exit_decision self VF ;;
  (* c, d, e. the stationary distribution *)
  '(distrib_stationary_0, m_star, distrib_stationary) <-
     stationary_steps self pol_exit firm_output ;;
  let total_mass := sum distrib_stationary in
  let pdf_stationary := map (fun x => x / total_mass) distrib_stationary in
  let cdf_stationary := cumsum pdf_stationary in
  (* f. employment distributions *)
  let distrib_emp :=
    map (fun x => x / sum (vmul pol_n pdf_stationary))
        (vmul pol_n pdf_stationary) in
  let pdf_emp := map (fun x => x / sum distrib_emp) distrib_emp in
  let cdf_emp := cumsum pdf_emp in
  (* g. statistics *)
  let total_employment := dot pol_n distrib_stationary in
  let average_firm_size := total_employment / total_mass in
  let exit_rate := m_star / total_mass in
  Return {| price_ss := price_ss; VF := VF; firm_profit := firm_profit;
            firm_output := firm_output; pol_n := pol_n;
            exit_cutoff := exit_cutoff; pol_exit := pol_exit;
            distrib_stationary_0 := distrib_stationary_0;
            m_star := m_star; distrib_stationary := distrib_stationary;
            total_mass := total_mass; pdf_stationary := pdf_stationary;
            cdf_stationary := cdf_stationary; distrib_emp := distrib_emp;
            pdf_emp := pdf_emp; cdf_emp := cdf_emp;
            total_employment := total_employment;
            average_firm_size := average_firm_size;
            exit_rate := exit_rate |}.

(** ** Specification-side definitions *)

(** The expected entrant value at a trial price: steps ii and iii of the
    loop of [solve_firm]. *)
Definition entrant_value (self : Hopenhayn) (price : R) : R :=
  let '(VF, _, _, _) := solve_vf self price in
  entry_condition self VF.

(** The free-entry condition within tolerance. *)
Definition free_entry (self : Hopenhayn) (price : R) : Prop :=
  Rabs (entrant_value self price - ce self) < tol self.

Definition midpoint (pmin pmax : R) : R := (pmin + pmax) / 2.

(** Bisection as the specification words it: [bisection self k pmin pmax]
    says that [pmin, pmax] is the search interval after [k] candidates were
    tried and none met the tolerance.  The candidate is the midpoint; when
    the entrant value there is below [ce] the lower endpoint is raised to
    it, otherwise the upper endpoint is lowered to it. *)
Inductive bisection (self : Hopenhayn) : nat -> R -> R -> Prop :=
| bisection_start : bisection self 0 0.01 100
| bisection_raise k pmin pmax :
    bisection self k pmin pmax ->
    ~ free_entry self (midpoint pmin pmax) ->
    entrant_value self (midpoint pmin pmax) < ce self ->
    bisection self (S k) (midpoint pmin pmax) pmax
| bisection_lower k pmin pmax :
    bisection self k pmin pmax ->
    ~ free_entry self (midpoint pmin pmax) ->
    ~ entrant_value self (midpoint pmin pmax) < ce self ->
    bisection self (S k) pmin (midpoint pmin pmax).

(** The chain [rouwenhorst(2, 0.5, 0.5, 0)]: states 0 and 1, every
    transition probability one half, uniform stationary distribution. *)
Definition iid_chain : MarkovChain := {|
  P := [[1 / 2; 1 / 2]; [1 / 2; 1 / 2]];
  state_values := [0; 1];
  stationary_distribution := [1 / 2; 1 / 2]
|}.

(** The model [Hopenhayn(cf=1e9, rho_z=0, sigma_u=0.5, Nz=2, z_bar=0.5)].
    The fixed cost is above any profit a price of the search interval
    allows. *)
Definition costly_params : Params := {|
  p_beta := 0.8; p_theta := 2 / 3; p_cf := 1e9; p_ce := 40; p_D := 100;
  p_wage := 1; p_rho_z := 0; p_sigma_u := 0.5; p_Nz := 2; p_z_bar := 0.5;
  p_plott := true
|}.

Definition costly : Hopenhayn := init costly_params iid_chain.

(** The price the bisection of [costly] ends on: the lower endpoint is
    raised at each of the 2000 iterations. *)
Definition costly_price : R := 100 - (100 - 0.01) / 2 ^ 2000.

(** Value-function iterates as the specification words them: the [k]-th
    iterate of the Bellman update from [VF = 0], and the distance between
    iterates [k] and [k + 1]. *)
Fixpoint vf_iter (self : Hopenhayn) (firm_profit : vec) (k : nat) : vec :=
  match k with
  | O => zeros (Nz self)
  | S k' => vf_update self firm_profit (vf_iter self firm_profit k')
  end.

Definition vf_iter_dist (self : Hopenhayn) (firm_profit : vec) (k : nat) : R :=
  vf_dist (vf_iter self firm_profit k) (vf_iter self firm_profit (S k)).

(** Order and shape of arrays, as the data model words them. *)
Definition nondecreasing (v : vec) : Prop :=
  forall i j, (i <= j < length v)%nat -> nth i v 0 <= nth j v 0.

Definition increasing (v : vec) : Prop :=
  forall i j, (i < j < length v)%nat -> nth i v 0 < nth j v 0.

Definition positive (v : vec) : Prop := Forall (fun x => 0 < x) v.

(** An [n] by [n] transition matrix: rows of probabilities that sum to 1. *)
Definition transition_matrix (n : nat) (A : mat) : Prop :=
  square n A /\
  Forall (fun row => Forall (fun x => 0 <= x) row /\ sum row = 1) A.

(** The mass a row puts on the states from [k] upwards. *)
Definition tail_mass (k : nat) (row : vec) : R := sum (skipn k row).

(** A monotone transition matrix: a higher state today makes every upper
    set of states tomorrow at least as likely. *)
Definition monotone_matrix (A : mat) : Prop :=
  forall i j k, (i <= j < length A)%nat ->
                tail_mass k (nth i A []) <= tail_mass k (nth j A []).

(** The static profit of a firm with productivity [z] at [price]: the
    entries of the profit array of [incumbent_firm]. *)
Definition static_profit (self : Hopenhayn) (price z : R) : R :=
  let n := power (theta self * price * z / wage self) (1 / (1 - theta self)) in
  price * (z * power n (theta self)) - wage self * n - cf self * 1.

(** The model [Hopenhayn(rho_z=0.5, sigma_u=sqrt(3)/4, Nz=2, z_bar=0.25)],
    other arguments at their defaults: [rouwenhorst(2, 0.25, sqrt(3)/4, 0.5)]
    is the chain with states 0 and 1 that stays put with probability 3/4. *)
Definition persistent_chain : MarkovChain := {|
  P := [[3 / 4; 1 / 4]; [1 / 4; 3 / 4]];
  state_values := [0; 1];
  stationary_distribution := [1 / 2; 1 / 2]
|}.

Definition persistent_params : Params := {|
  p_beta := 0.8; p_theta := 2 / 3; p_cf := 20; p_ce := 40; p_D := 100;
  p_wage := 1; p_rho_z := 0.5; p_sigma_u := sqrt 3 / 4; p_Nz := 2;
  p_z_bar := 0.25; p_plott := true
|}.

Definition persistent : Hopenhayn := init persistent_params persistent_chain.

(** The model [Hopenhayn(beta=0.9999, rho_z=0, sigma_u=0.5, Nz=2,
    z_bar=0.5)]: a firm so patient that value-function iteration is far from
    its fixed point after 2000 updates. *)
Definition patient_params : Params := {|
  p_beta := 0.9999; p_theta := 2 / 3; p_cf := 20; p_ce := 40; p_D := 100;
  p_wage := 1; p_rho_z := 0; p_sigma_u := 0.5; p_Nz := 2; p_z_bar := 0.5;
  p_plott := true
|}.

Definition patient : Hopenhayn := init patient_params iid_chain.

(** The partial sums [q + b q + ... + b^(k-1) q]: the continuation value
    of [patient] after [k] updates, for [q] the mean profit. *)
Fixpoint geometric_sum (b q : R) (k : nat) : R :=
  match k with
  | O => 0
  | S k' => q + b * geometric_sum b q k'
  end.

(** Proof steps for the example models: equality of arrays entry by
    entry, comparisons of reals decided, and the arrays of [persistent]
    written out. *)
Ltac list_eq :=
  repeat match goal with
         | |- _ :: _ = _ :: _ => apply f_equal2
         | |- @nil _ = @nil _ => reflexivity
         end.

Ltac decide_Rlt :=
  repeat match goal with
         | |- context [Rlt_dec ?x ?y] =>
             destruct (Rlt_dec x y); try lra
         end.

Ltac unfold_persistent :=
  cbv [msub eye pi_tilde transpose col zip_with vsub map seq nth Nat.eqb
       mat_mul mat_vec dot scale
       persistent init setup_parameters setup_grid persistent_params
       persistent_chain pi nu Nz D P stationary_distribution p_Nz p_D].

(** ** Further definitions: the rest of the class *)

(** *** 2. Helper functions *)

(** [a\[k\]] for a Python integer [k]: a negative index counts from the end,
    and an index outside [-len(a), len(a) - 1] raises [IndexError]. *)
Definition pyindex {A : Type} (a : list A) (k : Z) : result A :=
  if (0 <=? k)%Z then getitem a (Z.to_nat k)
  else if (- Z.of_nat (length a) <=? k)%Z
       then getitem a (Z.to_nat (Z.of_nat (length a) + k))
       else Raise IndexError.

(** [np.searchsorted(a, v, side='right')]: numpy's binary search with the
    comparison [v < a\[mid\]]. *)
Fixpoint binsearch_right (fuel : nat) (a : vec) (v : R)
    (min_idx max_idx : nat) : nat :=
  match fuel with
  | O => min_idx
  | S fuel' =>
      if (min_idx <? max_idx)%nat then
        let mid_idx := (min_idx + (max_idx - min_idx) / 2)%nat in
        if Rlt_dec v (nth mid_idx a 0)
        then binsearch_right fuel' a v min_idx mid_idx
        else binsearch_right fuel' a v (S mid_idx) max_idx
      else min_idx
  end.

Definition searchsorted_right (a : vec) (v : R) : nat :=
  binsearch_right (length a) a v 0 (length a).

(** [interpol(x, y, x1)] for a scalar [x1]: linear interpolation between the
    neighbours of [x1], the last segment's line above [x\[-1\]], and [y\[0\]]
    below [x\[0\]].  [np.where] is given both of its branches evaluated. *)
Definition interpol (x y : vec) (x1 : R) : result (R * Z) :=
  let N := Z.of_nat (length x) in
  let i := Z.min (Z.max (Z.of_nat (searchsorted_right x x1)) 1) (N - 1) in
  xl <- pyindex x (i - 1) ;;
  xr <- pyindex x i ;;
  yl <- pyindex y (i - 1) ;;
  yr <- pyindex y i ;;
  let y1 := yl + (yr - yl) / (xr - xl) * (x1 - xl) in
  x_last <- pyindex x (-1) ;;
  x_first <- pyindex x 0 ;;
  y_last <- pyindex y (-1) ;;
  y_before <- pyindex y (-2) ;;
  x_before <- pyindex x (-2) ;;
  y_first <- pyindex y 0 ;;
  let y1 :=
    if Rgt_dec x1 x_last
    then y_last + (x1 - x_last) * (y_last - y_before) / (x_last - x_before)
    else y1 in
  let y1 := if Rlt_dec x1 x_first then y_first else y1 in
  Return (y1, i).

(** *** The employment buckets of [solve_model]'s pie charts *)

(** [a\[i\] = v] for an index inside the array. *)
Fixpoint set_item (a : vec) (i : nat) (v : R) : vec :=
  match a, i with
  | [], _ => []
  | _ :: t, O => v :: t
  | x :: t, S i' => x :: set_item t i' v
  end.

Definition employed : vec := [20; 50; 100; 500].

(** The loop that fills a share array: entry [i] is the interpolated
    cumulative share at [employed\[i\]] less the sum of the array so far. *)
Fixpoint share_loop (x y : vec) (buckets : vec) (i : nat) (shares : vec)
  : result vec :=
  match buckets with
  | [] => Return shares
  | b :: rest =>
      let summ := sum shares in
      '(interpolate, _) <- interpol x y b ;;
      share_loop x y rest (S i) (set_item shares i (interpolate - summ))
  end.

(** The shares over the buckets [buckets], and a last entry for what lies
    above them ([share\[-1\] = 1 - np.sum(share)]). *)
Definition bucket_shares (x y : vec) (buckets : vec) : result vec :=
  shares <- share_loop x y buckets 0 (zeros (length buckets + 1)) ;;
  Return (set_item shares (length buckets) (1 - sum shares)).

(** [self.share_firms] and [self.share_employment]. *)
Definition share_firms (S : Solution) : result vec :=
  bucket_shares (pol_n S) (cdf_stationary S) employed.

Definition share_employment (S : Solution) : result vec :=
  bucket_shares (pol_n S) (cdf_emp S) employed.

(** *** Example objects for the properties below *)

(** The assignment [self.maxit = n]. *)
Definition set_maxit (self : Hopenhayn) (n : nat) : Hopenhayn := {|
  beta := beta self; theta := theta self; cf := cf self; ce := ce self;
  D := D self; wage := wage self; rho_z := rho_z self;
  sigma_u := sigma_u self; Nz := Nz self; z_bar := z_bar self;
  plott := plott self; tol := tol self; maxit := n; mc := mc self;
  pi := pi self; grid_z := grid_z self; nu := nu self
|}.

(** [Hopenhayn(cf=150000, rho_z=0.5, sigma_u=sqrt(3)/4, Nz=2, z_bar=0.25)]
    with [maxit] then set to 1: one bisection step and one Bellman update,
    after which the low state exits and the high state stays. *)
Definition one_pass_params : Params := {|
  p_beta := 0.8; p_theta := 2 / 3; p_cf := 150000; p_ce := 40; p_D := 100;
  p_wage := 1; p_rho_z := 0.5; p_sigma_u := sqrt 3 / 4; p_Nz := 2;
  p_z_bar := 0.25; p_plott := true
|}.

Definition one_pass : Hopenhayn :=
  set_maxit (init one_pass_params persistent_chain) 1.

(** What [solve_model] leaves on [one_pass]: the price after one bisection
    step, the value after one Bellman update, exit in the low state only. *)
Definition one_pass_price : R := (0.01 + 100) / 2.

Definition one_pass_solution : Solution :=
  let price_ss := one_pass_price in
  let '(firm_profit, firm_output, pol_n) :=
    incumbent_firm one_pass price_ss in
  let VF := firm_profit in
  let exit_cutoff := exp 1 in
  let pol_exit := [1%Z; 0%Z] in
  let distrib_stationary_0 := [1; 2] in
  let m_star := solve_m_star one_pass distrib_stationary_0 firm_output in
  let distrib_stationary := scale m_star distrib_stationary_0 in
  let total_mass := sum distrib_stationary in
  let pdf_stationary := map (fun x => x / total_mass) distrib_stationary in
  let cdf_stationary := cumsum pdf_stationary in
  let distrib_emp :=
    map (fun x => x / sum (vmul pol_n pdf_stationary))
        (vmul pol_n pdf_stationary) in
  let pdf_emp := map (fun x => x / sum distrib_emp) distrib_emp in
  let cdf_emp := cumsum pdf_emp in
  let total_employment := dot pol_n distrib_stationary in
  let average_firm_size := total_employment / total_mass in
  let exit_rate := m_star / total_mass in
  {| price_ss := price_ss; VF := VF; firm_profit := firm_profit;
     firm_output := firm_output; pol_n := pol_n;
     exit_cutoff := exit_cutoff; pol_exit := pol_exit;
     distrib_stationary_0 := distrib_stationary_0;
     m_star := m_star; distrib_stationary := distrib_stationary;
     total_mass := total_mass; pdf_stationary := pdf_stationary;
     cdf_stationary := cdf_stationary; distrib_emp := distrib_emp;
     pdf_emp := pdf_emp; cdf_emp := cdf_emp;
     total_employment := total_employment;
     average_firm_size := average_firm_size;
     exit_rate := exit_rate |}.

(** *** The price search in rounded arithmetic *)



(** The same loop on binary64 numbers, the arithmetic of the Python run. *)
Module Binary64.

Import PrimFloat.

Fixpoint price_loop (VF_entrant_at : float -> float) (ce tol : float)
    (n : nat) (pmin pmax : float) (price : option float) : option float :=
  match n with
  | O => price
  | S n' =>
      let price := ((pmin + pmax) / 2)%float in
      let VF_entrant := VF_entrant_at price in
      let diff := abs (VF_entrant - ce)%float in
      if (diff <? tol)%float then Some price
      else if (VF_entrant <? ce)%float
           then price_loop VF_entrant_at ce tol n' price pmax (Some price)
           else price_loop VF_entrant_at ce tol n' pmin price (Some price)
  end.

#[warnings="-inexact-float"]
Definition solve_firm (VF_entrant_at : float -> float) (ce tol : float)
    (maxit : nat) : result float :=
  let '(pmin, pmax) := (0.01%float, 100%float) in
  match price_loop VF_entrant_at ce tol maxit pmin pmax None with
  | Some price => Return price
  | None => Raise UnboundLocalError
  end.

End Binary64.

(** ** Arrays: basic facts *)

Lemma zip_with_length {A B C : Type} (f : A -> B -> C) u v :
  length (zip_with f u v) = Nat.min (length u) (length v).
Proof.
  revert v; induction u as [|x u IH]; intros [|y v]; simpl; auto.
Qed.

Lemma zip_with_nth {A B C : Type} (f : A -> B -> C) u v i da db dc :
  (i < length u)%nat -> (i < length v)%nat ->
  nth i (zip_with f u v) dc = f (nth i u da) (nth i v db).
Proof.
  revert v i; induction u as [|x u IH]; intros [|y v] [|i]; simpl; intros;
    try lia; auto.
  apply IH; lia.
Qed.

(** ** The price bisection of [solve_firm] *)

(** The body of the loop, read through [entrant_value]. *)
Lemma price_loop_step self n pmin pmax price :
  price_loop self (S n) pmin pmax price =
  if Rlt_dec (Rabs (entrant_value self (midpoint pmin pmax) - ce self))
             (tol self)
  then Some (midpoint pmin pmax)
  else if Rlt_dec (entrant_value self (midpoint pmin pmax)) (ce self)
       then price_loop self n (midpoint pmin pmax) pmax
                       (Some (midpoint pmin pmax))
       else price_loop self n pmin (midpoint pmin pmax)
                       (Some (midpoint pmin pmax)).
Proof.
  unfold entrant_value, midpoint. cbn [price_loop].
  destruct (solve_vf self ((pmin + pmax) / 2)) as [[[V fp] fo] pn].
  reflexivity.
Qed.

(** The search interval halves at every step and stays inside the initial
    one. *)
Lemma bisection_bracket self k pmin pmax :
  bisection self k pmin pmax ->
  0.01 <= pmin /\ pmin < pmax /\ pmax <= 100 /\
  pmax - pmin = (100 - 0.01) / 2 ^ k.
Proof.
  induction 1 as [|k lo hi _ IH _ _|k lo hi _ IH _ _].
  - simpl. repeat split; lra.
  - destruct IH as (H1 & H2 & H3 & H4). unfold midpoint.
    repeat split; try lra.
    simpl. replace ((100 - 0.01) / (2 * 2 ^ k))
      with ((100 - 0.01) / 2 ^ k / 2)
      by (field; apply pow_nonzero; lra).
    rewrite <- H4. lra.
  - destruct IH as (H1 & H2 & H3 & H4). unfold midpoint.
    repeat split; try lra.
    simpl. replace ((100 - 0.01) / (2 * 2 ^ k))
      with ((100 - 0.01) / 2 ^ k / 2)
      by (field; apply pow_nonzero; lra).
    rewrite <- H4. lra.
Qed.

(** What the loop returns from any interval the bisection reaches: the
    first candidate that meets the tolerance, or the last one tried. *)
Lemma price_loop_bisection self n :
  forall k pmin pmax price,
    bisection self k pmin pmax ->
    exists j lo hi,
      (k <= j < k + S n)%nat /\
      bisection self j lo hi /\
      price_loop self (S n) pmin pmax price = Some (midpoint lo hi) /\
      (free_entry self (midpoint lo hi) \/
       (S j = k + S n)%nat /\ ~ free_entry self (midpoint lo hi)).
Proof.
  induction n as [|n IH]; intros k pmin pmax price Hb;
    rewrite price_loop_step;
    destruct (Rlt_dec (Rabs (entrant_value self (midpoint pmin pmax)
                             - ce self)) (tol self)) as [Hfe|Hfe].
  - exists k, pmin, pmax. repeat split; auto; lia.
  - exists k, pmin, pmax.
    destruct (Rlt_dec (entrant_value self (midpoint pmin pmax)) (ce self));
      simpl; repeat split; auto; try lia; right; split; auto; lia.
  - exists k, pmin, pmax. repeat split; auto; lia.
  - destruct (Rlt_dec (entrant_value self (midpoint pmin pmax)) (ce self))
      as [Hlt|Hlt].
    + destruct (IH (S k) (midpoint pmin pmax) pmax
                   (Some (midpoint pmin pmax)))
        as (j & lo & hi & Hj & Hbj & Heq & Hend).
      { apply bisection_raise; assumption. }
      exists j, lo, hi. repeat split; auto; try lia.
      destruct Hend as [?|[? ?]]; [left; assumption|right; split; auto; lia].
    + destruct (IH (S k) pmin (midpoint pmin pmax)
                   (Some (midpoint pmin pmax)))
        as (j & lo & hi & Hj & Hbj & Heq & Hend).
      { apply bisection_lower; assumption. }
      exists j, lo, hi. repeat split; auto; try lia.
      destruct Hend as [?|[? ?]]; [left; assumption|right; split; auto; lia].
Qed.

(** When every price of the interval leaves the entrant below the entry
    cost and outside the tolerance, each step raises the lower endpoint and
    the loop ends on its last candidate. *)
Lemma price_loop_raise_all self n :
  forall pmin pmax price,
    pmin < pmax ->
    (forall p, pmin < p < pmax ->
               entrant_value self p < ce self /\ ~ free_entry self p) ->
    price_loop self (S n) pmin pmax price =
    Some (pmax - (pmax - pmin) / 2 ^ S n).
Proof.
  induction n as [|n IH]; intros pmin pmax price Hlt Hall;
    rewrite price_loop_step;
    destruct (Hall (midpoint pmin pmax)) as [Hev Hfe];
    try (unfold midpoint; lra);
    unfold free_entry in Hfe;
    destruct (Rlt_dec (Rabs (entrant_value self (midpoint pmin pmax)
                             - ce self)) (tol self)); try contradiction;
    destruct (Rlt_dec (entrant_value self (midpoint pmin pmax)) (ce self));
    try contradiction.
  - simpl. f_equal. unfold midpoint. field.
  - rewrite IH.
    + f_equal. unfold midpoint.
      change (2 ^ S (S n)) with (2 * 2 ^ S n).
      field. apply pow_nonzero; lra.
    + unfold midpoint; lra.
    + intros p Hp. apply Hall. unfold midpoint in Hp. lra.
Qed.

(** ** Value-function iteration *)

Lemma dot_zeros row n : dot row (zeros n) = 0.
Proof.
  revert n; induction row as [|x row IH]; intros [|n]; simpl; auto.
  unfold zeros in IH. rewrite IH. ring.
Qed.

Lemma dot_nonpos row v :
  Forall (fun x => 0 <= x) row -> Forall (fun x => x <= 0) v ->
  dot row v <= 0.
Proof.
  intros Hrow; revert v; induction Hrow as [|x row Hx _ IH];
    intros v Hv; simpl; [lra|].
  destruct Hv as [|y v Hy Hv]; [lra|].
  specialize (IH v Hv). nra.
Qed.

(** Where no state has a positive continuation value the update returns
    the profits. *)
Lemma vf_update_no_continuation self firm_profit V :
  (length firm_profit <= length (pi self))%nat ->
  Forall (fun row => dot row V <= 0) (pi self) ->
  vf_update self firm_profit V = firm_profit.
Proof.
  unfold vf_update, vadd, scale, clip_min, mat_vec.
  generalize (pi self) as A. intros A.
  revert A; induction firm_profit as [|p fp IH]; intros [|row A] Hlen HA;
    simpl in *; try lia; auto.
  inversion HA as [|? ? Hrow HA']; subst.
  rewrite IH by (auto; lia).
  f_equal. rewrite Rmax_right by assumption. ring.
Qed.

Lemma amax_zero v : Forall (fun x => x = 0) v -> amax v = 0.
Proof.
  destruct 1 as [|x v Hx Hv]; simpl; auto. subst x.
  induction Hv as [|y v Hy _ IH]; simpl; auto.
  subst y. rewrite Rmax_left by lra. exact IH.
Qed.

Lemma vf_dist_same V : vf_dist V V = 0.
Proof.
  unfold vf_dist. apply amax_zero.
  induction V as [|x V IH]; simpl; constructor; auto.
  replace (x - x) with 0 by ring. apply Rabs_R0.
Qed.

(** With no positive continuation value anywhere, two iterations reach the
    fixed point, which is the profit vector. *)
Lemma vf_loop_no_continuation self firm_profit n :
  0 < tol self ->
  (length firm_profit <= length (pi self))%nat ->
  Forall (fun row => dot row (zeros (Nz self)) <= 0) (pi self) ->
  Forall (fun row => dot row firm_profit <= 0) (pi self) ->
  vf_loop self firm_profit (S (S n)) (zeros (Nz self)) (zeros (Nz self))
  = firm_profit.
Proof.
  intros Htol Hlen H0 Hp.
  cbn [vf_loop].
  rewrite (vf_update_no_continuation self firm_profit (zeros (Nz self)))
    by assumption.
  destruct (Rlt_dec (vf_dist (zeros (Nz self)) firm_profit) (tol self));
    [reflexivity|].
  rewrite (vf_update_no_continuation self firm_profit firm_profit)
    by assumption.
  rewrite vf_dist_same.
  destruct (Rlt_dec 0 (tol self)); [reflexivity|contradiction].
Qed.

(** The loop of [solve_vf] against the iterates: started on iterate [k]
    with [n] iterations left, it returns iterate [j], no update before the
    last met the tolerance, and it stops short of [n] updates only when the
    last one met it. *)
Lemma vf_loop_iter self firm_profit n :
  forall k,
  exists j,
    (k <= j <= k + n)%nat /\
    vf_loop self firm_profit n (vf_iter self firm_profit k)
            (vf_iter self firm_profit k) = vf_iter self firm_profit j /\
    (forall i, (k <= i)%nat -> (S i < j)%nat ->
               ~ vf_iter_dist self firm_profit i < tol self) /\
    ((j < k + n)%nat ->
     exists i, j = S i /\ (k <= i)%nat /\
               vf_iter_dist self firm_profit i < tol self).
Proof.
  induction n as [|n IH]; intros k.
  - exists k. repeat split; auto; try lia.
  - cbn [vf_loop].
    change (vf_update self firm_profit (vf_iter self firm_profit k))
      with (vf_iter self firm_profit (S k)).
    change (vf_dist (vf_iter self firm_profit k)
                    (vf_iter self firm_profit (S k)))
      with (vf_iter_dist self firm_profit k).
    destruct (Rlt_dec (vf_iter_dist self firm_profit k) (tol self))
      as [Hd|Hd].
    + exists (S k). repeat split; auto; try lia.
      intros _. exists k. repeat split; auto.
    + destruct (IH (S k)) as (j & Hj & Heq & Hbefore & Hshort).
      exists j. repeat split; auto; try lia.
      * intros i Hi Hij.
        destruct (Nat.eq_dec i k) as [->|Hne]; [assumption|].
        apply Hbefore; lia.
      * intros Hlt. destruct Hshort as (i & -> & Hi & Hdi); [lia|].
        exists i. repeat split; auto; lia.
Qed.

(** ** The model [costly] *)

Lemma costly_profit_negative price z :
  0 < price <= 100 -> 0 < z <= 3 ->
  price * (z * power (power (2 / 3 * price * z / 1) (1 / (1 - 2 / 3))) (2 / 3))
  - 1 * power (2 / 3 * price * z / 1) (1 / (1 - 2 / 3)) - 1e9 * 1 < 0.
Proof.
  intros Hp Hz. unfold power.
  set (x := 2 / 3 * price * z / 1).
  assert (Hx : 0 < x) by (unfold x; nra).
  assert (Hx200 : x <= 200) by (unfold x; nra).
  replace (1 / (1 - 2 / 3)) with 3 by field.
  rewrite Rpower_mult.
  replace (3 * (2 / 3)) with (INR 2) by (simpl; field).
  rewrite Rpower_pow by assumption.
  assert (Hn : 0 < Rpower x 3) by (unfold Rpower; apply exp_pos).
  assert (Hxx : x ^ 2 <= 40000) by nra.
  assert (Hxx0 : 0 <= x ^ 2) by nra.
  assert (Hpz : price * z <= 300) by nra.
  assert (Hpz0 : 0 <= price * z) by nra.
  assert (price * z * x ^ 2 <= 300 * 40000) by nra.
  nra.
Qed.

Lemma costly_incumbent_firm price :
  0 < price <= 100 ->
  exists p0 p1 fo pn,
    incumbent_firm costly price = ([p0; p1], fo, pn) /\ p0 < 0 /\ p1 < 0.
Proof.
  intros Hp.
  unfold incumbent_firm.
  cbv [costly init setup_parameters setup_grid costly_params iid_chain
       grid_z theta wage cf Nz P state_values p_theta p_wage p_cf p_Nz
       map vmul vsub scale zip_with ones repeat].
  do 4 eexists. split; [reflexivity|].
  split; apply costly_profit_negative; auto.
  - rewrite exp_0; lra.
  - split; [apply exp_pos|apply exp_le_3].
Qed.

(** At every price of the search interval the value function of [costly]
    is its (negative) profit vector. *)
Lemma costly_solve_vf price :
  0 < price <= 100 ->
  exists p0 p1 fo pn,
    solve_vf costly price = ([p0; p1], [p0; p1], fo, pn) /\ p0 < 0 /\ p1 < 0.
Proof.
  intros Hp.
  destruct (costly_incumbent_firm price Hp)
    as (p0 & p1 & fo & pn & Heq & H0 & H1).
  exists p0, p1, fo, pn. split; [|split; assumption].
  unfold solve_vf. rewrite Heq.
  change (maxit costly) with (S (S 1998)).
  rewrite vf_loop_no_continuation; [reflexivity| | | |].
  - change (tol costly) with 1e-8. lra.
  - simpl. lia.
  - change (pi costly) with [[1 / 2; 1 / 2]; [1 / 2; 1 / 2]].
    change (zeros (Nz costly)) with [0; 0].
    repeat constructor; simpl; lra.
  - change (pi costly) with [[1 / 2; 1 / 2]; [1 / 2; 1 / 2]].
    repeat constructor; simpl; lra.
Qed.

Lemma costly_entrant_value price :
  0 < price <= 100 -> entrant_value costly price < 0.
Proof.
  intros Hp.
  destruct (costly_solve_vf price Hp) as (p0 & p1 & fo & pn & Heq & H0 & H1).
  unfold entrant_value. rewrite Heq.
  unfold entry_condition.
  change (nu costly) with [1 / 2; 1 / 2].
  change (beta costly) with 0.8.
  simpl. lra.
Qed.

Lemma costly_never_free_entry price :
  0 < price <= 100 ->
  entrant_value costly price < ce costly /\ ~ free_entry costly price.
Proof.
  intros Hp. pose proof (costly_entrant_value price Hp) as Hev.
  unfold free_entry.
  change (ce costly) with 40. change (tol costly) with 1e-8.
  split; [lra|].
  intros Habs. rewrite Rabs_left in Habs by lra. lra.
Qed.

(** The bisection of [costly] raises the lower endpoint two thousand times
    and returns the last candidate. *)
Lemma costly_solve_firm : solve_firm costly = Return costly_price.
Proof.
  unfold solve_firm.
  change (maxit costly) with (S 1999).
  rewrite price_loop_raise_all.
  - reflexivity.
  - lra.
  - intros p Hp. apply costly_never_free_entry. lra.
Qed.

Lemma costly_price_inside : 0 < costly_price <= 100.
Proof.
  unfold costly_price.
  assert (H1 : 1 <= 2 ^ 2000) by (apply pow_R1_Rle; lra).
  assert (H2 : 0 < / 2 ^ 2000 <= 1).
  { split; [apply Rinv_0_lt_compat; lra|].
    rewrite <- Rinv_1. apply Rinv_le_contravar; lra. }
  unfold Rdiv. generalize dependent (/ 2 ^ 2000). intros t Ht. nra.
Qed.

(** *** What [solve_firm] returns *)

(** C1 (as amended).  [solve_firm] bisects on the price from the interval
    [0.01, 100]: every candidate is the midpoint of the current interval;
    where the entrant value is below [ce] the lower endpoint is raised to
    the candidate, otherwise the upper endpoint is lowered to it
    ([bisection]); the loop stops on the first candidate that meets
    [|entrant value - ce| < tol], or after [maxit] candidates.  The
    free-entry condition holds at the returned price when the loop stopped
    on the tolerance; after [maxit] candidates the last one is returned
    whether or not the condition holds there.  This is for [theta <> 1]:
    at [theta = 1] the exponent [1 / (1 - theta)] of [incumbent_firm]
    raises [ZeroDivisionError] and nothing is returned. *)
Theorem solve_firm_bisection self :
  (0 < maxit self)%nat -> theta self <> 1 ->
  exists k pmin pmax,
    (k < maxit self)%nat /\
    bisection self k pmin pmax /\
    solve_firm self = Return (midpoint pmin pmax) /\
    (free_entry self (midpoint pmin pmax) \/
     S k = maxit self /\ ~ free_entry self (midpoint pmin pmax)).
Proof.
  intros Hmax _. unfold solve_firm.
  destruct (maxit self) as [|n] eqn:Hn; [lia|].
  destruct (price_loop_bisection self n 0 0.01 100 None (bisection_start self))
    as (j & lo & hi & Hj & Hb & Heq & Hend).
  exists j, lo, hi. rewrite Heq. repeat split; auto; lia.
Qed.

Lemma solve_firm_bisection_witness :
  exists k pmin pmax,
    (k < maxit costly)%nat /\
    bisection costly k pmin pmax /\
    solve_firm costly = Return (midpoint pmin pmax) /\
    (free_entry costly (midpoint pmin pmax) \/
     S k = maxit costly /\ ~ free_entry costly (midpoint pmin pmax)).
Proof.
  apply (solve_firm_bisection costly).
  - change (maxit costly) with (S 1999). apply Nat.lt_0_succ.
  - change (theta costly) with (2 / 3). lra.
Defined.

(** C1, counterexample.  For [Hopenhayn(cf=1e9, rho_z=0, sigma_u=0.5, Nz=2,
    z_bar=0.5)] the bisection runs its 2000 iterations and returns a price
    at which the free-entry condition fails. *)
Lemma solve_firm_free_entry_counterexample :
  solve_firm costly = Return costly_price /\
  ~ Rabs (entrant_value costly costly_price - ce costly) < tol costly.
Proof.
  split; [exact costly_solve_firm|].
  apply (costly_never_free_entry costly_price costly_price_inside).
Qed.

(** In exact arithmetic the price [solve_firm] returns is the midpoint of
    an interval the bisection reached, whose endpoints stay in [0.01, 100]
    with [pmin < price < pmax]. *)
Lemma solve_firm_price_inside self price :
  solve_firm self = Return price ->
  0.01 < price < 100 /\
  exists k pmin pmax,
    bisection self k pmin pmax /\ price = midpoint pmin pmax /\
    0.01 <= pmin /\ pmin < price < pmax /\ pmax <= 100.
Proof.
  unfold solve_firm.
  destruct (maxit self) as [|n]; [simpl; discriminate|].
  destruct (price_loop_bisection self n 0 0.01 100 None (bisection_start self))
    as (j & lo & hi & _ & Hb & Heq & _).
  rewrite Heq. intros H; injection H as <-.
  destruct (bisection_bracket self j lo hi Hb) as (H1 & H2 & H3 & _).
  assert (Hmid : lo < midpoint lo hi < hi) by (unfold midpoint; lra).
  split; [lra|].
  exists j, lo, hi. repeat split; auto; lra.
Qed.







Module Binary64Run.

Import PrimFloat.


End Binary64Run.

(** C8 (as amended).  [solve_firm] does not check its initial bracket and
    signals no error for it: whenever [maxit >= 1] and [theta <> 1] (so
    that the exponent [1 / (1 - theta)] of [incumbent_firm] is defined) it
    returns a price; and when the entrant value stays below [ce], outside
    the tolerance, over the whole interval (so that the interval brackets
    no root), it returns the last candidate,
    [100 - (100 - 0.01) / 2 ^ maxit]. *)
Theorem solve_firm_no_bracket_check self :
  (0 < maxit self)%nat -> theta self <> 1 ->
  (exists price, solve_firm self = Return price) /\
  ((forall p, 0.01 < p < 100 ->
              entrant_value self p < ce self /\ ~ free_entry self p) ->
   solve_firm self = Return (100 - (100 - 0.01) / 2 ^ maxit self)).
Proof.
  intros Hmax _. unfold solve_firm.
  destruct (maxit self) as [|n] eqn:Hn; [lia|]. split.
  - destruct (price_loop_bisection self n 0 0.01 100 None
                (bisection_start self)) as (j & lo & hi & _ & _ & Heq & _).
    rewrite Heq. eauto.
  - intros Hall. rewrite price_loop_raise_all; auto. lra.
Qed.

Lemma solve_firm_no_bracket_check_witness :
  (exists price, solve_firm costly = Return price) /\
  ((forall p, 0.01 < p < 100 ->
              entrant_value costly p < ce costly /\ ~ free_entry costly p) ->
   solve_firm costly = Return (100 - (100 - 0.01) / 2 ^ maxit costly)).
Proof.
  apply (solve_firm_no_bracket_check costly).
  - change (maxit costly) with (S 1999). apply Nat.lt_0_succ.
  - change (theta costly) with (2 / 3). lra.
Defined.

(** C8, counterexample.  For [costly] the entrant value at [pmax = 100],
    and at every price of the interval, is below [ce]: the initial interval
    brackets no root.  [solve_firm] raises nothing and returns a price. *)
Lemma solve_firm_bracket_counterexample :
  entrant_value costly 100 < ce costly /\
  (forall p, 0.01 <= p <= 100 -> entrant_value costly p < ce costly) /\
  solve_firm costly = Return costly_price /\
  ~ (exists e, solve_firm costly = Raise e).
Proof.
  split; [|split; [|split]].
  - apply costly_never_free_entry. lra.
  - intros p Hp. apply costly_never_free_entry. lra.
  - exact costly_solve_firm.
  - intros [e He]. rewrite costly_solve_firm in He. discriminate.
Qed.

(** With [maxit = 0] the loop body never runs and [return price] reads an
    unbound local. *)
Lemma solve_firm_no_iteration self :
  maxit self = 0%nat -> solve_firm self = Raise UnboundLocalError.
Proof. intros H. unfold solve_firm. rewrite H. reflexivity. Qed.

(** *** What [solve_vf] returns *)

Lemma vf_update_length self firm_profit V :
  length (vf_update self firm_profit V)
  = Nat.min (length firm_profit) (length (pi self)).
Proof.
  unfold vf_update, vadd, scale, clip_min, mat_vec.
  rewrite zip_with_length, !length_map. reflexivity.
Qed.

(** The update, entry by entry: the Bellman equation. *)
Lemma vf_update_nth self firm_profit V z :
  (z < length firm_profit)%nat -> (z < length (pi self))%nat ->
  nth z (vf_update self firm_profit V) 0
  = nth z firm_profit 0
    + beta self * Rmax 0 (nth z (mat_vec (pi self) V) 0).
Proof.
  intros Hz1 Hz2. unfold vf_update, vadd.
  rewrite (zip_with_nth Rplus _ _ z 0 0 0);
    [|assumption|unfold scale, clip_min, mat_vec; rewrite !length_map; assumption].
  f_equal. unfold scale, clip_min.
  rewrite (nth_indep _ 0 (beta self * Rmax 0 0))
    by (unfold mat_vec; rewrite !length_map; assumption).
  rewrite (map_nth (fun x => beta self * x)). f_equal.
  rewrite (map_nth (fun x => Rmax x 0)). apply Rmax_comm.
Qed.

(** [v.max()] is the largest entry. *)
Lemma fold_left_Rmax_spec v x :
  (fold_left Rmax v x = x \/ In (fold_left Rmax v x) v) /\
  x <= fold_left Rmax v x /\
  (forall y, In y v -> y <= fold_left Rmax v x).
Proof.
  revert x; induction v as [|a v IH]; intros x; simpl.
  - split; [left; reflexivity|]. split; [lra|]. intros y [].
  - destruct (IH (Rmax x a)) as (Hin & Hle & Hall).
    pose proof (Rmax_l x a). pose proof (Rmax_r x a).
    split; [|split].
    + destruct Hin as [Heq|Hin]; [|right; right; assumption].
      rewrite Heq. unfold Rmax. destruct (Rle_dec x a); auto.
    + lra.
    + intros y [<-|Hy]; [lra|auto].
Qed.

Lemma amax_spec v :
  v <> [] -> In (amax v) v /\ forall y, In y v -> y <= amax v.
Proof.
  destruct v as [|x v]; [congruence|]. intros _. simpl.
  destruct (fold_left_Rmax_spec v x) as (Hin & Hle & Hall).
  split.
  - destruct Hin as [->|Hin]; auto.
  - intros y [<-|Hy]; auto.
Qed.

(** C2.  For every price [solve_vf] returns, with the profit, output and
    labour arrays of [incumbent_firm], an iterate [j <= maxit] of the
    Bellman update started from [VF = 0]; the update is, entry by entry,
    [VF_new\[z\] = profit\[z\] + beta * max(0, (pi . VF_old)\[z\])]; the
    distance tested is the largest absolute difference between successive
    iterates; no update before the last met the tolerance; and the loop
    makes fewer than [maxit] updates only when the last one met it. *)
Theorem solve_vf_value_iteration self price :
  let '(firm_profit, firm_output, pol_n) := incumbent_firm self price in
  exists j,
    (j <= maxit self)%nat /\
    solve_vf self price
    = (vf_iter self firm_profit j, firm_profit, firm_output, pol_n) /\
    vf_iter self firm_profit 0 = zeros (Nz self) /\
    (forall k z,
        (z < length firm_profit)%nat -> (z < length (pi self))%nat ->
        nth z (vf_iter self firm_profit (S k)) 0
        = nth z firm_profit 0
          + beta self
            * Rmax 0 (nth z (mat_vec (pi self) (vf_iter self firm_profit k)) 0)) /\
    (forall k,
        let diffs := map Rabs (vsub (vf_iter self firm_profit k)
                                    (vf_iter self firm_profit (S k))) in
        diffs <> [] ->
        In (vf_iter_dist self firm_profit k) diffs /\
        forall d, In d diffs -> d <= vf_iter_dist self firm_profit k) /\
    (forall i, (S i < j)%nat -> ~ vf_iter_dist self firm_profit i < tol self) /\
    ((j < maxit self)%nat ->
     exists i, j = S i /\ vf_iter_dist self firm_profit i < tol self).
Proof.
  unfold solve_vf.
  destruct (incumbent_firm self price) as [[fp fo] pn].
  destruct (vf_loop_iter self fp (maxit self) 0)
    as (j & Hj & Heq & Hbefore & Hshort).
  exists j. simpl in Heq. rewrite Heq.
  split; [lia|]. split; [reflexivity|]. split; [reflexivity|].
  split; [intros k z Hz1 Hz2; apply vf_update_nth; assumption|].
  split; [intros k; cbv zeta; intros Hne; apply amax_spec; exact Hne|].
  split.
  - intros i Hi. apply Hbefore; lia.
  - intros Hlt. destruct Hshort as (i & -> & _ & Hd); [lia|].
    exists i. split; auto.
Qed.

(** When no update meets the tolerance the loop returns the [maxit]-th
    iterate. *)
Lemma vf_loop_exhausted self firm_profit :
  (forall i, (i < maxit self)%nat ->
             ~ vf_iter_dist self firm_profit i < tol self) ->
  vf_loop self firm_profit (maxit self) (zeros (Nz self)) (zeros (Nz self))
  = vf_iter self firm_profit (maxit self).
Proof.
  intros Hnever.
  destruct (vf_loop_iter self firm_profit (maxit self) 0)
    as (j & Hj & Heq & _ & Hshort).
  simpl in Heq. rewrite Heq.
  destruct (Nat.eq_dec j (maxit self)) as [->|Hne]; [reflexivity|].
  destruct Hshort as (i & -> & _ & Hd); [lia|].
  exfalso. apply (Hnever i); [lia|assumption].
Qed.

(** ** Monotonicity of the value function *)

Lemma nondecreasing_cons_inv x v :
  nondecreasing (x :: v) ->
  nondecreasing v /\ Forall (fun y => x <= y) v.
Proof.
  intros H. split.
  - intros i j Hij. apply (H (S i) (S j)). simpl. lia.
  - apply Forall_forall. intros y Hy.
    destruct (In_nth v y 0 Hy) as (i & Hi & <-).
    apply (H 0%nat (S i)). simpl. lia.
Qed.

Lemma nondecreasing_map_nth (f : R -> R) v :
  (forall i j, (i <= j < length v)%nat -> f (nth i v 0) <= f (nth j v 0)) ->
  nondecreasing (map f v).
Proof.
  intros H i j Hij. rewrite length_map in Hij.
  rewrite (nth_indep _ 0 (f 0)) by (rewrite length_map; lia).
  rewrite (nth_indep (map f v) 0 (f 0)) by (rewrite length_map; lia).
  rewrite !map_nth. apply H. exact Hij.
Qed.

(** Summation by parts: against a non-decreasing array, a row with more
    upper-tail mass has the larger expectation. *)
Lemma dot_tail_mass_le r :
  forall r' v c,
    length r = length v -> length r' = length v ->
    (forall k, tail_mass k r <= tail_mass k r') ->
    nondecreasing v -> Forall (fun y => c <= y) v ->
    c * (sum r' - sum r) <= dot r' v - dot r v.
Proof.
  induction r as [|a r IH]; intros [|a' r'] [|x v] c Hl Hl' Ht Hv Hc;
    simpl in *; try discriminate; try lra.
  destruct (nondecreasing_cons_inv x v Hv) as [Hv' Hx].
  assert (IHx : x * (sum r' - sum r) <= dot r' v - dot r v).
  { apply IH; auto. intros k. exact (Ht (S k)). }
  pose proof (Ht 0%nat) as H0. unfold tail_mass in H0. simpl in H0.
  inversion Hc as [|? ? Hcx _]; subst.
  nra.
Qed.

Lemma dot_monotone_rows r r' v :
  length r = length v -> length r' = length v ->
  sum r = sum r' ->
  (forall k, tail_mass k r <= tail_mass k r') ->
  nondecreasing v ->
  dot r v <= dot r' v.
Proof.
  intros Hl Hl' Hs Ht Hv.
  destruct v as [|x v].
  - destruct r; destruct r'; simpl in *; try discriminate; lra.
  - pose proof (dot_tail_mass_le r r' (x :: v) x Hl Hl' Ht Hv) as H.
    destruct (nondecreasing_cons_inv x v Hv) as [_ Hx].
    assert (Hc : Forall (fun y => x <= y) (x :: v)) by (constructor; [lra|auto]).
    specialize (H Hc). rewrite Hs in H. lra.
Qed.

Lemma mat_vec_length A v : length (mat_vec A v) = length A.
Proof. unfold mat_vec. apply length_map. Qed.

Lemma mat_vec_nth A v i : nth i (mat_vec A v) 0 = dot (nth i A []) v.
Proof. exact (map_nth (fun row => dot row v) A [] i). Qed.

Lemma mat_vec_nondecreasing n A v :
  transition_matrix n A -> monotone_matrix A ->
  length v = n -> nondecreasing v ->
  nondecreasing (mat_vec A v).
Proof.
  intros [[Hlen Hrows] Hstoch] Hmono Hv Hnd i j Hij.
  rewrite mat_vec_length in Hij. rewrite !mat_vec_nth.
  rewrite Forall_forall in Hrows, Hstoch.
  assert (Hi : In (nth i A []) A) by (apply nth_In; lia).
  assert (Hj : In (nth j A []) A) by (apply nth_In; lia).
  apply dot_monotone_rows.
  - rewrite (Hrows _ Hi). lia.
  - rewrite (Hrows _ Hj). lia.
  - destruct (Hstoch _ Hi) as [_ ->]. destruct (Hstoch _ Hj) as [_ ->].
    reflexivity.
  - intros k. apply Hmono. exact Hij.
  - exact Hnd.
Qed.

(** The Bellman update keeps a non-decreasing array non-decreasing. *)
Lemma vf_update_nondecreasing self firm_profit V :
  0 <= beta self ->
  transition_matrix (Nz self) (pi self) -> monotone_matrix (pi self) ->
  length firm_profit = Nz self -> nondecreasing firm_profit ->
  length V = Nz self -> nondecreasing V ->
  length (vf_update self firm_profit V) = Nz self /\
  nondecreasing (vf_update self firm_profit V).
Proof.
  intros Hb Ht Hm Hlp Hp HlV HV.
  assert (Hlpi : length (pi self) = Nz self) by (destruct Ht as [[? _] _]; auto).
  assert (Hlen : length (vf_update self firm_profit V) = Nz self).
  { rewrite vf_update_length. lia. }
  split; [exact Hlen|].
  intros i j Hij. rewrite Hlen in Hij.
  rewrite !vf_update_nth by lia.
  pose proof (mat_vec_nondecreasing _ _ _ Ht Hm HlV HV i j) as Havg.
  rewrite mat_vec_length in Havg. specialize (Havg ltac:(lia)).
  pose proof (Hp i j ltac:(lia)) as Hpij.
  assert (Hmax : Rmax 0 (nth i (mat_vec (pi self) V) 0)
                 <= Rmax 0 (nth j (mat_vec (pi self) V) 0)).
  { apply Rle_max_compat_l. exact Havg. }
  nra.
Qed.

Lemma zeros_nondecreasing n : nondecreasing (zeros n).
Proof.
  intros i j _. unfold zeros. rewrite !nth_repeat. lra.
Qed.

Lemma vf_iter_nondecreasing self firm_profit k :
  0 <= beta self ->
  transition_matrix (Nz self) (pi self) -> monotone_matrix (pi self) ->
  length firm_profit = Nz self -> nondecreasing firm_profit ->
  length (vf_iter self firm_profit k) = Nz self /\
  nondecreasing (vf_iter self firm_profit k).
Proof.
  intros Hb Ht Hm Hlp Hp.
  induction k as [|k [IHl IHn]]; simpl.
  - split; [apply repeat_length|apply zeros_nondecreasing].
  - apply vf_update_nondecreasing; assumption.
Qed.

(** The profit array of [incumbent_firm] is [static_profit] over the grid. *)
Lemma static_arrays (f1 f2 : R -> R) (p w c : R) (l : vec) :
  vsub (vsub (scale p (vmul l (map f2 (map f1 l)))) (scale w (map f1 l)))
       (scale c (ones (length l)))
  = map (fun z => p * (z * f2 (f1 z)) - w * f1 z - c * 1) l.
Proof.
  unfold vsub, scale, vmul, ones.
  induction l as [|z l IH]; simpl; [reflexivity|].
  f_equal. exact IH.
Qed.

Lemma incumbent_firm_profit self price :
  length (grid_z self) = Nz self ->
  fst (fst (incumbent_firm self price))
  = map (static_profit self price) (grid_z self).
Proof.
  intros Hlen. unfold incumbent_firm. simpl. rewrite <- Hlen.
  apply static_arrays.
Qed.

(** With the labour demand substituted, profit is the share [1 - theta] of
    revenue less the fixed cost. *)
Lemma static_profit_closed_form self price z :
  0 < price -> 0 < theta self < 1 -> 0 < wage self -> 0 < z ->
  static_profit self price z
  = (1 - theta self) * price * z
    * Rpower (theta self * price * z / wage self)
             (theta self / (1 - theta self))
    - cf self.
Proof.
  intros Hp Hth Hw Hz. unfold static_profit, power.
  set (x := theta self * price * z / wage self).
  assert (Hx : 0 < x).
  { unfold x. apply Rdiv_lt_0_compat; [|assumption].
    apply Rmult_lt_0_compat; [|assumption].
    apply Rmult_lt_0_compat; lra. }
  rewrite Rpower_mult.
  replace (1 / (1 - theta self) * theta self)
    with (theta self / (1 - theta self)) by (field; lra).
  replace (1 / (1 - theta self))
    with (theta self / (1 - theta self) + 1) by (field; lra).
  rewrite Rpower_plus, Rpower_1 by assumption.
  assert (Hwx : wage self * x = theta self * price * z)
    by (unfold x; field; lra).
  set (r := Rpower x (theta self / (1 - theta self))).
  replace (wage self * (r * x)) with (r * (wage self * x)) by ring.
  rewrite Hwx. ring.
Qed.

Lemma static_profit_monotone self price z1 z2 :
  0 < price -> 0 < theta self < 1 -> 0 < wage self ->
  0 < z1 -> z1 <= z2 ->
  static_profit self price z1 <= static_profit self price z2.
Proof.
  intros Hp Hth Hw Hz1 Hz.
  rewrite !static_profit_closed_form by lra.
  set (e := theta self / (1 - theta self)).
  assert (He : 0 <= e).
  { unfold e. apply Rlt_le, Rdiv_lt_0_compat; lra. }
  assert (Hk : 0 < theta self * price / wage self).
  { apply Rdiv_lt_0_compat; [|assumption]. apply Rmult_lt_0_compat; lra. }
  replace (theta self * price * z1 / wage self)
    with (theta self * price / wage self * z1) by (field; lra).
  replace (theta self * price * z2 / wage self)
    with (theta self * price / wage self * z2) by (field; lra).
  set (k := theta self * price / wage self) in *.
  assert (Hr : Rpower (k * z1) e <= Rpower (k * z2) e).
  { apply Rle_Rpower_l; [assumption|]. split; nra. }
  assert (Hr1 : 0 < Rpower (k * z1) e) by (unfold Rpower; apply exp_pos).
  assert (Hc : 0 <= (1 - theta self) * price) by nra.
  assert (Hzr : z1 * Rpower (k * z1) e <= z2 * Rpower (k * z2) e) by nra.
  nra.
Qed.

Lemma incumbent_firm_profit_nondecreasing self price :
  0 < price -> 0 < theta self < 1 -> 0 < wage self ->
  length (grid_z self) = Nz self ->
  positive (grid_z self) -> increasing (grid_z self) ->
  let firm_profit := fst (fst (incumbent_firm self price)) in
  length firm_profit = Nz self /\ nondecreasing firm_profit.
Proof.
  intros Hp Hth Hw Hlen Hpos Hinc. cbv zeta.
  rewrite incumbent_firm_profit by assumption. split.
  - rewrite length_map. exact Hlen.
  - apply nondecreasing_map_nth. intros i j Hij.
    apply static_profit_monotone; auto.
    + unfold positive in Hpos. rewrite Forall_forall in Hpos.
      apply Hpos, nth_In. lia.
    + destruct (Nat.eq_dec i j) as [->|Hne]; [lra|].
      apply Rlt_le, Hinc. lia.
Qed.

(** C7.  For a positive price, valid parameters ([0 < theta < 1],
    [wage > 0], [beta >= 0]), a strictly increasing grid of positive
    productivity levels and a monotone transition matrix, every Bellman
    iterate from [VF = 0] is non-decreasing in the productivity state, and so
    is the value function [solve_vf] returns. *)
Theorem solve_vf_nondecreasing self price :
  0 < price -> 0 < theta self < 1 -> 0 < wage self -> 0 <= beta self ->
  length (grid_z self) = Nz self ->
  positive (grid_z self) -> increasing (grid_z self) ->
  transition_matrix (Nz self) (pi self) -> monotone_matrix (pi self) ->
  let '(VF, firm_profit, _, _) := solve_vf self price in
  (forall k, nondecreasing (vf_iter self firm_profit k)) /\
  length VF = Nz self /\
  nondecreasing VF.
Proof.
  intros Hp Hth Hw Hb Hlen Hpos Hinc Ht Hm.
  destruct (incumbent_firm_profit_nondecreasing self price)
    as [Hlp Hnd]; auto.
  unfold solve_vf.
  destruct (incumbent_firm self price) as [[fp fo] pn]. simpl in Hlp, Hnd.
  destruct (vf_loop_iter self fp (maxit self) 0) as (j & _ & Heq & _).
  simpl in Heq. rewrite Heq.
  split; [|apply vf_iter_nondecreasing; assumption].
  intros k. apply vf_iter_nondecreasing; assumption.
Qed.

(** The model [persistent] meets the data model's invariants. *)
Lemma persistent_grid_positive : positive (grid_z persistent).
Proof.
  change (grid_z persistent) with [exp 0; exp 1].
  repeat constructor; apply exp_pos.
Qed.

Lemma persistent_grid_increasing : increasing (grid_z persistent).
Proof.
  change (grid_z persistent) with [exp 0; exp 1].
  intros i j Hij. simpl in Hij.
  assert (i = 0%nat /\ j = 1%nat) as [-> ->] by lia.
  simpl. apply exp_increasing. lra.
Qed.

Lemma persistent_transition_matrix :
  transition_matrix (Nz persistent) (pi persistent).
Proof.
  change (pi persistent) with [[3 / 4; 1 / 4]; [1 / 4; 3 / 4]].
  change (Nz persistent) with 2%nat.
  split; [split; [reflexivity|repeat constructor]|].
  repeat constructor; simpl; lra.
Qed.

Lemma persistent_monotone_matrix : monotone_matrix (pi persistent).
Proof.
  change (pi persistent) with [[3 / 4; 1 / 4]; [1 / 4; 3 / 4]].
  intros i j k Hij. simpl in Hij. unfold tail_mass.
  destruct i as [|[|i]]; destruct j as [|[|j]]; try lia;
    destruct k as [|[|[|k]]]; simpl; lra.
Qed.

Lemma solve_vf_nondecreasing_witness :
  let '(VF, firm_profit, _, _) := solve_vf persistent 1 in
  (forall k, nondecreasing (vf_iter persistent firm_profit k)) /\
  length VF = Nz persistent /\
  nondecreasing VF.
Proof.
  apply (solve_vf_nondecreasing persistent 1).
  - lra.
  - change (theta persistent) with (2 / 3). lra.
  - change (wage persistent) with 1. lra.
  - change (beta persistent) with 0.8. lra.
  - reflexivity.
  - exact persistent_grid_positive.
  - exact persistent_grid_increasing.
  - exact persistent_transition_matrix.
  - exact persistent_monotone_matrix.
Defined.

(** ** The exit decision *)

(** numpy's binary search returns the insertion point: the index that
    separates the entries below [v] from the others, when there is one. *)
Lemma binsearch_spec a v idx :
  (forall i, (i < idx)%nat -> nth i a 0 < v) ->
  (forall i, (idx <= i < length a)%nat -> ~ nth i a 0 < v) ->
  forall fuel min_idx max_idx,
    (min_idx <= idx <= max_idx)%nat -> (max_idx <= length a)%nat ->
    (max_idx - min_idx <= fuel)%nat ->
    binsearch fuel a v min_idx max_idx = idx.
Proof.
  intros Hlow Hhigh.
  induction fuel as [|fuel IH]; intros lo hi Hidx Hhi Hfuel;
    cbn [binsearch].
  - lia.
  - destruct (Nat.ltb_spec lo hi) as [Hlt|Hge]; [|lia].
    assert (Hhalf : ((hi - lo) / 2 < hi - lo)%nat)
      by (apply Nat.div_lt; lia).
    set (mid := (lo + (hi - lo) / 2)%nat) in *.
    destruct (Rlt_dec (nth mid a 0) v) as [Hmid|Hmid].
    + assert (mid < idx)%nat.
      { destruct (Nat.lt_ge_cases mid idx) as [?|Hge]; [assumption|].
        exfalso. apply (Hhigh mid); [unfold mid in *; lia|assumption]. }
      apply IH; unfold mid in *; lia.
    + assert (idx <= mid)%nat.
      { destruct (Nat.lt_ge_cases mid idx) as [Hl|?]; [|assumption].
        exfalso. apply Hmid, Hlow, Hl. }
      apply IH; unfold mid in *; lia.
Qed.

Lemma searchsorted_spec a v idx :
  (idx <= length a)%nat ->
  (forall i, (i < idx)%nat -> nth i a 0 < v) ->
  (forall i, (idx <= i < length a)%nat -> ~ nth i a 0 < v) ->
  searchsorted a v = idx.
Proof.
  intros Hidx Hlow Hhigh. unfold searchsorted.
  apply binsearch_spec; auto; lia.
Qed.

(** With every entry below [v], the insertion point is the length of the
    array. *)
Lemma searchsorted_all_below a v :
  Forall (fun x => x < v) a -> searchsorted a v = length a.
Proof.
  intros Hlow. apply searchsorted_spec.
  - apply Nat.le_refl.
  - intros i Hi. rewrite Forall_forall in Hlow. apply Hlow, nth_In, Hi.
  - intros i Hi. lia.
Qed.

Lemma getitem_past_end {A : Type} (a : list A) i :
  (length a <= i)%nat -> getitem a i = Raise IndexError.
Proof.
  intros Hi. unfold getitem.
  rewrite (proj2 (nth_error_None a i) Hi). reflexivity.
Qed.

(** C4 (what the code does).  When the expected continuation value is
    negative at every state, [searchsorted] returns the length of the array
    and the lookup [grid_z\[idx\]] is out of bounds: [exit_decision] raises
    [IndexError] instead of reporting that all firms exit. *)
Theorem exit_decision_all_negative self VF :
  (length (grid_z self) <= length (pi self))%nat ->
  Forall (fun x => x < 0) (mat_vec (pi self) VF) ->
  searchsorted (mat_vec (pi self) VF) 0 = length (pi self) /\
  exit_decision self VF = Raise IndexError.
Proof.
  intros Hlen Hneg.
  pose proof (searchsorted_all_below _ _ Hneg) as Hidx.
  rewrite mat_vec_length in Hidx.
  split; [exact Hidx|].
  unfold exit_decision. rewrite Hidx, (getitem_past_end _ _ Hlen).
  reflexivity.
Qed.

Lemma exit_decision_all_negative_witness :
  searchsorted (mat_vec (pi costly) [-1; -1]) 0 = length (pi costly) /\
  exit_decision costly [-1; -1] = Raise IndexError.
Proof.
  apply (exit_decision_all_negative costly [-1; -1]).
  - apply Nat.le_refl.
  - change (pi costly) with [[1 / 2; 1 / 2]; [1 / 2; 1 / 2]].
    repeat constructor; simpl; lra.
Defined.

Lemma where_1_0_nth cond v i :
  (i < length v)%nat ->
  nth i (where_1_0 cond v) 0%Z = if cond (nth i v 0) then 1%Z else 0%Z.
Proof.
  intros Hi. unfold where_1_0.
  rewrite (nth_indep _ 0%Z (if cond 0 then 1%Z else 0%Z))
    by (rewrite length_map; exact Hi).
  apply (map_nth (fun x => if cond x then 1%Z else 0%Z)).
Qed.

Lemma increasing_lt_iff v i j :
  increasing v -> (i < length v)%nat -> (j < length v)%nat ->
  (nth i v 0 < nth j v 0 <-> (i < j)%nat).
Proof.
  intros Hinc Hi Hj. split.
  - intros Hlt. destruct (Nat.lt_ge_cases i j) as [?|Hge]; [assumption|].
    exfalso. destruct (Nat.eq_dec i j) as [->|Hne]; [lra|].
    pose proof (Hinc j i ltac:(lia)). lra.
  - intros Hlt. apply Hinc. lia.
Qed.

(** C5.  With [avg_VF = pi . VF] non-decreasing and [grid_z] strictly
    increasing, let [idx] be the first index where [avg_VF] is no longer
    negative.  Then [exit_cutoff] is the productivity level at [idx], and
    [pol_exit] is 1 exactly on the states with productivity strictly below
    the cutoff, which are the states before [idx]: a prefix of the state
    space.  When [avg_VF] is non-negative everywhere ([idx = 0]) the cutoff
    is the lowest grid point and no firm exits. *)
Theorem exit_decision_threshold self VF idx :
  let avg_VF := mat_vec (pi self) VF in
  length (grid_z self) = length (pi self) ->
  nondecreasing avg_VF -> increasing (grid_z self) ->
  (idx < length (grid_z self))%nat ->
  (forall i, (i < idx)%nat -> nth i avg_VF 0 < 0) ->
  0 <= nth idx avg_VF 0 ->
  exists pol_exit,
    exit_decision self VF = Return (nth idx (grid_z self) 0, pol_exit) /\
    length pol_exit = length (grid_z self) /\
    (forall i, (i < length (grid_z self))%nat ->
       (nth i pol_exit 0%Z = 1%Z \/ nth i pol_exit 0%Z = 0%Z) /\
       (nth i pol_exit 0%Z = 1%Z <->
        nth i (grid_z self) 0 < nth idx (grid_z self) 0) /\
       (nth i pol_exit 0%Z = 1%Z <-> (i < idx)%nat)) /\
    (idx = 0%nat -> Forall (fun e => e = 0%Z) pol_exit).
Proof.
  intros avg_VF Hlen Hnd Hinc Hidx Hlow Hat.
  assert (Hlavg : length avg_VF = length (grid_z self))
    by (unfold avg_VF; rewrite mat_vec_length; lia).
  assert (Hss : searchsorted avg_VF 0 = idx).
  { apply searchsorted_spec; auto; [lia|].
    intros i Hi Hneg. pose proof (Hnd idx i ltac:(lia)). lra. }
  set (cutoff := nth idx (grid_z self) 0).
  set (pol := where_1_0 (fun z => if Rlt_dec z cutoff then true else false)
                        (grid_z self)).
  assert (Hpol : forall i, (i < length (grid_z self))%nat ->
            nth i pol 0%Z
            = if Rlt_dec (nth i (grid_z self) 0) cutoff then 1%Z else 0%Z).
  { intros i Hi. unfold pol. rewrite where_1_0_nth by exact Hi.
    destruct (Rlt_dec (nth i (grid_z self) 0) cutoff); reflexivity. }
  exists pol. split; [|split; [|split]].
  - unfold exit_decision. fold avg_VF. rewrite Hss. unfold getitem.
    rewrite (nth_error_nth' (grid_z self) 0 Hidx). reflexivity.
  - unfold pol, where_1_0. apply length_map.
  - intros i Hi. rewrite (Hpol i Hi).
    pose proof (increasing_lt_iff (grid_z self) i idx Hinc Hi Hidx) as Hiff.
    fold cutoff in Hiff.
    destruct (Rlt_dec (nth i (grid_z self) 0) cutoff) as [Hlt|Hge].
    + split; [left; reflexivity|]. split; [tauto|].
      split; [intros _; apply Hiff, Hlt|reflexivity].
    + split; [right; reflexivity|]. split.
      * split; [discriminate|contradiction].
      * split; [discriminate|]. intros Hi'. exfalso. apply Hge, Hiff, Hi'.
  - intros ->. apply Forall_forall. intros e He.
    destruct (In_nth pol e 0%Z He) as (i & Hi & <-).
    assert (Hi' : (i < length (grid_z self))%nat)
      by (unfold pol, where_1_0 in Hi; rewrite length_map in Hi; exact Hi).
    rewrite (Hpol i Hi').
    pose proof (increasing_lt_iff (grid_z self) i 0 Hinc Hi' Hidx) as Hiff.
    fold cutoff in Hiff.
    destruct (Rlt_dec (nth i (grid_z self) 0) cutoff) as [Hlt|Hge];
      [|reflexivity].
    apply Hiff in Hlt. lia.
Qed.

(** The binary search stops within [max_idx - min_idx] halvings: more fuel
    changes nothing. *)
Lemma binsearch_fuel a v :
  forall fuel fuel' min_idx max_idx,
    (max_idx - min_idx <= fuel)%nat -> (max_idx - min_idx <= fuel')%nat ->
    binsearch fuel a v min_idx max_idx = binsearch fuel' a v min_idx max_idx.
Proof.
  induction fuel as [|fuel IH]; intros [|fuel'] lo hi Hf Hf';
    cbn [binsearch]; try reflexivity.
  - destruct (Nat.ltb_spec lo hi); [lia|reflexivity].
  - destruct (Nat.ltb_spec lo hi); [lia|reflexivity].
  - destruct (Nat.ltb_spec lo hi) as [Hlt|Hge]; [|reflexivity].
    assert (Hhalf : ((hi - lo) / 2 < hi - lo)%nat)
      by (apply Nat.div_lt; lia).
    destruct (Rlt_dec (nth (lo + (hi - lo) / 2) a 0) v);
      apply IH; lia.
Qed.

Example searchsorted_crossing : searchsorted [-5 / 2; 1 / 2] 0 = 1%nat.
Proof. unfold searchsorted. simpl. decide_Rlt. reflexivity. Qed.

Example searchsorted_none_below : searchsorted [1; 2; 3] 0 = 0%nat.
Proof. unfold searchsorted. simpl. decide_Rlt. reflexivity. Qed.

Example searchsorted_all_negative : searchsorted [-3; -2; -1] 0 = 3%nat.
Proof. unfold searchsorted. simpl. decide_Rlt. reflexivity. Qed.

Lemma exit_decision_threshold_witness :
  exists pol_exit,
    exit_decision persistent [-4; 2]
    = Return (nth 1 (grid_z persistent) 0, pol_exit) /\
    length pol_exit = length (grid_z persistent) /\
    (forall i, (i < length (grid_z persistent))%nat ->
       (nth i pol_exit 0%Z = 1%Z \/ nth i pol_exit 0%Z = 0%Z) /\
       (nth i pol_exit 0%Z = 1%Z <->
        nth i (grid_z persistent) 0 < nth 1 (grid_z persistent) 0) /\
       (nth i pol_exit 0%Z = 1%Z <-> (i < 1)%nat)) /\
    (1%nat = 0%nat -> Forall (fun e => e = 0%Z) pol_exit).
Proof.
  apply (exit_decision_threshold persistent [-4; 2] 1).
  - reflexivity.
  - change (pi persistent) with [[3 / 4; 1 / 4]; [1 / 4; 3 / 4]].
    intros i j Hij. simpl in Hij.
    destruct i as [|[|i]]; destruct j as [|[|j]]; try lia; simpl; lra.
  - exact persistent_grid_increasing.
  - simpl. lia.
  - change (pi persistent) with [[3 / 4; 1 / 4]; [1 / 4; 3 / 4]].
    intros i Hi. assert (i = 0%nat) as -> by lia. simpl. lra.
  - change (pi persistent) with [[3 / 4; 1 / 4]; [1 / 4; 3 / 4]].
    simpl. lra.
Defined.

(** The whole of [solve_model] on [costly]: the bisection returns its last
    candidate, every continuation value is negative there, and the exit
    decision raises [IndexError]. *)
Lemma solve_model_costly_index_error : solve_model costly = Raise IndexError.
Proof.
  unfold solve_model. rewrite costly_solve_firm. cbn [bind].
  destruct (costly_solve_vf costly_price costly_price_inside)
    as (p0 & p1 & fo & pn & Heq & H0 & H1).
  rewrite Heq. unfold exit_decision.
  rewrite searchsorted_all_below.
  - rewrite getitem_past_end; [reflexivity|].
    rewrite mat_vec_length. apply Nat.le_refl.
  - change (pi costly) with [[1 / 2; 1 / 2]; [1 / 2; 1 / 2]].
    repeat constructor; simpl; lra.
Qed.

(** [persistent] with [VF = \[-4, 2\]]: the continuation values are
    [-5/2] and [1/2], the cutoff is the upper productivity level and only the
    lower state exits. *)
Example exit_decision_persistent :
  exit_decision persistent [-4; 2] = Return (exp 1, [1%Z; 0%Z]).
Proof.
  unfold exit_decision.
  change (pi persistent) with [[3 / 4; 1 / 4]; [1 / 4; 3 / 4]].
  change (grid_z persistent) with [exp 0; exp 1].
  unfold searchsorted. simpl.
  pose proof (exp_increasing 0 1 ltac:(lra)).
  decide_Rlt. simpl. decide_Rlt. reflexivity.
Qed.

(** ** Matrices and the invariant distribution *)

Lemma dot_map_add {A : Type} (f g : A -> R) l v :
  dot (map (fun j => f j + g j) l) v = dot (map f l) v + dot (map g l) v.
Proof.
  revert v; induction l as [|j l IH]; intros [|y v]; simpl; try lra.
  rewrite IH. ring.
Qed.

Lemma dot_map_scale {A : Type} (a : R) (f : A -> R) l v :
  dot (map (fun j => a * f j) l) v = a * dot (map f l) v.
Proof.
  revert v; induction l as [|j l IH]; intros [|y v]; simpl; try lra.
  rewrite IH. ring.
Qed.

Lemma dot_map_zero {A : Type} (l : list A) v :
  dot (map (fun _ => 0) l) v = 0.
Proof.
  revert v; induction l as [|j l IH]; intros [|y v]; simpl; try lra.
  rewrite IH. ring.
Qed.

Lemma map_nth_seq_id (b : vec) :
  map (fun j => nth j b 0) (seq 0 (length b)) = b.
Proof.
  induction b as [|x b IH]; simpl; [reflexivity|].
  f_equal. rewrite <- seq_shift, map_map. exact IH.
Qed.

(** Row times matrix, then vector, is row times (matrix times vector). *)
Lemma dot_mat_mul_row n (r : vec) :
  forall B v,
    Forall (fun row => length row = n) B ->
    dot (map (fun j => dot r (col j B)) (seq 0 n)) v = dot r (mat_vec B v).
Proof.
  induction r as [|a r IH]; intros B v HB.
  - simpl. apply dot_map_zero.
  - destruct B as [|b B].
    + simpl. apply dot_map_zero.
    + pose proof (Forall_inv HB) as Hb. simpl in Hb.
      pose proof (Forall_inv_tail HB) as HB'.
      transitivity
        (dot (map (fun j => a * nth j b 0 + dot r (col j B)) (seq 0 n)) v);
        [reflexivity|].
      rewrite dot_map_add, dot_map_scale, (IH B v HB').
      rewrite <- Hb, map_nth_seq_id. reflexivity.
Qed.

Lemma mat_mul_vec n A B v :
  Forall (fun row => length row = n) B ->
  mat_vec (mat_mul n A B) v = mat_vec A (mat_vec B v).
Proof.
  intros HB. unfold mat_mul, mat_vec at 1 2. rewrite map_map.
  apply map_ext. intros r. apply dot_mat_mul_row. exact HB.
Qed.

Lemma dot_scale_r r m w : dot r (scale m w) = m * dot r w.
Proof.
  unfold scale.
  revert w; induction r as [|x r IH]; intros [|y w]; simpl; try lra.
  rewrite IH. ring.
Qed.

Lemma dot_scale_l m r w : dot (scale m r) w = m * dot r w.
Proof.
  unfold scale.
  revert w; induction r as [|x r IH]; intros [|y w]; simpl; try lra.
  rewrite IH. ring.
Qed.

Lemma mat_vec_scale A m w : mat_vec A (scale m w) = scale m (mat_vec A w).
Proof.
  unfold mat_vec, scale at 2. rewrite map_map.
  apply map_ext. intros r. apply dot_scale_r.
Qed.

(** The rows of the identity pick the entries of a vector. *)
Lemma dot_indicator i m :
  forall s v,
    length v = m ->
    dot (map (fun j => if (i =? j)%nat then 1 else 0) (seq s m)) v
    = if ((s <=? i) && (i <? s + m))%nat%bool then nth (i - s) v 0 else 0.
Proof.
  induction m as [|m IH]; intros s v Hv.
  - simpl. destruct ((s <=? i)%nat && (i <? s + 0)%nat)%bool eqn:E;
      [|reflexivity].
    apply andb_prop in E. destruct E as [E1 E2].
    apply Nat.leb_le in E1. apply Nat.ltb_lt in E2. lia.
  - destruct v as [|y v]; [discriminate|]. simpl in Hv.
    cbn [seq map dot]. rewrite (IH (S s) v) by lia.
    destruct (Nat.eqb_spec i s) as [->|Hne].
    + replace ((S s <=? s)%nat && (s <? S s + m)%nat)%bool with false
        by (symmetry; apply andb_false_iff; left; apply Nat.leb_gt; lia).
      replace ((s <=? s)%nat && (s <? s + S m)%nat)%bool with true
        by (symmetry; apply andb_true_iff; split;
            [apply Nat.leb_le|apply Nat.ltb_lt]; lia).
      rewrite Nat.sub_diag. simpl. ring.
    + destruct (Nat.leb_spec (S s) i) as [Hle|Hgt].
      * replace (s <=? i)%nat with true by (symmetry; apply Nat.leb_le; lia).
        replace (i <? s + S m)%nat with (i <? S s + m)%nat
          by (f_equal; lia).
        simpl andb.
        destruct (i <? S (s + m))%nat; [|ring].
        replace (i - s)%nat with (S (i - S s)) by lia. simpl. ring.
      * replace (s <=? i)%nat with false by (symmetry; apply Nat.leb_gt; lia).
        simpl. ring.
Qed.

Lemma eye_vec v : mat_vec (eye (length v)) v = v.
Proof.
  unfold eye, mat_vec. rewrite map_map.
  transitivity (map (fun j => nth j v 0) (seq 0 (length v)));
    [|apply map_nth_seq_id].
  apply map_ext_in. intros i Hi. apply in_seq in Hi.
  rewrite (dot_indicator i (length v) 0 v eq_refl).
  replace ((0 <=? i)%nat && (i <? 0 + length v)%nat)%bool with true
    by (symmetry; apply andb_true_iff; split;
        [apply Nat.leb_le|apply Nat.ltb_lt]; lia).
  rewrite Nat.sub_0_r. reflexivity.
Qed.

Lemma dot_vsub r r' v :
  length r = length r' -> dot (vsub r r') v = dot r v - dot r' v.
Proof.
  unfold vsub.
  revert r' v; induction r as [|x r IH]; intros [|x' r'] [|y v] H;
    simpl in *; try discriminate; try lra.
  rewrite IH by lia. ring.
Qed.

Lemma mat_vec_msub n A B v :
  square n A -> square n B ->
  mat_vec (msub A B) v = vsub (mat_vec A v) (mat_vec B v).
Proof.
  intros [_ HA] [_ HB]. unfold msub, vsub, mat_vec.
  revert B HB; induction A as [|r A IH]; intros [|r' B] HB; simpl;
    try reflexivity.
  pose proof (Forall_inv HA) as Hr. pose proof (Forall_inv HB) as Hr'.
  simpl in Hr, Hr'. f_equal.
  - apply dot_vsub. lia.
  - apply IH; [exact (Forall_inv_tail HA)|exact (Forall_inv_tail HB)].
Qed.

Lemma la_inv_invertible A :
  invertible A ->
  exists B, la_inv A = Return B /\ inverse_of (length A) A B.
Proof.
  intros H. unfold la_inv.
  destruct (excluded_middle_informative (invertible A)) as [Hinv|Hno];
    [|contradiction].
  exists (proj1_sig (constructive_indefinite_description _ Hinv)).
  split; [reflexivity|].
  exact (proj2_sig (constructive_indefinite_description _ Hinv)).
Qed.

Lemma la_inv_singular A : ~ invertible A -> la_inv A = Raise LinAlgError.
Proof.
  intros H. unfold la_inv.
  destruct (excluded_middle_informative (invertible A)); [contradiction|].
  reflexivity.
Qed.

Lemma transpose_length n A : length (transpose n A) = n.
Proof. unfold transpose. rewrite length_map. apply length_seq. Qed.

Lemma transpose_square n A : length A = n -> square n (transpose n A).
Proof.
  intros H. split; [apply transpose_length|].
  unfold transpose. apply Forall_forall. intros row Hrow.
  apply in_map_iff in Hrow. destruct Hrow as (j & <- & _).
  unfold col. rewrite length_map. exact H.
Qed.

Lemma eye_square n : square n (eye n).
Proof.
  unfold eye. split; [rewrite length_map; apply length_seq|].
  apply Forall_forall. intros row Hrow.
  apply in_map_iff in Hrow. destruct Hrow as (i & <- & _).
  rewrite length_map. apply length_seq.
Qed.

Lemma msub_square n A B : square n A -> square n B -> square n (msub A B).
Proof.
  intros [HlA HA] [HlB HB]. unfold msub. split.
  - rewrite zip_with_length. lia.
  - clear HlA HlB. revert B HB.
    induction A as [|r A IH]; intros [|r' B] HB; simpl; constructor.
    + unfold vsub. rewrite zip_with_length.
      pose proof (Forall_inv HA) as Hr. pose proof (Forall_inv HB) as Hr'.
      simpl in Hr, Hr'. lia.
    + apply IH; [exact (Forall_inv_tail HA)|exact (Forall_inv_tail HB)].
Qed.

Lemma pi_tilde_square self pol_exit :
  length (pi self) = Nz self -> length pol_exit = Nz self ->
  square (Nz self) (pi_tilde self pol_exit).
Proof.
  intros Hpi Hpol. unfold pi_tilde. apply transpose_square.
  rewrite zip_with_length. unfold vec in *. lia.
Qed.

Lemma nth_map_in {A B : Type} (f : A -> B) l i da db :
  (i < length l)%nat -> nth i (map f l) db = f (nth i l da).
Proof.
  intros Hi. rewrite (nth_indep _ db (f da)) by (rewrite length_map; exact Hi).
  apply map_nth.
Qed.

(** The entries of [pi_tilde]: the transition probability from [i] to
    [j], when state [i] does not exit. *)
Lemma pi_tilde_nth self pol_exit i j :
  square (Nz self) (pi self) -> length pol_exit = Nz self ->
  (i < Nz self)%nat -> (j < Nz self)%nat ->
  nth i (nth j (pi_tilde self pol_exit) []) 0
  = nth j (nth i (pi self) []) 0 * IZR (1 - nth i pol_exit 0%Z).
Proof.
  intros [Hlen Hrows] Hpol Hi Hj. unfold pi_tilde, transpose.
  rewrite (nth_map_in _ _ j 0%nat) by (rewrite length_seq; exact Hj).
  rewrite seq_nth by exact Hj. simpl Nat.add. unfold col.
  match goal with
  | |- context [zip_with ?f (pi self) pol_exit] =>
      set (M := zip_with f (pi self) pol_exit)
  end.
  assert (HM : length M = Nz self)
    by (unfold M; rewrite zip_with_length; unfold vec in *; lia).
  rewrite (nth_map_in _ _ i []) by (rewrite HM; exact Hi).
  unfold M. rewrite (zip_with_nth _ _ _ i [] 0%Z [])
    by (unfold vec in *; lia).
  assert (Hrow : length (nth i (pi self) []) = Nz self).
  { rewrite Forall_forall in Hrows. apply Hrows, nth_In.
    unfold vec in *. lia. }
  apply (nth_map_in (fun x => x * IZR (1 - nth i pol_exit 0%Z))
                    (nth i (pi self) []) j 0 0).
  rewrite Hrow. exact Hj.
Qed.

Lemma vsub_vadd x : forall y z,
  length x = length y -> vsub x y = z -> vadd y z = x.
Proof.
  unfold vsub, vadd.
  induction x as [|a x IH]; intros [|b y] z Hl Hz; simpl in *;
    try discriminate; subst z; simpl; [reflexivity|].
  f_equal; [ring|]. apply IH; [lia|reflexivity].
Qed.

(** With [inv] the inverse of [I - pi_tilde], the vector
    [m * inv . nu] solves the fixed-point equation
    [x = pi_tilde . x + m * nu]. *)
Lemma invariant_distribution_fixed_point self pol_exit inv m :
  square (Nz self) (pi self) -> length (nu self) = Nz self ->
  length pol_exit = Nz self ->
  inverse_of (Nz self) (msub (eye (Nz self)) (pi_tilde self pol_exit)) inv ->
  length (scale m (mat_vec inv (nu self))) = Nz self /\
  mat_vec (msub (eye (Nz self)) (pi_tilde self pol_exit))
          (scale m (mat_vec inv (nu self)))
  = scale m (nu self) /\
  vadd (mat_vec (pi_tilde self pol_exit) (scale m (mat_vec inv (nu self))))
       (scale m (nu self))
  = scale m (mat_vec inv (nu self)).
Proof.
  intros Hpi Hnu Hpol (HA & HB & HAB & HBA).
  pose proof (pi_tilde_square self pol_exit (proj1 Hpi) Hpol) as HT.
  set (A := msub (eye (Nz self)) (pi_tilde self pol_exit)) in *.
  assert (Hlx : length (scale m (mat_vec inv (nu self))) = Nz self).
  { unfold scale. rewrite length_map, mat_vec_length. exact (proj1 HB). }
  assert (HAx : mat_vec A (scale m (mat_vec inv (nu self)))
                = scale m (nu self)).
  { rewrite mat_vec_scale. f_equal.
    rewrite <- (mat_mul_vec (Nz self)) by exact (proj2 HB).
    rewrite HAB, <- Hnu. apply eye_vec. }
  split; [exact Hlx|]. split; [exact HAx|].
  apply vsub_vadd.
  - rewrite mat_vec_length. rewrite (proj1 HT). exact Hlx.
  - rewrite <- HAx. unfold A.
    rewrite (mat_vec_msub (Nz self)) by (auto using eye_square).
    f_equal. rewrite <- Hlx at 1. symmetry. apply eye_vec.
Qed.

(** What [solve_invariant_distribution] returns when [I - pi_tilde] has an
    inverse: [m] times that inverse applied to [nu]. *)
Lemma solve_invariant_distribution_inverse self pol_exit :
  length (pi self) = Nz self -> length pol_exit = Nz self ->
  invertible (msub (eye (Nz self)) (pi_tilde self pol_exit)) ->
  exists inv,
    inverse_of (Nz self) (msub (eye (Nz self)) (pi_tilde self pol_exit)) inv /\
    forall m,
      solve_invariant_distribution self m pol_exit
      = Return (scale m (mat_vec inv (nu self))).
Proof.
  intros Hpi Hpol Hinv.
  pose proof (pi_tilde_square self pol_exit Hpi Hpol) as HT.
  pose proof (msub_square _ _ _ (eye_square (Nz self)) HT) as HA.
  destruct (la_inv_invertible _ Hinv) as (inv & Hret & Hinverse).
  rewrite (proj1 HA) in Hinverse.
  exists inv. split; [exact Hinverse|].
  intros m. unfold solve_invariant_distribution. rewrite Hret. reflexivity.
Qed.

(** In [persistent], with the low state exiting, [I - pi_tilde] has the
    inverse [[1, 1], [0, 4]]. *)
Lemma persistent_invertible :
  invertible (msub (eye (Nz persistent)) (pi_tilde persistent [1%Z; 0%Z])).
Proof.
  exists [[1; 1]; [0; 4]].
  split; [|split; [|split]].
  - split; [reflexivity|]. repeat constructor.
  - split; [reflexivity|]. repeat constructor.
  - unfold_persistent. simpl. list_eq; lra.
  - unfold_persistent. simpl. list_eq; lra.
Qed.

Lemma persistent_shapes :
  square (Nz persistent) (pi persistent) /\
  length (nu persistent) = Nz persistent.
Proof.
  split; [exact (proj1 persistent_transition_matrix)|reflexivity].
Qed.

(** The unit-entrant distribution of [persistent] when the low state
    exits. *)
Lemma persistent_distribution_0 :
  solve_invariant_distribution persistent 1 [1%Z; 0%Z] = Return [1; 2].
Proof.
  destruct (solve_invariant_distribution_inverse persistent [1%Z; 0%Z]
              (proj1 (proj1 persistent_shapes)) eq_refl persistent_invertible)
    as (inv & Hinverse & Hret).
  destruct (invariant_distribution_fixed_point persistent [1%Z; 0%Z] inv 1
              (proj1 persistent_shapes) (proj2 persistent_shapes) eq_refl
              Hinverse)
    as (Hlen & Hfix & _).
  rewrite Hret. f_equal.
  destruct (scale 1 (mat_vec inv (nu persistent))) as [|x0 [|x1 [|x2 x]]];
    try discriminate.
  revert Hfix. unfold_persistent. intros Hfix.
  injection Hfix as H0 H1. simpl in H0, H1.
  list_eq; lra.
Qed.

(** *** The closed form and market clearing *)

(** C3.  [pi_tilde] is the transition matrix with the rows of the exiting
    states zeroed, transposed (entry [j, i] is the probability of moving
    from [i] to [j] when [i] stays, and 0 when [i] exits).  When
    [I - pi_tilde] is non-singular, [solve_invariant_distribution] returns
    [x = m * (I - pi_tilde)^(-1) . nu], the solution of
    [x = pi_tilde . x + m * nu]; [solve_model] calls it with [m = 1], sets
    [m_star = D / (distribution_0 . firm_output)] and rescales
    [distrib_stationary = m_star * distribution_0]. *)
Theorem invariant_distribution_closed_form self pol_exit firm_output :
  square (Nz self) (pi self) -> length (nu self) = Nz self ->
  length pol_exit = Nz self ->
  invertible (msub (eye (Nz self)) (pi_tilde self pol_exit)) ->
  (forall i j, (i < Nz self)%nat -> (j < Nz self)%nat ->
     nth i (nth j (pi_tilde self pol_exit) []) 0
     = nth j (nth i (pi self) []) 0 * IZR (1 - nth i pol_exit 0%Z)) /\
  (forall i j, (i < Nz self)%nat -> (j < Nz self)%nat ->
     nth i pol_exit 0%Z = 1%Z ->
     nth i (nth j (pi_tilde self pol_exit) []) 0 = 0) /\
  exists inv,
    inverse_of (Nz self) (msub (eye (Nz self)) (pi_tilde self pol_exit)) inv /\
    (forall m,
        exists x,
          solve_invariant_distribution self m pol_exit = Return x /\
          x = scale m (mat_vec inv (nu self)) /\
          x = vadd (mat_vec (pi_tilde self pol_exit) x) (scale m (nu self))) /\
    exists distribution_0,
      solve_invariant_distribution self 1 pol_exit = Return distribution_0 /\
      stationary_steps self pol_exit firm_output
      = Return (distribution_0,
                D self / dot distribution_0 firm_output,
                scale (D self / dot distribution_0 firm_output)
                      distribution_0).
Proof.
  intros Hpi Hnu Hpol Hinv.
  split; [intros i j Hi Hj; apply pi_tilde_nth; assumption|].
  split.
  { intros i j Hi Hj Hexit. rewrite pi_tilde_nth by assumption.
    rewrite Hexit. simpl. ring. }
  destruct (solve_invariant_distribution_inverse self pol_exit
              (proj1 Hpi) Hpol Hinv) as (inv & Hinverse & Hret).
  exists inv. split; [exact Hinverse|]. split.
  - intros m. exists (scale m (mat_vec inv (nu self))).
    split; [apply Hret|]. split; [reflexivity|].
    symmetry.
    apply (invariant_distribution_fixed_point self pol_exit inv m);
      assumption.
  - exists (scale 1 (mat_vec inv (nu self))).
    split; [apply Hret|].
    unfold stationary_steps. rewrite Hret. reflexivity.
Qed.

Lemma invariant_distribution_closed_form_witness :
  (forall i j, (i < Nz persistent)%nat -> (j < Nz persistent)%nat ->
     nth i (nth j (pi_tilde persistent [1%Z; 0%Z]) []) 0
     = nth j (nth i (pi persistent) []) 0
       * IZR (1 - nth i [1%Z; 0%Z] 0%Z)) /\
  (forall i j, (i < Nz persistent)%nat -> (j < Nz persistent)%nat ->
     nth i [1%Z; 0%Z] 0%Z = 1%Z ->
     nth i (nth j (pi_tilde persistent [1%Z; 0%Z]) []) 0 = 0) /\
  exists inv,
    inverse_of (Nz persistent)
      (msub (eye (Nz persistent)) (pi_tilde persistent [1%Z; 0%Z])) inv /\
    (forall m,
        exists x,
          solve_invariant_distribution persistent m [1%Z; 0%Z] = Return x /\
          x = scale m (mat_vec inv (nu persistent)) /\
          x = vadd (mat_vec (pi_tilde persistent [1%Z; 0%Z]) x)
                   (scale m (nu persistent))) /\
    exists distribution_0,
      solve_invariant_distribution persistent 1 [1%Z; 0%Z]
      = Return distribution_0 /\
      stationary_steps persistent [1%Z; 0%Z] [1; 2]
      = Return (distribution_0,
                D persistent / dot distribution_0 [1; 2],
                scale (D persistent / dot distribution_0 [1; 2])
                      distribution_0).
Proof.
  apply (invariant_distribution_closed_form persistent [1%Z; 0%Z] [1; 2]).
  - exact (proj1 persistent_shapes).
  - exact (proj2 persistent_shapes).
  - reflexivity.
  - exact persistent_invertible.
Defined.

(** C6.  Whenever the distribution solve succeeds ([I - pi_tilde] is
    non-singular) and [distribution_0 . firm_output] is not zero, the entrant
    mass [m_star = D / (distribution_0 . firm_output)] and the rescaled
    distribution [m_star * distribution_0] clear the goods market exactly:
    [distrib_stationary . firm_output = D]. *)
Theorem market_clearing_round_trip self pol_exit firm_output
    distribution_0 m_star distrib_stationary :
  stationary_steps self pol_exit firm_output
  = Return (distribution_0, m_star, distrib_stationary) ->
  dot distribution_0 firm_output <> 0 ->
  m_star = solve_m_star self distribution_0 firm_output /\
  m_star = D self / dot distribution_0 firm_output /\
  distrib_stationary = scale m_star distribution_0 /\
  dot distrib_stationary firm_output = D self.
Proof.
  unfold stationary_steps. intros Hsteps Hdot.
  destruct (solve_invariant_distribution self 1 pol_exit) as [d0|e];
    simpl in Hsteps; [|discriminate].
  injection Hsteps as -> <- <-.
  repeat split; try reflexivity.
  rewrite dot_scale_l. unfold solve_m_star. field. exact Hdot.
Qed.

Lemma market_clearing_round_trip_witness :
  solve_m_star persistent [1; 2] [5; 10] =
  solve_m_star persistent [1; 2] [5; 10] /\
  solve_m_star persistent [1; 2] [5; 10] = D persistent / dot [1; 2] [5; 10] /\
  scale (solve_m_star persistent [1; 2] [5; 10]) [1; 2]
  = scale (solve_m_star persistent [1; 2] [5; 10]) [1; 2] /\
  dot (scale (solve_m_star persistent [1; 2] [5; 10]) [1; 2]) [5; 10]
  = D persistent.
Proof.
  apply (market_clearing_round_trip persistent [1%Z; 0%Z] [5; 10]).
  - unfold stationary_steps. rewrite persistent_distribution_0. reflexivity.
  - simpl. lra.
Defined.

(** [solve_model] runs the three steps on its own exit policy and output. *)
Lemma solve_model_stationary_steps self S :
  solve_model self = Return S ->
  stationary_steps self (pol_exit S) (firm_output S)
  = Return (distrib_stationary_0 S, m_star S, distrib_stationary S).
Proof.
  unfold solve_model. intros H.
  destruct (solve_firm self) as [p|e]; cbn [bind] in H; [|discriminate].
  destruct (solve_vf self p) as [[[V fp] fo] pn].
  destruct (exit_decision self V) as [[c pol]|e]; cbn [bind] in H;
    [|discriminate].
  destruct (stationary_steps self pol fo) as [[[d0 ms] ds]|e] eqn:Hsteps;
    cbn [bind] in H; [|discriminate].
  injection H as <-. exact Hsteps.
Qed.

(** ** The model [patient] *)

Lemma geometric_sum_nonneg b q k :
  0 <= b -> 0 <= q -> 0 <= geometric_sum b q k.
Proof.
  intros Hb Hq. induction k as [|k IH]; simpl; [lra|nra].
Qed.

Lemma geometric_sum_step b q k :
  geometric_sum b q (S k) - geometric_sum b q k = b ^ k * q.
Proof.
  induction k as [|k IH]; [simpl; ring|].
  change (geometric_sum b q (S (S k)))
    with (q + b * geometric_sum b q (S k)).
  change (geometric_sum b q (S k)) with (q + b * geometric_sum b q k) at 2.
  replace (q + b * geometric_sum b q (S k) - (q + b * geometric_sum b q k))
    with (b * (geometric_sum b q (S k) - geometric_sum b q k)) by ring.
  rewrite IH. simpl. ring.
Qed.

Lemma bernoulli_below e k :
  0 <= e <= 1 -> 1 - INR k * e <= (1 - e) ^ k.
Proof.
  intros He. induction k as [|k IH]; [simpl; lra|].
  rewrite S_INR. simpl.
  assert (0 <= INR k) by apply pos_INR.
  assert (0 <= (1 - e) ^ k) by (apply pow_le; lra).
  nra.
Qed.

(** With every transition probability one half and non-negative profits,
    the iterates are the profits plus the discounted partial sums of the
    mean profit. *)
Lemma vf_iter_iid self p0 p1 k :
  pi self = [[1 / 2; 1 / 2]; [1 / 2; 1 / 2]] ->
  0 <= beta self -> 0 <= p0 -> 0 <= p1 ->
  vf_iter self [p0; p1] (S k)
  = [p0 + beta self * geometric_sum (beta self) ((p0 + p1) / 2) k;
     p1 + beta self * geometric_sum (beta self) ((p0 + p1) / 2) k].
Proof.
  intros Hpi Hb H0 H1.
  assert (Hupd : forall v0 v1 c,
            0 <= c -> 1 / 2 * v0 + (1 / 2 * v1 + 0) = c ->
            vf_update self [p0; p1] [v0; v1]
            = [p0 + beta self * c; p1 + beta self * c]).
  { intros v0 v1 c Hc Hv. unfold vf_update. rewrite Hpi.
    cbv [mat_vec clip_min scale vadd zip_with map dot].
    rewrite Hv, Rmax_left by lra. reflexivity. }
  induction k as [|k IH].
  - cbn [vf_iter geometric_sum].
    destruct (Nz self) as [|[|n]].
    + unfold vf_update. rewrite Hpi.
      cbv [zeros repeat mat_vec clip_min scale vadd zip_with map dot].
      rewrite Rmax_left by lra. reflexivity.
    + unfold vf_update. rewrite Hpi.
      cbv [zeros repeat mat_vec clip_min scale vadd zip_with map dot].
      replace (1 / 2 * 0 + 0) with 0 by ring.
      rewrite Rmax_left by lra. reflexivity.
    + unfold vf_update. rewrite Hpi.
      cbv [zeros repeat mat_vec clip_min scale vadd zip_with map dot].
      destruct n; cbv [repeat dot];
        replace (1 / 2 * 0 + (1 / 2 * 0 + 0)) with 0 by ring;
        rewrite Rmax_left by lra; reflexivity.
  - change (vf_iter self [p0; p1] (S (S k)))
      with (vf_update self [p0; p1] (vf_iter self [p0; p1] (S k))).
    rewrite IH. apply Hupd.
    + pose proof (geometric_sum_nonneg (beta self) ((p0 + p1) / 2) (S k)
                    Hb ltac:(lra)) as Hg.
      exact Hg.
    + simpl. field.
Qed.

Lemma patient_profit_bound z :
  1 <= z ->
  1 <= 10 * (z * power (power (2 / 3 * 10 * z / 1) (1 / (1 - 2 / 3))) (2 / 3))
       - 1 * power (2 / 3 * 10 * z / 1) (1 / (1 - 2 / 3)) - 20 * 1.
Proof.
  intros Hz. unfold power.
  set (x := 2 / 3 * 10 * z / 1).
  assert (Hx : 0 < x) by (unfold x; lra).
  replace (1 / (1 - 2 / 3)) with (INR 3) by (simpl; field).
  rewrite Rpower_mult.
  replace (INR 3 * (2 / 3)) with (INR 2) by (simpl; field).
  rewrite !Rpower_pow by assumption.
  replace (10 * (z * x ^ 2) - 1 * x ^ 3 - 20 * 1)
    with (4000 / 27 * (z * z * z) - 20) by (unfold x; field).
  assert (1 <= z * z) by nra.
  assert (1 <= z * z * z) by nra.
  lra.
Qed.

Lemma patient_incumbent_firm :
  exists p0 p1 fo pn,
    incumbent_firm patient 10 = ([p0; p1], fo, pn) /\ 1 <= p0 /\ 1 <= p1.
Proof.
  unfold incumbent_firm.
  cbv [patient init setup_parameters setup_grid patient_params iid_chain
       grid_z theta wage cf Nz P state_values p_theta p_wage p_cf p_Nz
       map vmul vsub scale zip_with ones repeat].
  do 4 eexists. split; [reflexivity|].
  split; apply patient_profit_bound.
  - rewrite exp_0; lra.
  - pose proof (exp_ineq1 1 ltac:(lra)). lra.
Qed.

(** No update of [patient]'s value-function iteration at a profitable price
    comes within the tolerance in 2000 iterations. *)
Lemma patient_never_within_tol p0 p1 i :
  1 <= p0 -> 1 <= p1 -> (i < 2000)%nat ->
  ~ vf_iter_dist patient [p0; p1] i < tol patient.
Proof.
  intros H0 H1 Hi. change (tol patient) with 1e-8.
  assert (Hpi : pi patient = [[1 / 2; 1 / 2]; [1 / 2; 1 / 2]]) by reflexivity.
  assert (Hb : beta patient = 0.9999) by reflexivity.
  unfold vf_iter_dist.
  rewrite (vf_iter_iid patient p0 p1 i Hpi) by (rewrite ?Hb; lra).
  set (q := (p0 + p1) / 2). assert (Hq : 1 <= q) by (unfold q; lra).
  destruct i as [|k].
  - change (vf_iter patient [p0; p1] 0) with [0; 0].
    cbv [geometric_sum vf_dist vsub zip_with map amax fold_left].
    pose proof (Rmax_l (Rabs (0 - (p0 + beta patient * 0)))
                       (Rabs (0 - (p1 + beta patient * 0)))) as Hmax.
    pose proof (Rabs_left (0 - (p0 + beta patient * 0))
                  ltac:(rewrite Hb; lra)) as Habs.
    rewrite Hb in *. lra.
  - rewrite (vf_iter_iid patient p0 p1 k Hpi) by (rewrite ?Hb; lra).
    fold q.
    cbv [vf_dist vsub zip_with map amax fold_left].
    set (g := geometric_sum (beta patient) q).
    pose proof (geometric_sum_step (beta patient) q k) as Hstep.
    fold g in Hstep.
    pose proof (Rmax_l (Rabs (p0 + beta patient * g k
                              - (p0 + beta patient * g (S k))))
                       (Rabs (p1 + beta patient * g k
                              - (p1 + beta patient * g (S k))))) as Hmax.
    assert (Hpow : 0.8 <= beta patient ^ k).
    { rewrite Hb. replace 0.9999 with (1 - 0.0001) by lra.
      pose proof (bernoulli_below 0.0001 k ltac:(lra)) as Hbern.
      assert (INR k <= 2000).
      { replace 2000 with (INR 2000) by (simpl; lra).
        apply le_INR. lia. }
      lra. }
    assert (Hd : 0.8 <= beta patient ^ k * q) by nra.
    pose proof (Rabs_left (p0 + beta patient * g k
                           - (p0 + beta patient * g (S k)))
                  ltac:(rewrite Hb in *; nra)) as Habs.
    rewrite Hb in *. nra.
Qed.

(** *** Loops that use up their iterations *)

(** C9 (as amended).  When an iteration cap is reached without the
    tolerance being met, the caller receives the last iterate and nothing
    else: [solve_vf] returns the [maxit]-th Bellman iterate with the profit,
    output and labour arrays, and [solve_firm] returns the [maxit]-th
    candidate price. *)
Theorem exhausted_loops_return_last_iterate self price :
  let '(firm_profit, firm_output, pol_n) := incumbent_firm self price in
  ((forall i, (i < maxit self)%nat ->
              ~ vf_iter_dist self firm_profit i < tol self) ->
   solve_vf self price
   = (vf_iter self firm_profit (maxit self), firm_profit, firm_output, pol_n))
  /\
  ((0 < maxit self)%nat ->
   (forall k pmin pmax,
       (k < maxit self)%nat -> bisection self k pmin pmax ->
       ~ free_entry self (midpoint pmin pmax)) ->
   exists pmin pmax,
     bisection self (pred (maxit self)) pmin pmax /\
     solve_firm self = Return (midpoint pmin pmax)).
Proof.
  unfold solve_vf, solve_firm.
  destruct (incumbent_firm self price) as [[fp fo] pn]. split.
  - intros Hnever. rewrite vf_loop_exhausted by exact Hnever. reflexivity.
  - intros Hmax Hnever.
    destruct (maxit self) as [|n]; [lia|].
    destruct (price_loop_bisection self n 0 0.01 100 None
                (bisection_start self))
      as (j & lo & hi & Hj & Hb & Heq & Hend).
    rewrite Heq.
    destruct Hend as [Hfe|[Hj' _]].
    + exfalso. apply (Hnever j lo hi); auto; lia.
    + exists lo, hi. simpl in *. replace n with j by lia. auto.
Qed.

Lemma exhausted_loops_witness :
  (let '(firm_profit, firm_output, pol_n) := incumbent_firm patient 10 in
   solve_vf patient 10
   = (vf_iter patient firm_profit (maxit patient),
      firm_profit, firm_output, pol_n)) /\
  (exists pmin pmax,
      bisection costly (pred (maxit costly)) pmin pmax /\
      solve_firm costly = Return (midpoint pmin pmax)).
Proof.
  split.
  - pose proof (exhausted_loops_return_last_iterate patient 10) as H.
    destruct patient_incumbent_firm as (p0 & p1 & fo & pn & Heq & H0 & H1).
    rewrite Heq in *. apply (proj1 H).
    intros i Hi. apply patient_never_within_tol; assumption.
  - pose proof (exhausted_loops_return_last_iterate costly 1) as H.
    destruct (incumbent_firm costly 1) as [[fp fo] pn].
    apply (proj2 H).
    + change (maxit costly) with (S 1999). apply Nat.lt_0_succ.
    + intros k pmin pmax _ Hb.
      destruct (bisection_bracket costly k pmin pmax Hb)
        as (H1 & H2 & H3 & _).
      apply costly_never_free_entry. unfold midpoint. lra.
Defined.

(** C9, counterexample.  For [patient] at the price 10 no update of the
    value-function iteration meets the tolerance and [solve_vf] returns its
    four arrays, the first being the 2000th iterate; for [costly] no
    candidate of the bisection meets the tolerance and [solve_firm] returns
    the bare price.  Neither raises, and neither value carries a flag. *)
Lemma exhausted_loops_counterexample :
  (exists VF firm_profit firm_output pol_n,
      (forall i, (i < maxit patient)%nat ->
                 ~ vf_iter_dist patient firm_profit i < tol patient) /\
      solve_vf patient 10 = (VF, firm_profit, firm_output, pol_n) /\
      VF = vf_iter patient firm_profit (maxit patient)) /\
  (forall k pmin pmax,
      bisection costly k pmin pmax ->
      ~ free_entry costly (midpoint pmin pmax)) /\
  solve_firm costly = Return costly_price /\
  ~ (exists e, solve_firm costly = Raise e).
Proof.
  split; [|split; [|split]].
  - destruct patient_incumbent_firm as (p0 & p1 & fo & pn & Heq & H0 & H1).
    assert (Hnever : forall i, (i < maxit patient)%nat ->
                ~ vf_iter_dist patient [p0; p1] i < tol patient)
      by (intros i Hi; apply patient_never_within_tol; assumption).
    exists (vf_iter patient [p0; p1] (maxit patient)), [p0; p1], fo, pn.
    split; [exact Hnever|]. split; [|reflexivity].
    unfold solve_vf. rewrite Heq, vf_loop_exhausted by exact Hnever.
    reflexivity.
  - intros k pmin pmax Hb.
    destruct (bisection_bracket costly k pmin pmax Hb) as (H1 & H2 & H3 & _).
    apply costly_never_free_entry. unfold midpoint. lra.
  - exact costly_solve_firm.
  - intros [e He]. rewrite costly_solve_firm in He. discriminate.
Qed.

(** ** Further properties: set-up and the static problem *)

Lemma increasing_map_exp v : increasing v -> increasing (map exp v).
Proof.
  intros H i j Hij. rewrite length_map in Hij.
  rewrite !(nth_map_in exp v _ 0 0) by lia.
  apply exp_increasing, H. exact Hij.
Qed.

(** X1.  [__init__] keeps the chain's shape and order: [grid_z] has one
    level per state value, every level is positive, and the levels are
    strictly increasing when the state values are; the tolerance is [1e-8]
    and the iteration cap 2000 whatever the arguments. *)
Theorem init_grid self_args chain :
  increasing (state_values chain) ->
  let self := init self_args chain in
  length (grid_z self) = length (state_values chain) /\
  positive (grid_z self) /\
  increasing (grid_z self) /\
  tol self = 1e-8 /\ maxit self = 2000%nat.
Proof.
  intros Hinc. cbv zeta.
  change (grid_z (init self_args chain)) with (map exp (state_values chain)).
  split; [apply length_map|]. split.
  - unfold positive. apply Forall_forall. intros z Hz.
    apply in_map_iff in Hz. destruct Hz as (s & <- & _). apply exp_pos.
  - split; [apply increasing_map_exp; exact Hinc|]. split; reflexivity.
Qed.

Lemma init_grid_witness :
  let self := init persistent_params persistent_chain in
  length (grid_z self) = length (state_values persistent_chain) /\
  positive (grid_z self) /\
  increasing (grid_z self) /\
  tol self = 1e-8 /\ maxit self = 2000%nat.
Proof.
  apply (init_grid persistent_params persistent_chain).
  intros i j Hij. simpl in Hij.
  assert (i = 0%nat /\ j = 1%nat) as [-> ->] by lia.
  simpl. lra.
Defined.

Lemma incumbent_firm_lengths self price :
  length (grid_z self) = Nz self ->
  let '(firm_profit, firm_output, pol_n) := incumbent_firm self price in
  length firm_profit = Nz self /\ length firm_output = Nz self /\
  length pol_n = Nz self.
Proof.
  intros Hlen.
  pose proof (incumbent_firm_profit self price Hlen) as Hprofit.
  unfold incumbent_firm in *. cbn [fst] in Hprofit. rewrite Hprofit.
  split; [rewrite length_map; exact Hlen|].
  split; [unfold vmul; rewrite zip_with_length, !length_map; lia|].
  rewrite length_map; exact Hlen.
Qed.

(** The arrays of [incumbent_firm], entry by entry. *)
Lemma incumbent_firm_nth self price i :
  length (grid_z self) = Nz self -> (i < Nz self)%nat ->
  let '(firm_profit, firm_output, pol_n) := incumbent_firm self price in
  let z := nth i (grid_z self) 0 in
  let n := power (theta self * price * z / wage self) (1 / (1 - theta self)) in
  nth i pol_n 0 = n /\
  nth i firm_output 0 = z * power n (theta self) /\
  nth i firm_profit 0 = static_profit self price z.
Proof.
  intros Hlen Hi.
  pose proof (incumbent_firm_profit self price Hlen) as Hprofit.
  unfold incumbent_firm in *. cbn [fst] in Hprofit. cbv zeta.
  rewrite Hprofit. clear Hprofit.
  split; [|split].
  - rewrite (nth_map_in _ (grid_z self) i 0 0) by lia. reflexivity.
  - unfold vmul.
    rewrite (zip_with_nth Rmult _ _ i 0 0 0)
      by (rewrite ?length_map; lia).
    rewrite (nth_map_in _ _ i 0 0) by (rewrite length_map; lia).
    rewrite (nth_map_in _ (grid_z self) i 0 0) by lia. reflexivity.
  - rewrite (nth_map_in _ (grid_z self) i 0 0) by lia. reflexivity.
Qed.

Lemma grid_nth_positive self i :
  positive (grid_z self) -> (i < length (grid_z self))%nat ->
  0 < nth i (grid_z self) 0.
Proof.
  intros Hpos Hi. unfold positive in Hpos. rewrite Forall_forall in Hpos.
  apply Hpos, nth_In, Hi.
Qed.

Lemma incumbent_firm_foc self price :
  0 < price -> 0 < theta self < 1 -> 0 < wage self ->
  length (grid_z self) = Nz self -> positive (grid_z self) ->
  let '(firm_profit, firm_output, pol_n) := incumbent_firm self price in
  length firm_profit = Nz self /\ length firm_output = Nz self /\
  length pol_n = Nz self /\
  forall i, (i < Nz self)%nat ->
    0 < nth i pol_n 0 /\
    0 < nth i firm_output 0 /\
    nth i firm_output 0
    = nth i (grid_z self) 0 * power (nth i pol_n 0) (theta self) /\
    wage self * nth i pol_n 0 = theta self * price * nth i firm_output 0 /\
    nth i firm_profit 0
    = (1 - theta self) * price * nth i firm_output 0 - cf self.
Proof.
  intros Hp Hth Hw Hlen Hpos.
  pose proof (incumbent_firm_lengths self price Hlen) as Hlens.
  destruct (incumbent_firm self price) as [[fp fo] pn] eqn:Heq.
  destruct Hlens as (L1 & L2 & L3).
  split; [exact L1|]. split; [exact L2|]. split; [exact L3|].
  intros i Hi.
  pose proof (incumbent_firm_nth self price i Hlen Hi) as H.
  rewrite Heq in H. cbv zeta in H. destruct H as (Hn & Hy & Hpr).
  set (z := nth i (grid_z self) 0) in *.
  assert (Hz : 0 < z) by (apply grid_nth_positive; [assumption|lia]).
  set (x := theta self * price * z / wage self) in *.
  assert (Hx : 0 < x).
  { unfold x. apply Rdiv_lt_0_compat; [|assumption].
    apply Rmult_lt_0_compat; [|assumption].
    apply Rmult_lt_0_compat; lra. }
  assert (Hnpos : 0 < nth i pn 0)
    by (rewrite Hn; unfold power, Rpower; apply exp_pos).
  assert (Hypos : 0 < nth i fo 0).
  { rewrite Hy. apply Rmult_lt_0_compat; [assumption|].
    unfold power at 1. unfold Rpower at 1. apply exp_pos. }
  split; [exact Hnpos|]. split; [exact Hypos|].
  split; [rewrite Hy, Hn; reflexivity|].
  assert (Hfoc : wage self * nth i pn 0 = theta self * price * nth i fo 0).
  { rewrite Hn, Hy. unfold power. rewrite Rpower_mult.
    replace (1 / (1 - theta self) * theta self)
      with (theta self / (1 - theta self)) by (field; lra).
    replace (1 / (1 - theta self))
      with (theta self / (1 - theta self) + 1) at 1 by (field; lra).
    rewrite Rpower_plus, Rpower_1 by assumption.
    unfold x. field. lra. }
  split; [exact Hfoc|].
  rewrite Hpr. unfold static_profit. fold x. rewrite <- Hn.
  replace (price * (z * power (nth i pn 0) (theta self)))
    with (price * nth i fo 0) by (rewrite Hy, Hn; reflexivity).
  lra.
Qed.

(** X2.  For a positive price and valid parameters, [incumbent_firm]
    returns three arrays of [Nz] entries; labour and output are positive;
    labour satisfies the first-order condition [wage * n = theta * price * y]
    (the wage bill is the share [theta] of revenue), so profit is the share
    [1 - theta] of revenue less the fixed cost. *)
Theorem incumbent_firm_first_order_condition self price :
  0 < price -> 0 < theta self < 1 -> 0 < wage self ->
  length (grid_z self) = Nz self -> positive (grid_z self) ->
  let '(firm_profit, firm_output, pol_n) := incumbent_firm self price in
  length firm_profit = Nz self /\ length firm_output = Nz self /\
  length pol_n = Nz self /\
  forall i, (i < Nz self)%nat ->
    0 < nth i pol_n 0 /\
    0 < nth i firm_output 0 /\
    nth i firm_output 0
    = nth i (grid_z self) 0 * power (nth i pol_n 0) (theta self) /\
    wage self * nth i pol_n 0 = theta self * price * nth i firm_output 0 /\
    nth i firm_profit 0
    = (1 - theta self) * price * nth i firm_output 0 - cf self.
Proof.
  exact (incumbent_firm_foc self price).
Qed.

Lemma incumbent_firm_first_order_condition_witness :
  let '(firm_profit, firm_output, pol_n) := incumbent_firm persistent 1 in
  length firm_profit = Nz persistent /\ length firm_output = Nz persistent /\
  length pol_n = Nz persistent /\
  forall i, (i < Nz persistent)%nat ->
    0 < nth i pol_n 0 /\
    0 < nth i firm_output 0 /\
    nth i firm_output 0
    = nth i (grid_z persistent) 0 * power (nth i pol_n 0) (theta persistent) /\
    wage persistent * nth i pol_n 0
    = theta persistent * 1 * nth i firm_output 0 /\
    nth i firm_profit 0
    = (1 - theta persistent) * 1 * nth i firm_output 0 - cf persistent.
Proof.
  apply (incumbent_firm_first_order_condition persistent 1).
  - lra.
  - change (theta persistent) with (2 / 3). lra.
  - change (wage persistent) with 1. lra.
  - reflexivity.
  - exact persistent_grid_positive.
Defined.

(** Weighted means: [t ^ a <= a * t + (1 - a)] for [0 <= a <= 1]. *)
Lemma Rpower_weighted_mean t a :
  0 < t -> 0 <= a <= 1 -> Rpower t a <= a * t + (1 - a).
Proof.
  intros Ht Ha. unfold Rpower.
  set (l := ln t).
  set (u := exp (a * l)).
  set (v1 := exp ((1 - a) * l)). set (v2 := exp (- (a * l))).
  assert (Hu : 0 < u) by apply exp_pos.
  assert (Et : t = u * v1).
  { unfold u, v1. rewrite <- exp_plus.
    replace (a * l + (1 - a) * l) with l by ring.
    unfold l. symmetry. apply exp_ln. exact Ht. }
  assert (E1 : 1 = u * v2).
  { unfold u, v2. rewrite <- exp_plus.
    replace (a * l + - (a * l)) with 0 by ring.
    symmetry. apply exp_0. }
  pose proof (exp_ineq1_le ((1 - a) * l)) as H1. fold v1 in H1.
  pose proof (exp_ineq1_le (- (a * l))) as H2. fold v2 in H2.
  assert (Hmix : 1 <= a * v1 + (1 - a) * v2) by nra.
  replace (a * t + (1 - a)) with (u * (a * v1 + (1 - a) * v2))
    by (rewrite Et; transitivity (a * (u * v1) + (1 - a) * (u * v2));
        [ring|rewrite <- E1; ring]).
  nra.
Qed.

(** X3.  The labour input [incumbent_firm] chooses maximises static profit:
    at every productivity level no positive amount of labour earns more
    than the profit it returns. *)
Theorem incumbent_firm_labour_optimal self price i n' :
  0 < price -> 0 < theta self < 1 -> 0 < wage self ->
  length (grid_z self) = Nz self -> positive (grid_z self) ->
  (i < Nz self)%nat -> 0 < n' ->
  let '(firm_profit, _, _) := incumbent_firm self price in
  price * (nth i (grid_z self) 0 * power n' (theta self))
  - wage self * n' - cf self * 1
  <= nth i firm_profit 0.
Proof.
  intros Hp Hth Hw Hlen Hpos Hi Hn'.
  pose proof (incumbent_firm_foc self price
                Hp Hth Hw Hlen Hpos) as H.
  destruct (incumbent_firm self price) as [[fp fo] pn].
  destruct H as (_ & _ & _ & H).
  destruct (H i Hi) as (Hn & Hy & Hyn & Hfoc & Hpr). clear H.
  set (z := nth i (grid_z self) 0) in *.
  set (n := nth i pn 0) in *. set (y := nth i fo 0) in *.
  set (t := n' / n).
  assert (Ht : 0 < t) by (unfold t; apply Rdiv_lt_0_compat; assumption).
  assert (En' : n' = t * n) by (unfold t; field; lra).
  assert (Epow : power n' (theta self)
                 = Rpower t (theta self) * power n (theta self)).
  { unfold power. rewrite En', Rpower_mult_distr by assumption. reflexivity. }
  pose proof (Rpower_weighted_mean t (theta self) Ht ltac:(lra)) as Hmean.
  rewrite Hpr, Epow.
  replace (price * (z * (Rpower t (theta self) * power n (theta self))))
    with (price * y * Rpower t (theta self)) by (rewrite Hyn; ring).
  replace (wage self * n') with (t * (theta self * price * y))
    by (rewrite <- Hfoc, En'; ring).
  assert (Hpy : 0 < price * y) by (apply Rmult_lt_0_compat; assumption).
  nra.
Qed.

Lemma incumbent_firm_labour_optimal_witness :
  let '(firm_profit, _, _) := incumbent_firm persistent 1 in
  1 * (nth 0 (grid_z persistent) 0 * power 5 (theta persistent))
  - wage persistent * 5 - cf persistent * 1
  <= nth 0 firm_profit 0.
Proof.
  apply (incumbent_firm_labour_optimal persistent 1 0 5).
  - lra.
  - change (theta persistent) with (2 / 3). lra.
  - change (wage persistent) with 1. lra.
  - reflexivity.
  - exact persistent_grid_positive.
  - change (Nz persistent) with 2%nat. lia.
  - lra.
Defined.

Lemma static_profit_increasing_in_price self p1 p2 z :
  0 < p1 < p2 -> 0 < theta self < 1 -> 0 < wage self -> 0 < z ->
  static_profit self p1 z < static_profit self p2 z.
Proof.
  intros Hp Hth Hw Hz.
  rewrite !static_profit_closed_form by lra.
  set (e := theta self / (1 - theta self)).
  assert (He : 0 < e) by (unfold e; apply Rdiv_lt_0_compat; lra).
  assert (Hk : 0 < theta self * z / wage self).
  { apply Rdiv_lt_0_compat; [|assumption]. apply Rmult_lt_0_compat; lra. }
  replace (theta self * p1 * z / wage self)
    with (theta self * z / wage self * p1) by (field; lra).
  replace (theta self * p2 * z / wage self)
    with (theta self * z / wage self * p2) by (field; lra).
  set (k := theta self * z / wage self) in *.
  assert (Hr : Rpower (k * p1) e < Rpower (k * p2) e).
  { apply Rlt_Rpower_l; [assumption|]. split; nra. }
  assert (Hr1 : 0 < Rpower (k * p1) e) by (unfold Rpower; apply exp_pos).
  assert (Hc : 0 < (1 - theta self) * z) by nra.
  assert (Hpr : p1 * Rpower (k * p1) e < p2 * Rpower (k * p2) e) by nra.
  nra.
Qed.

(** X4.  Static profit rises with the price: between two positive prices
    every entry of the profit array of [incumbent_firm] is strictly larger
    at the higher one. *)
Theorem incumbent_firm_profit_increasing_in_price self p1 p2 :
  0 < p1 < p2 -> 0 < theta self < 1 -> 0 < wage self ->
  length (grid_z self) = Nz self -> positive (grid_z self) ->
  forall i, (i < Nz self)%nat ->
    nth i (fst (fst (incumbent_firm self p1))) 0
    < nth i (fst (fst (incumbent_firm self p2))) 0.
Proof.
  intros Hp Hth Hw Hlen Hpos i Hi.
  rewrite !incumbent_firm_profit by assumption.
  rewrite !(nth_map_in _ (grid_z self) i 0 0) by lia.
  apply static_profit_increasing_in_price; auto.
  apply grid_nth_positive; [assumption|lia].
Qed.

Lemma incumbent_firm_profit_increasing_in_price_witness :
  nth 1 (fst (fst (incumbent_firm persistent 1))) 0
  < nth 1 (fst (fst (incumbent_firm persistent 2))) 0.
Proof.
  apply (incumbent_firm_profit_increasing_in_price persistent 1 2).
  - lra.
  - change (theta persistent) with (2 / 3). lra.
  - change (wage persistent) with 1. lra.
  - reflexivity.
  - exact persistent_grid_positive.
  - change (Nz persistent) with 2%nat. lia.
Defined.

(** ** Further properties: the Bellman update *)

Lemma vf_loop_updates_once self firm_profit n :
  exists j,
    (1 <= j)%nat /\
    vf_loop self firm_profit (S n) (zeros (Nz self)) (zeros (Nz self))
    = vf_iter self firm_profit j.
Proof.
  destruct (vf_loop_iter self firm_profit (S n) 0)
    as (j & Hj & Heq & _ & Hshort).
  exists j. split; [|exact Heq].
  destruct (Nat.eq_dec j 0) as [->|Hne]; [|lia].
  destruct Hshort as (i & Hi & _); [lia|discriminate].
Qed.

(** X5.  With at least one iteration allowed and [beta >= 0], the value
    [solve_vf] returns is nowhere below the static profit: continuing is
    worth at least the current profit, the option to exit being worth 0. *)
Theorem solve_vf_at_least_profit self price :
  (0 < maxit self)%nat -> 0 <= beta self ->
  let '(VF, firm_profit, _, _) := solve_vf self price in
  forall z, (z < length VF)%nat -> nth z firm_profit 0 <= nth z VF 0.
Proof.
  intros Hmax Hb. unfold solve_vf.
  destruct (incumbent_firm self price) as [[fp fo] pn].
  destruct (maxit self) as [|n]; [lia|].
  destruct (vf_loop_updates_once self fp n) as (j & Hj & ->).
  destruct j as [|k]; [lia|]. cbn [vf_iter].
  intros z Hz. rewrite vf_update_length in Hz.
  rewrite vf_update_nth by lia.
  pose proof (Rmax_l 0 (nth z (mat_vec (pi self) (vf_iter self fp k)) 0)).
  nra.
Qed.

Lemma solve_vf_at_least_profit_witness :
  let '(VF, firm_profit, _, _) := solve_vf persistent 1 in
  forall z, (z < length VF)%nat -> nth z firm_profit 0 <= nth z VF 0.
Proof.
  apply (solve_vf_at_least_profit persistent 1).
  - change (maxit persistent) with (S 1999). apply Nat.lt_0_succ.
  - change (beta persistent) with 0.8. lra.
Defined.

(** Entrywise order and the update. *)
Lemma dot_le row V W :
  Forall (fun x => 0 <= x) row -> Forall2 Rle V W ->
  dot row V <= dot row W.
Proof.
  intros Hrow HVW. revert row Hrow.
  induction HVW as [|v w V W Hvw _ IH]; intros [|x row] Hrow; simpl;
    try lra.
  pose proof (Forall_inv Hrow) as Hx. simpl in Hx.
  specialize (IH row (Forall_inv_tail Hrow)). nra.
Qed.

Lemma vf_update_le self fp fp' V W :
  0 <= beta self ->
  Forall (Forall (fun x => 0 <= x)) (pi self) ->
  Forall2 Rle fp fp' -> Forall2 Rle V W ->
  Forall2 Rle (vf_update self fp V) (vf_update self fp' W).
Proof.
  intros Hb Hpi Hfp HVW.
  unfold vf_update, vadd, scale, clip_min, mat_vec.
  revert Hpi. generalize (pi self) as A. intros A Hpi. revert A Hpi.
  induction Hfp as [|p p' fp fp' Hp _ IH]; intros A Hpi;
    [destruct A; constructor|].
  destruct Hpi as [|row A Hrow HA]; simpl; constructor.
  - pose proof (dot_le row V W Hrow HVW) as Hdot.
    pose proof (Rle_max_compat_r _ _ 0 Hdot). nra.
  - apply IH. exact HA.
Qed.

Lemma Forall2_Rle_refl v : Forall2 Rle v v.
Proof. induction v; constructor; [lra|assumption]. Qed.

Lemma vf_update_zeros_le self fp V n :
  0 <= beta self ->
  Forall2 Rle (vf_update self fp (zeros n)) (vf_update self fp V).
Proof.
  intros Hb. unfold vf_update, vadd, scale, clip_min, mat_vec.
  generalize (pi self) as A.
  induction fp as [|p fp IHfp]; intros [|row A]; simpl; constructor.
  - rewrite dot_zeros, Rmax_left by lra.
    pose proof (Rmax_r (dot row V) 0). nra.
  - apply IHfp.
Qed.

(** X6.  From the first update on, value-function iteration rises: with
    non-negative transition probabilities and [beta >= 0], every iterate is
    entrywise at least the one before. *)
Theorem vf_iter_rises self firm_profit k :
  0 <= beta self ->
  Forall (Forall (fun x => 0 <= x)) (pi self) ->
  Forall2 Rle (vf_iter self firm_profit (S k))
              (vf_iter self firm_profit (S (S k))).
Proof.
  intros Hb Hpi. induction k as [|k IH].
  - cbn [vf_iter]. apply vf_update_zeros_le. exact Hb.
  - change (vf_iter self firm_profit (S (S (S k))))
      with (vf_update self firm_profit (vf_iter self firm_profit (S (S k)))).
    change (vf_iter self firm_profit (S (S k)))
      with (vf_update self firm_profit (vf_iter self firm_profit (S k)))
      at 1.
    apply vf_update_le; auto. apply Forall2_Rle_refl.
Qed.

Lemma vf_iter_rises_witness :
  Forall2 Rle (vf_iter persistent [1; 2] 3) (vf_iter persistent [1; 2] 4).
Proof.
  apply (vf_iter_rises persistent [1; 2] 2).
  - change (beta persistent) with 0.8. lra.
  - change (pi persistent) with [[3 / 4; 1 / 4]; [1 / 4; 3 / 4]].
    repeat constructor; lra.
Defined.

(** ** Further properties: value-function iteration converges *)

Lemma Rmax_0_lipschitz a b : Rabs (Rmax a 0 - Rmax b 0) <= Rabs (a - b).
Proof.
  unfold Rmax. destruct (Rle_dec a 0), (Rle_dec b 0);
    unfold Rabs; repeat destruct Rcase_abs; lra.
Qed.

Lemma sum_nonneg row : Forall (fun x => 0 <= x) row -> 0 <= sum row.
Proof.
  unfold sum. induction 1 as [|x row Hx _ IH]; simpl; lra.
Qed.

Lemma dot_diff_bound row V W M :
  0 <= M -> Forall (fun x => 0 <= x) row ->
  Forall2 (fun v w => Rabs (v - w) <= M) V W ->
  Rabs (dot row V - dot row W) <= M * sum row.
Proof.
  intros HM Hrow HVW. revert row Hrow.
  induction HVW as [|v w V W Hvw _ IH]; intros [|x row] Hrow; simpl.
  - rewrite Rminus_diag, Rabs_R0. lra.
  - rewrite Rminus_diag, Rabs_R0.
    pose proof (sum_nonneg _ Hrow) as Hs. simpl in Hs. nra.
  - rewrite Rminus_diag, Rabs_R0. lra.
  - pose proof (Forall_inv Hrow) as Hx. simpl in Hx.
    specialize (IH row (Forall_inv_tail Hrow)). fold (sum row).
    replace (x * v + dot row V - (x * w + dot row W))
      with (x * (v - w) + (dot row V - dot row W)) by ring.
    eapply Rle_trans; [apply Rabs_triang|].
    rewrite Rabs_mult, (Rabs_right x) by lra. nra.
Qed.

Lemma vf_dist_bound X Y C :
  0 <= C -> Forall2 (fun a b => Rabs (a - b) <= C) X Y -> vf_dist X Y <= C.
Proof.
  intros HC H. unfold vf_dist.
  assert (Hall : Forall (fun d => d <= C) (map Rabs (vsub X Y))).
  { unfold vsub. induction H; simpl; constructor; auto. }
  destruct (map Rabs (vsub X Y)) as [|d l] eqn:E; [simpl; lra|].
  destruct (amax_spec (d :: l)) as [Hin _]; [discriminate|].
  rewrite Forall_forall in Hall. apply Hall. exact Hin.
Qed.

Lemma vf_dist_nonneg X Y : 0 <= vf_dist X Y.
Proof.
  unfold vf_dist.
  destruct (map Rabs (vsub X Y)) as [|d l] eqn:E; [simpl; lra|].
  destruct (amax_spec (d :: l)) as [_ Hle]; [discriminate|].
  apply Rle_trans with d; [|apply Hle; left; reflexivity].
  destruct (vsub X Y) as [|s t]; [discriminate|].
  injection E as <- _. apply Rabs_pos.
Qed.

Lemma vf_dist_entries X Y :
  length X = length Y ->
  Forall2 (fun a b => Rabs (a - b) <= vf_dist X Y) X Y.
Proof.
  intros Hlen.
  assert (Hall : forall d, In d (map Rabs (vsub X Y)) -> d <= vf_dist X Y).
  { intros d Hd. unfold vf_dist.
    destruct (map Rabs (vsub X Y)) as [|e l] eqn:E; [contradiction|].
    destruct (amax_spec (e :: l)) as [_ Hle]; [discriminate|].
    apply Hle. exact Hd. }
  revert Hall. generalize (vf_dist X Y) as M. intros M.
  revert Y Hlen. unfold vsub.
  induction X as [|a X IH]; intros [|b Y] Hlen Hall; simpl in *;
    try discriminate; constructor.
  - apply Hall. left. reflexivity.
  - apply IH; [lia|]. intros d Hd. apply Hall. right. exact Hd.
Qed.

Lemma vf_update_diff self fp V W C :
  0 <= beta self -> 0 <= C ->
  Forall (fun row => Forall (fun x => 0 <= x) row /\ sum row = 1) (pi self) ->
  Forall2 (fun v w => Rabs (v - w) <= C) V W ->
  Forall2 (fun a b => Rabs (a - b) <= beta self * C)
          (vf_update self fp V) (vf_update self fp W).
Proof.
  intros Hb HC Hpi HVW.
  unfold vf_update, vadd, scale, clip_min, mat_vec.
  revert Hpi. generalize (pi self) as A. intros A Hpi. revert A Hpi.
  induction fp as [|p fp IH]; intros A Hpi; [destruct A; constructor|].
  destruct Hpi as [|row A [Hrow Hsum] HA]; simpl; constructor.
  - pose proof (dot_diff_bound row V W C HC Hrow HVW) as Hd.
    rewrite Hsum, Rmult_1_r in Hd.
    pose proof (Rmax_0_lipschitz (dot row V) (dot row W)) as Hl.
    replace (p + beta self * Rmax (dot row V) 0
             - (p + beta self * Rmax (dot row W) 0))
      with (beta self * (Rmax (dot row V) 0 - Rmax (dot row W) 0)) by ring.
    rewrite Rabs_mult, (Rabs_right (beta self)) by lra.
    apply Rmult_le_compat_l; lra.
  - apply IH. exact HA.
Qed.

Lemma vf_update_contracts self firm_profit V W :
  transition_matrix (Nz self) (pi self) -> 0 <= beta self ->
  length V = length W ->
  vf_dist (vf_update self firm_profit V) (vf_update self firm_profit W)
  <= beta self * vf_dist V W.
Proof.
  intros [_ Hpi] Hb Hlen.
  pose proof (vf_dist_nonneg V W) as HM.
  apply vf_dist_bound; [nra|].
  apply vf_update_diff; auto.
  apply vf_dist_entries. exact Hlen.
Qed.

(** X7.  The Bellman update of [solve_vf] is a contraction of modulus
    [beta] in the sup norm the loop measures with: over a transition matrix
    and for [beta >= 0], updating two arrays of equal length brings them
    within [beta] times their distance. *)
Theorem vf_update_contraction self firm_profit V W :
  transition_matrix (Nz self) (pi self) -> 0 <= beta self ->
  length V = length W ->
  vf_dist (vf_update self firm_profit V) (vf_update self firm_profit W)
  <= beta self * vf_dist V W.
Proof.
  intros Hpi Hb Hlen.
  exact (vf_update_contracts self firm_profit V W Hpi Hb Hlen).
Qed.

Lemma vf_update_contraction_witness :
  vf_dist (vf_update persistent [1; 2] [0; 0])
          (vf_update persistent [1; 2] [4; 8])
  <= beta persistent * vf_dist [0; 0] [4; 8].
Proof.
  apply (vf_update_contraction persistent [1; 2] [0; 0] [4; 8]).
  - exact persistent_transition_matrix.
  - change (beta persistent) with 0.8. lra.
  - reflexivity.
Defined.

Lemma vf_iter_length self fp k :
  length fp = Nz self -> length (pi self) = Nz self ->
  length (vf_iter self fp k) = Nz self.
Proof.
  intros Hfp Hpi. destruct k as [|k]; cbn [vf_iter].
  - apply repeat_length.
  - rewrite vf_update_length. unfold vec in *. lia.
Qed.

Lemma vf_iter_dist_geometric self fp k :
  transition_matrix (Nz self) (pi self) -> 0 <= beta self ->
  length fp = Nz self ->
  vf_iter_dist self fp k <= beta self ^ k * vf_iter_dist self fp 0.
Proof.
  intros Hpi Hb Hfp. induction k as [|k IH]; [simpl; lra|].
  unfold vf_iter_dist in *.
  change (vf_iter self fp (S (S k)))
    with (vf_update self fp (vf_iter self fp (S k))).
  change (vf_iter self fp (S k))
    with (vf_update self fp (vf_iter self fp k)) at 1.
  eapply Rle_trans.
  - apply vf_update_contracts; auto.
    destruct Hpi as [[Hlen _] _].
    rewrite !vf_iter_length; auto.
  - change (beta self ^ S k) with (beta self * beta self ^ k).
    rewrite Rmult_assoc. apply Rmult_le_compat_l; [lra|]. exact IH.
Qed.

Lemma vf_iter_dist_0 self fp B :
  length fp = Nz self -> length (pi self) = Nz self ->
  0 <= B -> Forall (fun p => Rabs p <= B) fp ->
  vf_iter_dist self fp 0 <= B.
Proof.
  intros Hlen Hpi HB Hfp. unfold vf_iter_dist. cbn [vf_iter].
  rewrite vf_update_no_continuation.
  - apply vf_dist_bound; [exact HB|].
    unfold zeros. revert Hlen. generalize (Nz self) as n.
    induction Hfp as [|p fp Hp _ IH]; intros [|n] Hlen;
      try discriminate; simpl; constructor.
    + replace (0 - p) with (- p) by ring. rewrite Rabs_Ropp. exact Hp.
    + apply IH. simpl in Hlen. lia.
  - unfold vec in *. lia.
  - apply Forall_forall. intros row _. rewrite dot_zeros. lra.
Qed.

(** X8.  Value-function iteration converges: over a transition matrix,
    with [0 <= beta] and static profits bounded by [B] in absolute value,
    once [beta ^ k * B < tol] for some [k < maxit] the loop of [solve_vf]
    stops on its tolerance test after at most [k + 1] updates, and the value
    it returns is within [tol] of the iterate before it. *)
Theorem solve_vf_converges self price k B :
  transition_matrix (Nz self) (pi self) -> 0 <= beta self ->
  length (grid_z self) = Nz self ->
  0 <= B ->
  Forall (fun p => Rabs p <= B) (fst (fst (incumbent_firm self price))) ->
  (k < maxit self)%nat -> beta self ^ k * B < tol self ->
  let '(VF, firm_profit, _, _) := solve_vf self price in
  exists i, (i <= k)%nat /\
            VF = vf_iter self firm_profit (S i) /\
            vf_dist (vf_iter self firm_profit i) VF < tol self.
Proof.
  intros Hpi Hb Hgrid HB Hfp Hk Htol. unfold solve_vf.
  pose proof (incumbent_firm_lengths self price Hgrid) as Hlens.
  destruct (incumbent_firm self price) as [[fp fo] pn].
  cbn [fst] in Hfp.
  assert (Hlen : length fp = Nz self).
  { exact (proj1 Hlens). }
  assert (Hk' : vf_iter_dist self fp k < tol self).
  { eapply Rle_lt_trans; [apply vf_iter_dist_geometric; auto|].
    eapply Rle_lt_trans; [|exact Htol].
    apply Rmult_le_compat_l; [apply pow_le; exact Hb|].
    apply vf_iter_dist_0; auto. apply Hpi. }
  destruct (vf_loop_iter self fp (maxit self) 0)
    as (j & Hj & Heq & Hbefore & Hshort).
  cbn [vf_iter] in Heq. rewrite Heq.
  destruct (le_lt_dec j (S k)) as [Hle|Hgt].
  - destruct (Nat.eq_dec j (S k)) as [->|Hne].
    + exists k. repeat split; auto.
    + destruct Hshort as (i & -> & _ & Hi); [lia|].
      exists i. repeat split; auto. lia.
  - exfalso. apply (Hbefore k); [lia|lia|exact Hk'].
Qed.

(** ** The two-state models in closed form *)

Lemma power_cube x : 0 < x -> power x (1 / (1 - 2 / 3)) = x ^ 3.
Proof.
  intros Hx. unfold power.
  replace (1 / (1 - 2 / 3)) with (INR 3) by (simpl; field).
  apply Rpower_pow. exact Hx.
Qed.

Lemma power_cube_two_thirds x : 0 < x -> power (x ^ 3) (2 / 3) = x ^ 2.
Proof.
  intros Hx. unfold power.
  rewrite <- (Rpower_pow 3 x Hx), Rpower_mult.
  replace (INR 3 * (2 / 3)) with (INR 2) by (simpl; field).
  apply Rpower_pow. exact Hx.
Qed.

(** [incumbent_firm] with [theta = 2/3] and [wage = 1] on the grid
    [exp 0, exp 1]. *)
Lemma two_state_incumbent_firm self price :
  theta self = 2 / 3 -> wage self = 1 ->
  grid_z self = [exp 0; exp 1] -> Nz self = 2%nat -> 0 < price ->
  incumbent_firm self price
  = ([4 / 27 * price ^ 3 - cf self;
      4 / 27 * (price * exp 1) ^ 3 - cf self],
     [(2 / 3 * price) ^ 2; exp 1 * (2 / 3 * price * exp 1) ^ 2],
     [(2 / 3 * price) ^ 3; (2 / 3 * price * exp 1) ^ 3]).
Proof.
  intros Hth Hw Hg Hn Hp. unfold incumbent_firm.
  rewrite Hth, Hw, Hg, Hn.
  pose proof (exp_pos 1) as He.
  cbv [map vmul vsub scale zip_with ones repeat].
  rewrite exp_0.
  rewrite !power_cube by nra.
  replace (2 / 3 * price * 1 / 1) with (2 / 3 * price) by field.
  replace (2 / 3 * price * exp 1 / 1) with (2 / 3 * price * exp 1) by field.
  rewrite !power_cube_two_thirds by nra.
  apply f_equal2; [apply f_equal2|]; list_eq; field.
Qed.

Lemma exp_1_bounds : 2 < exp 1 <= 3.
Proof.
  split; [|exact exp_le_3].
  pose proof (exp_ineq1 1 ltac:(lra)). lra.
Qed.

Lemma solve_vf_converges_witness :
  let '(VF, firm_profit, _, _) := solve_vf persistent 1 in
  exists i, (i <= 100)%nat /\
            VF = vf_iter persistent firm_profit (S i) /\
            vf_dist (vf_iter persistent firm_profit i) VF < tol persistent.
Proof.
  apply (solve_vf_converges persistent 1 100 20).
  - exact persistent_transition_matrix.
  - change (beta persistent) with 0.8. lra.
  - reflexivity.
  - lra.
  - rewrite (two_state_incumbent_firm persistent 1) by (reflexivity || lra).
    cbn [fst]. change (cf persistent) with 20.
    pose proof exp_1_bounds as [He1 He2].
    assert (He3 : 8 <= (1 * exp 1) ^ 3 <= 27) by (split; nra).
    constructor; [|constructor; [|constructor]]; apply Rabs_le; lra.
  - change (maxit persistent) with (S 1999). lia.
  - change (beta persistent) with 0.8. change (tol persistent) with 1e-8.
    lra.
Defined.

(** ** Further properties: the exit decision and the price search *)

Lemma binsearch_range a v fuel :
  forall min_idx max_idx,
    (min_idx <= max_idx)%nat ->
    (min_idx <= binsearch fuel a v min_idx max_idx <= max_idx)%nat.
Proof.
  induction fuel as [|fuel IH]; intros lo hi Hle; cbn [binsearch]; [lia|].
  destruct (Nat.ltb_spec lo hi) as [Hlt|Hge]; [|lia].
  assert (Hhalf : ((hi - lo) / 2 < hi - lo)%nat)
    by (apply Nat.div_lt; lia).
  destruct (Rlt_dec (nth (lo + (hi - lo) / 2) a 0) v).
  - specialize (IH (S (lo + (hi - lo) / 2)) hi). lia.
  - specialize (IH lo (lo + (hi - lo) / 2)%nat). lia.
Qed.

Lemma nondecreasing_split a v n :
  nondecreasing a -> (n <= length a)%nat ->
  exists idx, (idx <= n)%nat /\
    (forall i, (i < idx)%nat -> nth i a 0 < v) /\
    (forall i, (idx <= i < n)%nat -> ~ nth i a 0 < v).
Proof.
  intros Hmono. induction n as [|n IH]; intros Hn.
  - exists 0%nat. repeat split; intros; lia.
  - destruct IH as (idx & Hidx & Hlow & Hhigh); [lia|].
    destruct (Nat.eq_dec idx n) as [->|Hne].
    + destruct (Rlt_dec (nth n a 0) v) as [Hlt|Hge].
      * exists (S n). repeat split; [lia| |intros; lia].
        intros i Hi. destruct (Nat.eq_dec i n) as [->|]; [exact Hlt|].
        apply Hlow. lia.
      * exists n. repeat split; [lia|exact Hlow|].
        intros i Hi. assert (i = n) as -> by lia. exact Hge.
    + exists idx. repeat split; [lia|exact Hlow|].
      intros i Hi. destruct (Nat.eq_dec i n) as [->|]; [|apply Hhigh; lia].
      pose proof (Hhigh idx ltac:(lia)) as Hidx'.
      pose proof (Hmono idx n ltac:(lia)). lra.
Qed.

(** On a non-decreasing array the binary search of [np.searchsorted]
    returns the insertion point: an index no greater than the length, with
    every entry before it below [v] and every entry from it on at least
    [v]. *)
Lemma searchsorted_insertion_point a v :
  nondecreasing a ->
  let idx := searchsorted a v in
  (idx <= length a)%nat /\
  (forall i, (i < idx)%nat -> nth i a 0 < v) /\
  (forall i, (idx <= i < length a)%nat -> v <= nth i a 0).
Proof.
  intros Hmono.
  destruct (nondecreasing_split a v (length a) Hmono (Nat.le_refl _))
    as (idx & Hidx & Hlow & Hhigh).
  rewrite (searchsorted_spec a v idx Hidx Hlow Hhigh). cbv zeta.
  repeat split; auto.
  intros i Hi. specialize (Hhigh i Hi). lra.
Qed.

(** X9.  [exit_decision] has two outcomes.  When the insertion index of 0
    in [avg_VF] is past the grid it raises [IndexError].  Otherwise it
    returns a grid point as the cutoff and a policy of zeros and ones, as
    long as the grid, that marks exactly the states below the cutoff; the
    state at the index itself stays, so no returned policy has every firm
    exit. *)
Theorem exit_decision_cases self VF :
  let idx := searchsorted (mat_vec (pi self) VF) 0 in
  (idx <= length (pi self))%nat /\
  ((length (grid_z self) <= idx)%nat /\
   exit_decision self VF = Raise IndexError
   \/
   (idx < length (grid_z self))%nat /\
   exists pol_exit,
     exit_decision self VF = Return (nth idx (grid_z self) 0, pol_exit) /\
     length pol_exit = length (grid_z self) /\
     (forall i, (i < length (grid_z self))%nat ->
        (nth i pol_exit 0%Z = 1%Z \/ nth i pol_exit 0%Z = 0%Z) /\
        (nth i pol_exit 0%Z = 1%Z <->
         nth i (grid_z self) 0 < nth idx (grid_z self) 0)) /\
     nth idx pol_exit 0%Z = 0%Z).
Proof.
  cbv zeta. unfold exit_decision.
  set (idx := searchsorted (mat_vec (pi self) VF) 0).
  split.
  { unfold idx, searchsorted.
    pose proof (binsearch_range (mat_vec (pi self) VF) 0
                  (length (mat_vec (pi self) VF)) 0
                  (length (mat_vec (pi self) VF)) (Nat.le_0_l _)) as H.
    rewrite mat_vec_length in *. lia. }
  destruct (le_lt_dec (length (grid_z self)) idx) as [Hout|Hin].
  - left. split; [exact Hout|].
    rewrite (getitem_past_end _ _ Hout). reflexivity.
  - right. split; [exact Hin|].
    unfold getitem.
    rewrite (nth_error_nth' (grid_z self) 0 Hin). cbn [bind].
    eexists. split; [reflexivity|].
    split; [unfold where_1_0; apply length_map|].
    split.
    + intros i Hi. rewrite where_1_0_nth by exact Hi.
      destruct (Rlt_dec (nth i (grid_z self) 0) (nth idx (grid_z self) 0));
        split; auto; split; intros; auto; try discriminate; contradiction.
    + rewrite where_1_0_nth by exact Hin.
      destruct (Rlt_dec (nth idx (grid_z self) 0) (nth idx (grid_z self) 0));
        [lra|reflexivity].
Qed.

Lemma price_loop_assigns self n :
  forall pmin pmax price,
    exists q, price_loop self (S n) pmin pmax price = Some q.
Proof.
  induction n as [|n IH]; intros pmin pmax price;
    rewrite price_loop_step;
    destruct (Rlt_dec _ (tol self)); try (eexists; reflexivity);
    destruct (Rlt_dec _ (ce self)); try apply IH; eexists; reflexivity.
Qed.

(** X10.  When [solve_firm] returns a price: with [maxit = 0] the loop
    body never runs and the local [price] is returned unbound
    ([UnboundLocalError]); with a positive [maxit], and [theta <> 1] so
    that the exponent [1 / (1 - theta)] of [incumbent_firm] is defined, it
    returns a price, whether or not the search converged. *)
Theorem solve_firm_unbound_price self :
  (maxit self = 0%nat -> solve_firm self = Raise UnboundLocalError) /\
  (maxit self <> 0%nat -> theta self <> 1 ->
   exists price, solve_firm self = Return price).
Proof.
  unfold solve_firm. split.
  - intros ->. reflexivity.
  - intros Hne _. destruct (maxit self) as [|n]; [congruence|].
    destruct (price_loop_assigns self n 0.01 100 None) as (q & ->).
    exists q. reflexivity.
Qed.

(** ** Further properties: the stationary distribution *)

Lemma sum_vsub a : forall b,
  length a = length b -> sum (vsub a b) = sum a - sum b.
Proof.
  unfold sum, vsub.
  induction a as [|x a IH]; intros [|y b] Hlen; simpl in *;
    try discriminate; [ring|].
  rewrite IH by lia. ring.
Qed.

Lemma sum_map_add {A : Type} (f g : A -> R) l :
  sum (map (fun j => f j + g j) l) = sum (map f l) + sum (map g l).
Proof.
  unfold sum. induction l as [|a l IH]; simpl; [ring|]. rewrite IH. ring.
Qed.

Lemma sum_map_scale {A : Type} (c : R) (f : A -> R) l :
  sum (map (fun j => f j * c) l) = c * sum (map f l).
Proof.
  unfold sum. induction l as [|a l IH]; simpl; [ring|]. rewrite IH. ring.
Qed.

Lemma sum_map_zero {A : Type} (l : list A) : sum (map (fun _ => 0) l) = 0.
Proof.
  unfold sum. induction l as [|a l IH]; simpl; [ring|]. rewrite IH. ring.
Qed.

Lemma sum_scale c v : sum (scale c v) = c * sum v.
Proof.
  unfold sum, scale. induction v as [|x v IH]; simpl; [ring|].
  rewrite IH. ring.
Qed.

Lemma sum_cols n M :
  Forall (fun row => length row = n) M ->
  forall w, sum (map (fun j => dot (col j M) w) (seq 0 n))
            = dot (map sum M) w.
Proof.
  intros HM. induction HM as [|row M Hrow _ IH]; intros w.
  - simpl. apply sum_map_zero.
  - destruct w as [|x w].
    + simpl. apply sum_map_zero.
    + change (sum (map (fun j => nth j row 0 * x + dot (col j M) w)
                       (seq 0 n))
              = sum row * x + dot (map sum M) w).
      rewrite (sum_map_add (fun j => nth j row 0 * x)
                           (fun j => dot (col j M) w)).
      rewrite sum_map_scale, IH. rewrite <- Hrow, map_nth_seq_id. ring.
Qed.

(** Summing the entries of [M.T . w] weighs each row sum of [M] by the
    entry of [w]. *)
Lemma sum_transpose_vec n M :
  Forall (fun row => length row = n) M ->
  forall w, sum (mat_vec (transpose n M) w) = dot (map sum M) w.
Proof.
  intros HM w. unfold mat_vec, transpose. rewrite map_map.
  apply sum_cols. exact HM.
Qed.

Lemma staying_rows n A : forall pol_exit,
  Forall (fun row => Forall (fun x => 0 <= x) row /\ sum row = 1) A ->
  Forall (fun row => length row = n) A ->
  length A = length pol_exit ->
  Forall (fun row => length row = n)
         (zip_with (fun row (e : Z) => map (fun x => x * IZR (1 - e)) row)
                   A pol_exit) /\
  map sum (zip_with (fun row (e : Z) => map (fun x => x * IZR (1 - e)) row)
                    A pol_exit)
  = map (fun e => 1 - IZR e) pol_exit.
Proof.
  induction A as [|row A IH]; intros [|e pol] Hp Hl Hlen;
    cbn [zip_with map length] in *;
    try discriminate; [split; [constructor|reflexivity]|].
  destruct (IH pol (Forall_inv_tail Hp) (Forall_inv_tail Hl) ltac:(lia))
    as [IH1 IH2].
  split.
  - constructor; [|exact IH1]. rewrite length_map.
    exact (Forall_inv Hl).
  - f_equal; [|exact IH2].
    destruct (Forall_inv Hp) as [_ Hs]. simpl in Hs.
    rewrite <- (map_id row) in Hs.
    change (map (fun x => x * IZR (1 - e)) row)
      with (map (fun x => (fun y => y) x * IZR (1 - e)) row).
    rewrite sum_map_scale, Hs, minus_IZR. ring.
Qed.

Lemma dot_staying pol_exit : forall w,
  length pol_exit = length w ->
  dot (map (fun e => 1 - IZR e) pol_exit) w
  = sum w - dot (map IZR pol_exit) w.
Proof.
  unfold sum. induction pol_exit as [|e pol IH]; intros [|x w] Hlen;
    simpl in *; try discriminate; [ring|].
  rewrite IH by lia. ring.
Qed.

(** The entries of [(I - pi_tilde) . w] sum to the mass of [w] in the
    states that exit. *)
Lemma exit_mass self pol_exit w :
  transition_matrix (Nz self) (pi self) ->
  length pol_exit = Nz self -> length w = Nz self ->
  sum (mat_vec (msub (eye (Nz self)) (pi_tilde self pol_exit)) w)
  = dot (map IZR pol_exit) w.
Proof.
  intros [[Hlen Hrows] Hp] Hpol Hw.
  pose proof (pi_tilde_square self pol_exit Hlen Hpol) as HT.
  rewrite (mat_vec_msub (Nz self)) by (auto using eye_square).
  rewrite sum_vsub
    by (rewrite !mat_vec_length, (proj1 (eye_square _)), (proj1 HT);
        reflexivity).
  rewrite <- Hw at 1. rewrite eye_vec.
  destruct (staying_rows (Nz self) (pi self) pol_exit Hp Hrows
              ltac:(unfold vec in *; lia)) as [Hl Hs].
  unfold pi_tilde. rewrite (sum_transpose_vec _ _ Hl), Hs.
  rewrite dot_staying by lia. ring.
Qed.

Lemma la_inv_return A B :
  la_inv A = Return B -> inverse_of (length A) A B.
Proof.
  intros Hret.
  destruct (classic (invertible A)) as [Hinv|Hsing].
  - destruct (la_inv_invertible A Hinv) as (B' & Hret' & Hinverse).
    congruence.
  - rewrite (la_inv_singular A Hsing) in Hret. discriminate.
Qed.

Lemma invariant_distribution_exit_mass self m pol_exit distrib :
  transition_matrix (Nz self) (pi self) ->
  length (nu self) = Nz self -> length pol_exit = Nz self ->
  solve_invariant_distribution self m pol_exit = Return distrib ->
  length distrib = Nz self /\
  dot (map IZR pol_exit) distrib = m * sum (nu self).
Proof.
  intros Hpi Hnu Hpol Hret. unfold solve_invariant_distribution in Hret.
  destruct (la_inv (msub (eye (Nz self)) (pi_tilde self pol_exit)))
    as [inv|e] eqn:Hinv; [|discriminate].
  cbn [bind] in Hret. injection Hret as <-.
  apply la_inv_return in Hinv.
  pose proof (pi_tilde_square self pol_exit (proj1 (proj1 Hpi)) Hpol) as HT.
  pose proof (msub_square _ _ _ (eye_square (Nz self)) HT) as HA.
  rewrite (proj1 HA) in Hinv.
  destruct (invariant_distribution_fixed_point self pol_exit inv m
              (proj1 Hpi) Hnu Hpol Hinv) as (Hlen & Hfix & _).
  split; [exact Hlen|].
  rewrite <- (exit_mass self pol_exit _ Hpi Hpol Hlen).
  rewrite Hfix. apply sum_scale.
Qed.



Lemma dot_no_exit n : forall w, dot (map IZR (repeat 0%Z n)) w = 0.
Proof.
  induction n as [|n IH]; intros [|x w]; simpl; auto.
  rewrite IH. ring.
Qed.

Lemma sum_unit n : sum (1 :: zeros n) = 1.
Proof.
  unfold sum, zeros. simpl.
  induction n as [|n IH]; simpl; [ring|]. lra.
Qed.

Lemma eye_vec_n n v : length v = n -> mat_vec (eye n) v = v.
Proof. intros <-. apply eye_vec. Qed.

(** X12.  Without exit there is no stationary distribution: over a
    transition matrix, when [pol_exit] is zero at every state the columns
    of [I - pi_tilde] sum to zero, so the entries of [(I - pi_tilde) . w]
    sum to zero for every [w]; the matrix has no inverse, and the system
    [(I - pi_tilde) . x = m * nu] that [solve_invariant_distribution]
    solves has no solution when the entrant mass [m * sum nu] is not
    zero. *)
Theorem no_exit_no_invariant_distribution self :
  transition_matrix (Nz self) (pi self) -> (0 < Nz self)%nat ->
  let A := msub (eye (Nz self)) (pi_tilde self (repeat 0%Z (Nz self))) in
  (forall w, length w = Nz self -> sum (mat_vec A w) = 0) /\
  ~ invertible A /\
  (forall m x, length x = Nz self -> m * sum (nu self) <> 0 ->
               mat_vec A x <> scale m (nu self)).
Proof.
  intros Hpi Hn. cbv zeta.
  assert (Hcols : forall w, length w = Nz self ->
            sum (mat_vec (msub (eye (Nz self))
                               (pi_tilde self (repeat 0%Z (Nz self)))) w)
            = 0).
  { intros w Hw.
    rewrite (exit_mass self (repeat 0%Z (Nz self)) w Hpi (repeat_length _ _)
               Hw).
    apply dot_no_exit. }
  split; [exact Hcols|]. split.
  - intros [B Hinverse].
    pose proof (pi_tilde_square self (repeat 0%Z (Nz self))
                  (proj1 (proj1 Hpi)) (repeat_length _ _)) as HT.
    pose proof (msub_square _ _ _ (eye_square (Nz self)) HT) as HA.
    rewrite (proj1 HA) in Hinverse.
    destruct Hinverse as (_ & HB & HAB & _).
    set (v := 1 :: zeros (Nz self - 1)).
    assert (Hv : length v = Nz self).
    { unfold v, zeros. simpl. rewrite repeat_length. lia. }
    pose proof (mat_mul_vec (Nz self)
                  (msub (eye (Nz self))
                        (pi_tilde self (repeat 0%Z (Nz self))))
                  B v (proj2 HB)) as Hmul.
    rewrite HAB, (eye_vec_n _ _ Hv) in Hmul.
    pose proof (f_equal sum Hmul) as Hsum.
    rewrite Hcols in Hsum
      by (rewrite mat_vec_length; exact (proj1 HB)).
    unfold v in Hsum. rewrite sum_unit in Hsum. lra.
  - intros m x Hx Hmass Heq.
    pose proof (f_equal sum Heq) as Hsum.
    rewrite (Hcols x Hx), sum_scale in Hsum. lra.
Qed.

Lemma no_exit_no_invariant_distribution_witness :
  let A :=
    msub (eye (Nz persistent))
         (pi_tilde persistent (repeat 0%Z (Nz persistent))) in
  (forall w, length w = Nz persistent -> sum (mat_vec A w) = 0) /\
  ~ invertible A /\
  (forall m x, length x = Nz persistent -> m * sum (nu persistent) <> 0 ->
               mat_vec A x <> scale m (nu persistent)).
Proof.
  apply (no_exit_no_invariant_distribution persistent).
  - exact persistent_transition_matrix.
  - change (Nz persistent) with 2%nat. lia.
Defined.

(** ** The run of [solve_model] on [one_pass] *)

Lemma solve_firm_one_iteration self :
  maxit self = 1%nat -> solve_firm self = Return ((0.01 + 100) / 2).
Proof.
  intros Hmax. unfold solve_firm. rewrite Hmax, price_loop_step.
  unfold midpoint. cbn [price_loop].
  destruct (Rlt_dec _ (tol self)); [reflexivity|].
  destruct (Rlt_dec _ (ce self)); reflexivity.
Qed.

Lemma solve_vf_one_iteration self price :
  maxit self = 1%nat -> length (grid_z self) = Nz self ->
  length (pi self) = Nz self ->
  solve_vf self price
  = let '(firm_profit, firm_output, pol_n) := incumbent_firm self price in
    (firm_profit, firm_profit, firm_output, pol_n).
Proof.
  intros Hmax Hgrid Hpi. unfold solve_vf. rewrite Hmax.
  pose proof (incumbent_firm_lengths self price Hgrid) as Hlens.
  destruct (incumbent_firm self price) as [[fp fo] pn].
  cbn [vf_loop].
  rewrite vf_update_no_continuation.
  - destruct (Rlt_dec _ (tol self)); reflexivity.
  - destruct Hlens as [H _]. unfold vec in *. lia.
  - apply Forall_forall. intros row _. rewrite dot_zeros. lra.
Qed.

Lemma exp_1_above : 2.25 < exp 1.
Proof.
  pose proof (exp_ineq1 (1 / 2) ltac:(lra)) as H.
  replace 1 with (1 / 2 + 1 / 2) by field. rewrite exp_plus. nra.
Qed.

Lemma exp_1_cube : 11 < exp 1 ^ 3 <= 27.
Proof.
  pose proof exp_1_above as Hlo. pose proof exp_1_bounds as [_ Hhi].
  assert (H2 : 5 < exp 1 * exp 1 <= 9) by (split; nra).
  replace (exp 1 ^ 3) with (exp 1 * exp 1 * exp 1) by ring.
  split; nra.
Qed.

Lemma one_pass_exit_decision V0 V1 :
  3 * V0 + V1 < 0 -> 0 <= V0 + 3 * V1 ->
  exit_decision one_pass [V0; V1] = Return (exp 1, [1%Z; 0%Z]).
Proof.
  intros H0 H1. unfold exit_decision.
  change (pi one_pass) with [[3 / 4; 1 / 4]; [1 / 4; 3 / 4]].
  change (grid_z one_pass) with [exp 0; exp 1].
  rewrite (searchsorted_spec _ 0 1).
  - cbn [getitem nth_error bind where_1_0 map].
    pose proof (exp_increasing 0 1 ltac:(lra)).
    destruct (Rlt_dec (exp 0) (exp 1)); [|lra].
    destruct (Rlt_dec (exp 1) (exp 1)); [lra|reflexivity].
  - simpl. lia.
  - intros i Hi. assert (i = 0%nat) as -> by lia. simpl. lra.
  - intros i Hi. simpl in Hi. assert (i = 1%nat) as -> by lia. simpl. lra.
Qed.

Lemma one_pass_price_cube : 125037 < one_pass_price ^ 3 < 125038.
Proof. unfold one_pass_price. lra. Qed.

Lemma one_pass_incumbent_firm :
  incumbent_firm one_pass one_pass_price
  = ([4 / 27 * one_pass_price ^ 3 - 150000;
      4 / 27 * (one_pass_price * exp 1) ^ 3 - 150000],
     [(2 / 3 * one_pass_price) ^ 2;
      exp 1 * (2 / 3 * one_pass_price * exp 1) ^ 2],
     [(2 / 3 * one_pass_price) ^ 3;
      (2 / 3 * one_pass_price * exp 1) ^ 3]).
Proof.
  apply (two_state_incumbent_firm one_pass one_pass_price);
    try reflexivity.
  unfold one_pass_price. lra.
Qed.

Lemma one_pass_distribution_0 :
  solve_invariant_distribution one_pass 1 [1%Z; 0%Z] = Return [1; 2].
Proof. exact persistent_distribution_0. Qed.

Lemma solve_model_one_pass : solve_model one_pass = Return one_pass_solution.
Proof.
  unfold solve_model, one_pass_solution.
  rewrite (solve_firm_one_iteration one_pass eq_refl). cbn [bind].
  fold one_pass_price.
  rewrite (solve_vf_one_iteration one_pass one_pass_price eq_refl eq_refl
             eq_refl).
  rewrite one_pass_incumbent_firm.
  rewrite one_pass_exit_decision.
  - cbn [bind]. unfold stationary_steps.
    rewrite one_pass_distribution_0. cbn [bind]. reflexivity.
  - pose proof one_pass_price_cube as Hp.
    pose proof exp_1_cube as He.
    replace ((one_pass_price * exp 1) ^ 3)
      with (one_pass_price ^ 3 * exp 1 ^ 3) by ring.
    nra.
  - pose proof one_pass_price_cube as Hp.
    pose proof exp_1_cube as He.
    replace ((one_pass_price * exp 1) ^ 3)
      with (one_pass_price ^ 3 * exp 1 ^ 3) by ring.
    nra.
Qed.

(** ** Further properties: interpolation *)

Lemma getitem_nth {A : Type} (a : list A) i d :
  (i < length a)%nat -> getitem a i = Return (nth i a d).
Proof.
  intros Hi. unfold getitem. rewrite (nth_error_nth' a d Hi). reflexivity.
Qed.

Lemma pyindex_nonneg {A : Type} (a : list A) i d :
  (i < length a)%nat -> pyindex a (Z.of_nat i) = Return (nth i a d).
Proof.
  intros Hi. unfold pyindex.
  destruct (Z.leb_spec 0 (Z.of_nat i)) as [_|Hneg]; [|lia].
  rewrite Nat2Z.id. apply getitem_nth. exact Hi.
Qed.

Lemma pyindex_from_end {A : Type} (a : list A) k d :
  (0 < k <= length a)%nat ->
  pyindex a (- Z.of_nat k) = Return (nth (length a - k) a d).
Proof.
  intros Hk. unfold pyindex.
  destruct (Z.leb_spec 0 (- Z.of_nat k)) as [Hpos|_]; [lia|].
  destruct (Z.leb_spec (- Z.of_nat (length a)) (- Z.of_nat k)) as [_|Hout];
    [|lia].
  replace (Z.to_nat (Z.of_nat (length a) + - Z.of_nat k))
    with (length a - k)%nat by lia.
  apply getitem_nth. lia.
Qed.

Lemma pyindex_outside {A : Type} (a : list A) k :
  (k < - Z.of_nat (length a) \/ Z.of_nat (length a) <= k)%Z ->
  pyindex a k = Raise IndexError.
Proof.
  intros Hk. unfold pyindex.
  destruct (Z.leb_spec 0 k) as [Hpos|Hneg].
  - apply getitem_past_end. lia.
  - destruct (Z.leb_spec (- Z.of_nat (length a)) k) as [Hin|_];
      [lia|reflexivity].
Qed.

Lemma pyindex_cases {A : Type} (a : list A) k :
  pyindex a k = Raise IndexError \/ exists v, pyindex a k = Return v.
Proof.
  unfold pyindex, getitem.
  destruct (0 <=? k)%Z.
  - destruct (nth_error a (Z.to_nat k)); eauto.
  - destruct (- Z.of_nat (length a) <=? k)%Z; auto.
    destruct (nth_error a _); eauto.
Qed.

Lemma binsearch_right_range a v fuel :
  forall min_idx max_idx,
    (min_idx <= max_idx)%nat ->
    (min_idx <= binsearch_right fuel a v min_idx max_idx <= max_idx)%nat.
Proof.
  induction fuel as [|fuel IH]; intros lo hi Hle; cbn [binsearch_right];
    [lia|].
  destruct (Nat.ltb_spec lo hi) as [Hlt|Hge]; [|lia].
  assert (Hhalf : ((hi - lo) / 2 < hi - lo)%nat)
    by (apply Nat.div_lt; lia).
  destruct (Rlt_dec v (nth (lo + (hi - lo) / 2) a 0)).
  - specialize (IH lo (lo + (hi - lo) / 2)%nat). lia.
  - specialize (IH (S (lo + (hi - lo) / 2)) hi). lia.
Qed.

Lemma binsearch_right_spec a v idx :
  (forall i, (i < idx)%nat -> ~ v < nth i a 0) ->
  (forall i, (idx <= i < length a)%nat -> v < nth i a 0) ->
  forall fuel min_idx max_idx,
    (min_idx <= idx <= max_idx)%nat -> (max_idx <= length a)%nat ->
    (max_idx - min_idx <= fuel)%nat ->
    binsearch_right fuel a v min_idx max_idx = idx.
Proof.
  intros Hlow Hhigh.
  induction fuel as [|fuel IH]; intros lo hi Hidx Hhi Hfuel;
    cbn [binsearch_right].
  - lia.
  - destruct (Nat.ltb_spec lo hi) as [Hlt|Hge]; [|lia].
    assert (Hhalf : ((hi - lo) / 2 < hi - lo)%nat)
      by (apply Nat.div_lt; lia).
    set (mid := (lo + (hi - lo) / 2)%nat) in *.
    destruct (Rlt_dec v (nth mid a 0)) as [Hlt'|Hge'].
    + destruct (le_lt_dec idx mid) as [Hle|Hgt].
      * apply IH; unfold mid in *; lia.
      * exfalso. exact (Hlow mid Hgt Hlt').
    + destruct (le_lt_dec idx mid) as [Hle|Hgt].
      * exfalso. apply Hge', Hhigh. unfold mid in *. lia.
      * apply IH; unfold mid in *; lia.
Qed.

Lemma nondecreasing_split_right a v n :
  nondecreasing a -> (n <= length a)%nat ->
  exists idx, (idx <= n)%nat /\
    (forall i, (i < idx)%nat -> ~ v < nth i a 0) /\
    (forall i, (idx <= i < n)%nat -> v < nth i a 0).
Proof.
  intros Hmono. induction n as [|n IH]; intros Hn.
  - exists 0%nat. repeat split; intros; lia.
  - destruct IH as (idx & Hidx & Hlow & Hhigh); [lia|].
    destruct (Nat.eq_dec idx n) as [->|Hne].
    + destruct (Rlt_dec v (nth n a 0)) as [Hlt|Hge].
      * exists n. repeat split; [lia|exact Hlow|].
        intros i Hi. assert (i = n) as -> by lia. exact Hlt.
      * exists (S n). repeat split; [lia| |intros; lia].
        intros i Hi. destruct (Nat.eq_dec i n) as [->|]; [exact Hge|].
        apply Hlow. lia.
    + exists idx. repeat split; [lia|exact Hlow|].
      intros i Hi. destruct (Nat.eq_dec i n) as [->|]; [|apply Hhigh; lia].
      pose proof (Hhigh idx ltac:(lia)) as Hidx'.
      pose proof (Hmono idx n ltac:(lia)). lra.
Qed.

(** On a non-decreasing array the binary search of
    [np.searchsorted(a, v, side='right')] returns the insertion point after
    the entries equal to [v]: every entry before it is at most [v] and every
    entry from it on is above [v]. *)
Lemma searchsorted_right_insertion_point a v :
  nondecreasing a ->
  let idx := searchsorted_right a v in
  (idx <= length a)%nat /\
  (forall i, (i < idx)%nat -> nth i a 0 <= v) /\
  (forall i, (idx <= i < length a)%nat -> v < nth i a 0).
Proof.
  intros Hmono.
  destruct (nondecreasing_split_right a v (length a) Hmono (Nat.le_refl _))
    as (idx & Hidx & Hlow & Hhigh).
  unfold searchsorted_right.
  rewrite (binsearch_right_spec a v idx Hlow Hhigh) by lia. cbv zeta.
  repeat split; auto.
  intros i Hi. specialize (Hlow i Hi). lra.
Qed.

(** The index [interpol] computes, as a natural number. *)
Lemma interpol_index x x1 :
  (2 <= length x)%nat ->
  exists i, (1 <= i <= length x - 1)%nat /\
    i = Nat.min (Nat.max (searchsorted_right x x1) 1) (length x - 1) /\
    Z.min (Z.max (Z.of_nat (searchsorted_right x x1)) 1)
          (Z.of_nat (length x) - 1) = Z.of_nat i.
Proof.
  intros Hx. eexists. split; [|split; [reflexivity|]]; lia.
Qed.

(** [interpol] on arrays of equal length, two entries or more. *)
Lemma interpol_eval x y x1 :
  (2 <= length x)%nat -> length y = length x ->
  let N := length x in
  let i := Nat.min (Nat.max (searchsorted_right x x1) 1) (N - 1) in
  interpol x y x1
  = Return
      (if Rlt_dec x1 (nth 0 x 0) then nth 0 y 0
       else if Rgt_dec x1 (nth (N - 1) x 0)
            then nth (N - 1) y 0
                 + (x1 - nth (N - 1) x 0)
                   * (nth (N - 1) y 0 - nth (N - 2) y 0)
                   / (nth (N - 1) x 0 - nth (N - 2) x 0)
            else nth (i - 1) y 0
                 + (nth i y 0 - nth (i - 1) y 0)
                   / (nth i x 0 - nth (i - 1) x 0)
                   * (x1 - nth (i - 1) x 0),
       Z.of_nat i).
Proof.
  intros Hx Hy. cbv zeta.
  destruct (interpol_index x x1 Hx) as (i & Hi & <- & HZ).
  unfold interpol. rewrite HZ.
  replace (Z.of_nat i - 1)%Z with (Z.of_nat (i - 1)) by lia.
  rewrite (pyindex_nonneg x (i - 1) 0) by lia. cbn [bind].
  rewrite (pyindex_nonneg x i 0) by lia. cbn [bind].
  rewrite (pyindex_nonneg y (i - 1) 0) by lia. cbn [bind].
  rewrite (pyindex_nonneg y i 0) by lia. cbn [bind].
  change (-1)%Z with (- Z.of_nat 1)%Z. change (-2)%Z with (- Z.of_nat 2)%Z.
  rewrite (pyindex_from_end x 1 0) by lia. cbn [bind].
  change 0%Z with (Z.of_nat 0).
  rewrite (pyindex_nonneg x 0 0) by lia. cbn [bind].
  rewrite (pyindex_from_end y 1 0) by lia. cbn [bind].
  rewrite (pyindex_from_end y 2 0) by lia. cbn [bind].
  rewrite (pyindex_from_end x 2 0) by lia. cbn [bind].
  rewrite (pyindex_nonneg y 0 0) by lia. cbn [bind].
  rewrite Hy. reflexivity.
Qed.

(** X13.  [interpol] needs two grid points: on an [x] with fewer it raises
    [IndexError] whatever [y] is (the look-ups [x\[-2\]], [y\[-2\]] of the
    extrapolation are evaluated every time); on arrays of equal length with
    two entries or more it returns a value and an index [i] with
    [1 <= i <= len(x) - 1]. *)
Theorem interpol_needs_two_points x y x1 :
  ((length x < 2)%nat -> interpol x y x1 = Raise IndexError) /\
  ((2 <= length x)%nat -> length y = length x ->
   exists y1 i, interpol x y x1 = Return (y1, i) /\
                (1 <= i <= Z.of_nat (length x) - 1)%Z).
Proof.
  split.
  - intros Hx. unfold interpol.
    assert (Hbefore : pyindex x (-2) = Raise IndexError)
      by (apply pyindex_outside; lia).
    repeat match goal with
           | |- bind (pyindex x (-2)) _ = _ =>
               rewrite Hbefore; reflexivity
           | |- bind (pyindex ?a ?k) _ = _ =>
               destruct (pyindex_cases a k) as [-> | [? ->]];
               [reflexivity|cbn [bind]]
           end.
  - intros Hx Hy. rewrite (interpol_eval x y x1 Hx Hy).
    do 2 eexists. split; [reflexivity|]. lia.
Qed.

Lemma increasing_nondecreasing v : increasing v -> nondecreasing v.
Proof.
  intros Hinc i j Hij. destruct (Nat.eq_dec i j) as [->|Hne]; [lra|].
  apply Rlt_le, Hinc. lia.
Qed.

(** X14.  On a strictly increasing [x] with two entries or more and a [y]
    of the same length, [interpol] is piecewise-linear interpolation: it
    returns [y\[0\]] below [x\[0\]], the line through the last two points
    above [x\[-1\]], and in between the line through the neighbours
    [x\[i-1\] <= x1 <= x\[i\]] of [x1]; at a grid point [x\[k\]] it returns
    [y\[k\]]. *)
Theorem interpol_piecewise_linear x y x1 :
  (2 <= length x)%nat -> length y = length x -> increasing x ->
  let N := length x in
  exists y1 i,
    interpol x y x1 = Return (y1, Z.of_nat i) /\
    (1 <= i <= N - 1)%nat /\
    (x1 < nth 0 x 0 -> y1 = nth 0 y 0) /\
    (nth (N - 1) x 0 < x1 ->
     y1 = nth (N - 1) y 0
          + (x1 - nth (N - 1) x 0) * (nth (N - 1) y 0 - nth (N - 2) y 0)
            / (nth (N - 1) x 0 - nth (N - 2) x 0)) /\
    (nth 0 x 0 <= x1 <= nth (N - 1) x 0 ->
     nth (i - 1) x 0 <= x1 <= nth i x 0 /\
     y1 = nth (i - 1) y 0
          + (nth i y 0 - nth (i - 1) y 0) / (nth i x 0 - nth (i - 1) x 0)
            * (x1 - nth (i - 1) x 0)) /\
    (forall k, (k < N)%nat -> x1 = nth k x 0 -> y1 = nth k y 0).
Proof.
  intros Hx Hy Hinc. cbv zeta.
  rewrite (interpol_eval x y x1 Hx Hy). cbv zeta.
  destruct (searchsorted_right_insertion_point x x1
              (increasing_nondecreasing x Hinc)) as (Hs & Hlow & Hhigh).
  set (s := searchsorted_right x x1) in *.
  remember (Nat.min (Nat.max s 1) (length x - 1)) as i eqn:Ei.
  assert (Hi : (1 <= i <= length x - 1)%nat) by lia.
  assert (Hends : nth 0 x 0 < nth (length x - 1) x 0)
    by (apply Hinc; lia).
  assert (Hbracket : nth 0 x 0 <= x1 <= nth (length x - 1) x 0 ->
                     nth (i - 1) x 0 <= x1 <= nth i x 0).
  { intros [H0 HN].
    assert (Hs1 : (1 <= s)%nat).
    { destruct (Nat.eq_dec s 0) as [Hs0|]; [|lia].
      specialize (Hhigh 0%nat ltac:(lia)). lra. }
    destruct (le_lt_dec s (length x - 1)) as [Hle|Hgt].
    - assert (Heq : i = s) by lia. rewrite Heq.
      split; [apply Hlow; lia|apply Rlt_le, Hhigh; lia].
    - assert (Heq : i = (length x - 1)%nat) by lia. rewrite Heq.
      split; [apply Hlow; lia|exact HN]. }
  assert (Hstep : nth (i - 1) x 0 < nth i x 0) by (apply Hinc; lia).
  do 2 eexists. split; [reflexivity|]. split; [exact Hi|].
  split; [|split; [|split]].
  - intros Hbelow. destruct (Rlt_dec x1 (nth 0 x 0)); [reflexivity|lra].
  - intros Habove. destruct (Rlt_dec x1 (nth 0 x 0)); [lra|].
    destruct (Rgt_dec x1 (nth (length x - 1) x 0)); [reflexivity|lra].
  - intros Hin. split; [exact (Hbracket Hin)|].
    destruct (Rlt_dec x1 (nth 0 x 0)); [lra|].
    destruct (Rgt_dec x1 (nth (length x - 1) x 0)); [lra|reflexivity].
  - intros k Hk ->.
    assert (H0 : nth 0 x 0 <= nth k x 0)
      by (apply (increasing_nondecreasing x Hinc); lia).
    assert (HN : nth k x 0 <= nth (length x - 1) x 0)
      by (apply (increasing_nondecreasing x Hinc); lia).
    destruct (Rlt_dec (nth k x 0) (nth 0 x 0)); [lra|].
    destruct (Rgt_dec (nth k x 0) (nth (length x - 1) x 0)); [lra|].
    destruct (Hbracket (conj H0 HN)) as [Hl Hr].
    assert (Hk' : k = (i - 1)%nat \/ k = i).
    { destruct (lt_eq_lt_dec k (i - 1)) as [[Hlt|Heq]|Hgt]; [|auto|].
      - pose proof (Hinc k (i - 1)%nat ltac:(lia)). lra.
      - destruct (lt_eq_lt_dec k i) as [[Hlt|Heq]|Hgt']; [lia|auto|].
        pose proof (Hinc i k ltac:(lia)). lra. }
    destruct Hk' as [-> | ->]; field; lra.
Qed.

Lemma interpol_piecewise_linear_witness :
  let N := length ([10; 1000]%R) in
  exists y1 i,
    interpol [10; 1000] [1 / 2; 1] 20 = Return (y1, Z.of_nat i) /\
    (1 <= i <= N - 1)%nat /\
    (20 < nth 0 [10; 1000] 0 -> y1 = nth 0 [1 / 2; 1] 0) /\
    (nth (N - 1) [10; 1000] 0 < 20 ->
     y1 = nth (N - 1) [1 / 2; 1] 0
          + (20 - nth (N - 1) [10; 1000] 0)
            * (nth (N - 1) [1 / 2; 1] 0 - nth (N - 2) [1 / 2; 1] 0)
            / (nth (N - 1) [10; 1000] 0 - nth (N - 2) [10; 1000] 0)) /\
    (nth 0 [10; 1000] 0 <= 20 <= nth (N - 1) [10; 1000] 0 ->
     nth (i - 1) [10; 1000] 0 <= 20 <= nth i [10; 1000] 0 /\
     y1 = nth (i - 1) [1 / 2; 1] 0
          + (nth i [1 / 2; 1] 0 - nth (i - 1) [1 / 2; 1] 0)
            / (nth i [10; 1000] 0 - nth (i - 1) [10; 1000] 0)
            * (20 - nth (i - 1) [10; 1000] 0)) /\
    (forall k, (k < N)%nat -> 20 = nth k [10; 1000] 0 ->
               y1 = nth k [1 / 2; 1] 0).
Proof.
  apply (interpol_piecewise_linear [10; 1000] [1 / 2; 1] 20).
  - simpl. lia.
  - reflexivity.
  - intros i j Hij. simpl in Hij.
    assert (i = 0%nat /\ j = 1%nat) as [-> ->] by lia. simpl. lra.
Defined.

(** ** Further properties: what [solve_model] leaves on [self] *)

(** The steps of a run of [solve_model] that returns. *)
Lemma solve_model_inv self S :
  solve_model self = Return S ->
  solve_firm self = Return (price_ss S) /\
  solve_vf self (price_ss S)
  = (VF S, firm_profit S, firm_output S, pol_n S) /\
  exit_decision self (VF S) = Return (exit_cutoff S, pol_exit S) /\
  solve_invariant_distribution self 1 (pol_exit S)
  = Return (distrib_stationary_0 S) /\
  distrib_stationary S = scale (m_star S) (distrib_stationary_0 S) /\
  total_mass S = sum (distrib_stationary S) /\
  pdf_stationary S
  = map (fun x => x / total_mass S) (distrib_stationary S) /\
  cdf_stationary S = cumsum (pdf_stationary S) /\
  distrib_emp S
  = map (fun x => x / sum (vmul (pol_n S) (pdf_stationary S)))
        (vmul (pol_n S) (pdf_stationary S)) /\
  pdf_emp S = map (fun x => x / sum (distrib_emp S)) (distrib_emp S) /\
  cdf_emp S = cumsum (pdf_emp S) /\
  total_employment S = dot (pol_n S) (distrib_stationary S) /\
  average_firm_size S = total_employment S / total_mass S /\
  exit_rate S = m_star S / total_mass S.
Proof.
  unfold solve_model. intros H.
  destruct (solve_firm self) as [p|e] eqn:Hfirm; cbn [bind] in H;
    [|discriminate].
  destruct (solve_vf self p) as [[[V fp] fo] pn] eqn:Hvf.
  destruct (exit_decision self V) as [[c pol]|e] eqn:Hexit; cbn [bind] in H;
    [|discriminate].
  unfold stationary_steps in H.
  destruct (solve_invariant_distribution self 1 pol) as [d0|e] eqn:Hinv;
    cbn [bind] in H; [|discriminate].
  injection H as <-.
  cbn [price_ss VF firm_profit firm_output pol_n exit_cutoff pol_exit
       distrib_stationary_0 m_star distrib_stationary total_mass
       pdf_stationary cdf_stationary distrib_emp pdf_emp cdf_emp
       total_employment average_firm_size exit_rate].
  rewrite Hvf, Hexit, Hinv. repeat split; reflexivity.
Qed.

Lemma sum_map_div c v : sum (map (fun x => x / c) v) = sum v / c.
Proof.
  unfold sum. induction v as [|x v IH]; simpl; [unfold Rdiv; ring|].
  rewrite IH. unfold Rdiv. ring.
Qed.

Lemma cumsum_from_last acc v :
  v <> [] -> last (cumsum_from acc v) 0 = acc + sum v.
Proof.
  unfold sum. revert acc. induction v as [|x v IH]; intros acc Hne;
    [congruence|].
  destruct v as [|y v]; [simpl; ring|].
  change (cumsum_from acc (x :: y :: v))
    with ((acc + x) :: cumsum_from (acc + x) (y :: v)).
  change (last ((acc + x) :: cumsum_from (acc + x) (y :: v)) 0)
    with (last (cumsum_from (acc + x) (y :: v)) 0).
  rewrite IH by discriminate. simpl. ring.
Qed.

Lemma cumsum_last v : sum v <> 0 -> last (cumsum v) 0 = sum v.
Proof.
  intros Hne. unfold cumsum. rewrite cumsum_from_last; [ring|].
  intros ->. apply Hne. reflexivity.
Qed.

Lemma sum_vmul u v : sum (vmul u v) = dot u v.
Proof.
  unfold sum, vmul. revert v.
  induction u as [|x u IH]; intros [|y v]; simpl; auto.
  rewrite IH. reflexivity.
Qed.

Lemma dot_map_div u c v : dot u (map (fun x => x / c) v) = dot u v / c.
Proof.
  revert v. induction u as [|x u IH]; intros [|y v]; simpl;
    try (unfold Rdiv; ring).
  rewrite IH. unfold Rdiv. ring.
Qed.

Lemma map_div_one v : map (fun x => x / 1) v = v.
Proof.
  induction v as [|x v IH]; simpl; [reflexivity|].
  rewrite IH. f_equal. field.
Qed.

(** X15.  The distributions [solve_model] reports are normalised: when the
    total mass and total employment are not zero, [pdf_stationary] and
    [distrib_emp] sum to 1, their running sums [cdf_stationary] and
    [cdf_emp] end at 1, and the second normalisation of the employment
    shares changes nothing ([pdf_emp] equals [distrib_emp]). *)
Theorem solve_model_distributions_normalised self S :
  solve_model self = Return S ->
  total_mass S <> 0 -> total_employment S <> 0 ->
  sum (pdf_stationary S) = 1 /\
  last (cdf_stationary S) 0 = 1 /\
  sum (distrib_emp S) = 1 /\
  pdf_emp S = distrib_emp S /\
  last (cdf_emp S) 0 = 1.
Proof.
  intros Hrun Hmass Hemp.
  destruct (solve_model_inv self S Hrun)
    as (_ & _ & _ & _ & _ & Htot & Hpdf & Hcdf & Hdemp & Hpemp & Hcemp
        & Htemp & _).
  assert (H1 : sum (pdf_stationary S) = 1).
  { rewrite Hpdf, sum_map_div, <- Htot. field. exact Hmass. }
  assert (Hden : sum (vmul (pol_n S) (pdf_stationary S)) <> 0).
  { rewrite sum_vmul, Hpdf, dot_map_div, <- Htemp.
    unfold Rdiv. apply Rmult_integral_contrapositive_currified;
      [exact Hemp|apply Rinv_neq_0_compat; exact Hmass]. }
  assert (H2 : sum (distrib_emp S) = 1).
  { rewrite Hdemp, sum_map_div. field. exact Hden. }
  assert (H3 : pdf_emp S = distrib_emp S).
  { rewrite Hpemp, H2. apply map_div_one. }
  split; [exact H1|]. split.
  { rewrite Hcdf, cumsum_last; [exact H1|]. rewrite H1. lra. }
  split; [exact H2|]. split; [exact H3|].
  rewrite Hcemp, H3, cumsum_last; [exact H2|]. rewrite H2. lra.
Qed.

(** The masses of [one_pass_solution]. *)
Lemma one_pass_masses :
  0 < m_star one_pass_solution /\
  total_mass one_pass_solution = 3 * m_star one_pass_solution /\
  0 < total_employment one_pass_solution.
Proof.
  unfold one_pass_solution. rewrite one_pass_incumbent_firm.
  cbn [m_star total_mass total_employment].
  unfold solve_model, solve_m_star.
  change (D one_pass) with 100.
  pose proof (exp_pos 1) as He.
  assert (Hp : 0 < one_pass_price) by (unfold one_pass_price; lra).
  set (fo0 := (2 / 3 * one_pass_price) ^ 2).
  set (fo1 := exp 1 * (2 / 3 * one_pass_price * exp 1) ^ 2).
  set (n0 := (2 / 3 * one_pass_price) ^ 3).
  set (n1 := (2 / 3 * one_pass_price * exp 1) ^ 3).
  assert (H0 : 0 < fo0) by (unfold fo0; apply pow_lt; lra).
  assert (H1 : 0 < fo1)
    by (unfold fo1; apply Rmult_lt_0_compat; [lra|apply pow_lt; nra]).
  assert (Hn0 : 0 < n0) by (unfold n0; apply pow_lt; lra).
  assert (Hn1 : 0 < n1) by (unfold n1; apply pow_lt; nra).
  assert (Hd : 0 < dot [1; 2] [fo0; fo1]) by (simpl; lra).
  set (m := 100 / dot [1; 2] [fo0; fo1]).
  assert (Hm : 0 < m) by (unfold m; apply Rdiv_lt_0_compat; lra).
  split; [exact Hm|]. split.
  - unfold sum, scale. simpl. ring.
  - unfold scale. simpl. nra.
Qed.

Lemma solve_model_distributions_normalised_witness :
  sum (pdf_stationary one_pass_solution) = 1 /\
  last (cdf_stationary one_pass_solution) 0 = 1 /\
  sum (distrib_emp one_pass_solution) = 1 /\
  pdf_emp one_pass_solution = distrib_emp one_pass_solution /\
  last (cdf_emp one_pass_solution) 0 = 1.
Proof.
  apply (solve_model_distributions_normalised one_pass one_pass_solution).
  - exact solve_model_one_pass.
  - destruct one_pass_masses as (Hm & -> & _). lra.
  - destruct one_pass_masses as (_ & _ & He). lra.
Defined.


Lemma exit_decision_length self V cutoff pol :
  exit_decision self V = Return (cutoff, pol) ->
  length pol = length (grid_z self).
Proof.
  unfold exit_decision. intros H.
  destruct (getitem (grid_z self) _) as [c|e]; cbn [bind] in H;
    [|discriminate].
  injection H as _ <-. unfold where_1_0. apply length_map.
Qed.

(** X16.  The rate [solve_model] prints as the entry/exit rate is both:
    over a transition matrix and an entrant distribution [nu] that sums to
    1, [exit_rate], computed as entrants over a total mass that is not
    zero, equals the share of firms of the stationary distribution in the
    states that exit. *)
Theorem exit_rate_is_share_of_exiting_firms self sol :
  solve_model self = Return sol ->
  transition_matrix (Nz self) (pi self) ->
  length (nu self) = Nz self -> length (grid_z self) = Nz self ->
  sum (nu self) = 1 -> total_mass sol <> 0 ->
  exit_rate sol = dot (map IZR (pol_exit sol)) (pdf_stationary sol).
Proof.
  intros Hrun Hpi Hnu Hgrid Hsum _.
  destruct (solve_model_inv self sol Hrun)
    as (_ & _ & Hexit & Hinv & Hds & _ & Hpdf & _ & _ & _ & _ & _ & _
        & Hrate).
  pose proof (exit_decision_length _ _ _ _ Hexit) as Hpol.
  rewrite Hgrid in Hpol.
  destruct (invariant_distribution_exit_mass self 1 _ _ Hpi Hnu Hpol Hinv)
    as [_ Hflow].
  rewrite Hrate, Hpdf, dot_map_div, Hds, dot_scale_r, Hflow, Hsum.
  f_equal. ring.
Qed.

Lemma exit_rate_is_share_of_exiting_firms_witness :
  exit_rate one_pass_solution
  = dot (map IZR (pol_exit one_pass_solution))
        (pdf_stationary one_pass_solution).
Proof.
  apply (exit_rate_is_share_of_exiting_firms one_pass one_pass_solution).
  - exact solve_model_one_pass.
  - exact persistent_transition_matrix.
  - reflexivity.
  - reflexivity.
  - change (nu one_pass) with [1 / 2; 1 / 2]. unfold sum. simpl. lra.
  - destruct one_pass_masses as (Hm & -> & _). lra.
Defined.

(** ** Further properties: the shares of the pie charts *)

Lemma sum_app u v : sum (u ++ v) = sum u + sum v.
Proof.
  unfold sum. induction u as [|x u IH]; simpl; [ring|]. rewrite IH. ring.
Qed.

Lemma sum_zeros n : sum (zeros n) = 0.
Proof.
  unfold sum, zeros. induction n as [|n IH]; simpl; [reflexivity|].
  rewrite IH. ring.
Qed.

Lemma set_item_app pre x rest v :
  set_item (pre ++ x :: rest) (length pre) v = pre ++ v :: rest.
Proof.
  induction pre as [|p pre IH]; simpl; [reflexivity|]. rewrite IH.
  reflexivity.
Qed.

(** The loop over the buckets, started after [pre] has been filled: it
    appends one increment per bucket, and the running sum after each is the
    interpolated value at that bucket. *)
Lemma share_loop_spec x y :
  (forall b, exists F i, interpol x y b = Return (F, i)) ->
  forall buckets pre z,
  exists incs,
    share_loop x y buckets (length pre)
               (pre ++ zeros (length buckets + z))
    = Return (pre ++ incs ++ zeros z) /\
    length incs = length buckets /\
    forall k, (k < length buckets)%nat ->
      exists F i, interpol x y (nth k buckets 0) = Return (F, i) /\
                  sum (pre ++ firstn (S k) incs) = F.
Proof.
  intros Hint. induction buckets as [|b rest IH]; intros pre z.
  - exists []. split; [reflexivity|]. split; [reflexivity|].
    intros k Hk. simpl in Hk. lia.
  - cbn [share_loop length Nat.add].
    destruct (Hint b) as (F & i & HF). rewrite HF. cbn [bind].
    change (zeros (S (length rest + z)))
      with (0 :: zeros (length rest + z)).
    rewrite set_item_app, sum_app.
    change (sum (0 :: zeros (length rest + z)))
      with (0 + sum (zeros (length rest + z))).
    rewrite sum_zeros.
    replace (F - (sum pre + (0 + 0))) with (F - sum pre) by ring.
    destruct (IH (pre ++ [F - sum pre]) z) as (incs & Hloop & Hlen & Hsum).
    rewrite length_app in Hloop. simpl in Hloop.
    rewrite Nat.add_1_r in Hloop. rewrite <- !app_assoc in Hloop.
    simpl in Hloop.
    exists ((F - sum pre) :: incs).
    split; [exact Hloop|]. split; [simpl; lia|].
    intros [|k] Hk.
    + exists F, i. split; [exact HF|].
      cbn [firstn]. rewrite sum_app. unfold sum. simpl. ring.
    + destruct (Hsum k ltac:(simpl in Hk; lia)) as (F' & i' & HF' & Hs).
      exists F', i'. split; [exact HF'|].
      rewrite <- app_assoc in Hs. exact Hs.
Qed.

Lemma bucket_shares_spec x y buckets :
  (2 <= length x)%nat -> length y = length x ->
  exists shares,
    bucket_shares x y buckets = Return shares /\
    length shares = (length buckets + 1)%nat /\
    sum shares = 1 /\
    forall k, (k < length buckets)%nat ->
      exists F i, interpol x y (nth k buckets 0) = Return (F, i) /\
                  sum (firstn (S k) shares) = F.
Proof.
  intros Hx Hy.
  assert (Hint : forall b, exists F i, interpol x y b = Return (F, i)).
  { intros b. rewrite (interpol_eval x y b Hx Hy). eauto. }
  destruct (share_loop_spec x y Hint buckets [] 1)
    as (incs & Hloop & Hlen & Hsum).
  unfold bucket_shares. cbn [length app] in Hloop. rewrite Hloop.
  cbn [bind]. rewrite <- Hlen.
  change (zeros 1) with [0].
  rewrite (set_item_app incs 0 [] _).
  eexists. split; [reflexivity|].
  split; [rewrite length_app; reflexivity|].
  split.
  - rewrite !sum_app. unfold sum. simpl. ring.
  - intros k Hk. destruct (Hsum k ltac:(lia)) as (F & i & HF & Hs).
    exists F, i. split; [exact HF|].
    rewrite firstn_app.
    replace (S k - length incs)%nat with 0%nat by lia.
    cbn [firstn]. rewrite app_nil_r. exact Hs.
Qed.

Lemma cumsum_from_length acc v : length (cumsum_from acc v) = length v.
Proof.
  revert acc. induction v as [|x v IH]; intros acc; simpl; auto.
Qed.

(** The arrays a run of [solve_model] leaves have [Nz] entries. *)
Lemma solve_model_lengths self sol :
  solve_model self = Return sol ->
  transition_matrix (Nz self) (pi self) ->
  length (nu self) = Nz self -> length (grid_z self) = Nz self ->
  length (pol_n sol) = Nz self /\
  length (cdf_stationary sol) = Nz self /\
  length (cdf_emp sol) = Nz self.
Proof.
  intros Hrun Hpi Hnu Hgrid.
  destruct (solve_model_inv self sol Hrun)
    as (_ & Hvf & Hexit & Hinv & Hds & _ & Hpdf & Hcdf & Hdemp & Hpemp
        & Hcemp & _).
  pose proof (exit_decision_length _ _ _ _ Hexit) as Hpol.
  rewrite Hgrid in Hpol.
  destruct (invariant_distribution_exit_mass self 1 _ _ Hpi Hnu Hpol Hinv)
    as [Hlen _].
  assert (Hn : length (pol_n sol) = Nz self).
  { unfold solve_vf in Hvf.
    pose proof (incumbent_firm_lengths self (price_ss sol) Hgrid) as Hl.
    destruct (incumbent_firm self (price_ss sol)) as [[fp fo] pn].
    injection Hvf as _ _ _ <-. exact (proj2 (proj2 Hl)). }
  assert (Hp : length (pdf_stationary sol) = Nz self).
  { rewrite Hpdf, length_map, Hds. unfold scale. rewrite length_map.
    exact Hlen. }
  split; [exact Hn|]. split.
  - rewrite Hcdf. unfold cumsum. rewrite cumsum_from_length. exact Hp.
  - rewrite Hcemp. unfold cumsum. rewrite cumsum_from_length.
    rewrite Hpemp, length_map, Hdemp, length_map.
    unfold vmul. rewrite zip_with_length. unfold vec in *. lia.
Qed.

(** X17.  The shares behind the two pie charts of [solve_model]: with at
    least two productivity states the loops over the employment buckets
    20, 50, 100 and 500 never fail, both [share_firms] and
    [share_employment] have five entries that sum to 1, and the sum of the
    first [k + 1] entries is the interpolated cumulative share at bucket
    [k]. *)
Theorem pie_chart_shares self sol :
  solve_model self = Return sol ->
  transition_matrix (Nz self) (pi self) ->
  length (nu self) = Nz self -> length (grid_z self) = Nz self ->
  (2 <= Nz self)%nat ->
  exists firms employment,
    share_firms sol = Return firms /\
    share_employment sol = Return employment /\
    length firms = 5%nat /\ length employment = 5%nat /\
    sum firms = 1 /\ sum employment = 1 /\
    (forall k, (k < 4)%nat ->
       exists F i,
         interpol (pol_n sol) (cdf_stationary sol) (nth k employed 0)
         = Return (F, i) /\
         sum (firstn (S k) firms) = F) /\
    (forall k, (k < 4)%nat ->
       exists F i,
         interpol (pol_n sol) (cdf_emp sol) (nth k employed 0)
         = Return (F, i) /\
         sum (firstn (S k) employment) = F).
Proof.
  intros Hrun Hpi Hnu Hgrid HNz.
  destruct (solve_model_lengths self sol Hrun Hpi Hnu Hgrid)
    as (Hn & Hcdf & Hcemp).
  destruct (bucket_shares_spec (pol_n sol) (cdf_stationary sol) employed)
    as (firms & Hf & Hlf & Hsf & Hcf);
    [unfold vec in *; lia|unfold vec in *; lia|].
  destruct (bucket_shares_spec (pol_n sol) (cdf_emp sol) employed)
    as (employment & He & Hle & Hse & Hce);
    [unfold vec in *; lia|unfold vec in *; lia|].
  exists firms, employment. unfold share_firms, share_employment.
  repeat split; auto.
Qed.

Lemma pie_chart_shares_witness :
  exists firms employment,
    share_firms one_pass_solution = Return firms /\
    share_employment one_pass_solution = Return employment /\
    length firms = 5%nat /\ length employment = 5%nat /\
    sum firms = 1 /\ sum employment = 1 /\
    (forall k, (k < 4)%nat ->
       exists F i,
         interpol (pol_n one_pass_solution)
                  (cdf_stationary one_pass_solution) (nth k employed 0)
         = Return (F, i) /\
         sum (firstn (S k) firms) = F) /\
    (forall k, (k < 4)%nat ->
       exists F i,
         interpol (pol_n one_pass_solution) (cdf_emp one_pass_solution)
                  (nth k employed 0)
         = Return (F, i) /\
         sum (firstn (S k) employment) = F).
Proof.
  apply (pie_chart_shares one_pass one_pass_solution).
  - exact solve_model_one_pass.
  - exact persistent_transition_matrix.
  - reflexivity.
  - reflexivity.
  - change (Nz one_pass) with 2%nat. lia.
Defined.

(** ** Further properties: the price search *)

Lemma dot_le_l nu V W :
  Forall (fun x => 0 <= x) nu -> Forall2 Rle V W -> dot V nu <= dot W nu.
Proof.
  intros Hnu HVW. revert nu Hnu.
  induction HVW as [|v w V W Hvw _ IH]; intros [|x nu] Hnu; simpl;
    try lra.
  pose proof (Forall_inv Hnu) as Hx. simpl in Hx.
  specialize (IH nu (Forall_inv_tail Hnu)). nra.
Qed.

Lemma vf_iter_le self fp fp' k :
  0 <= beta self -> Forall (Forall (fun x => 0 <= x)) (pi self) ->
  Forall2 Rle fp fp' ->
  Forall2 Rle (vf_iter self fp k) (vf_iter self fp' k).
Proof.
  intros Hb Hpi Hfp. induction k as [|k IH]; cbn [vf_iter].
  - apply Forall2_Rle_refl.
  - apply vf_update_le; assumption.
Qed.

(** X18.  What makes the bisection of [solve_firm] sound: after any fixed
    number [k] of Bellman updates the value function is entrywise no lower
    at a higher price, and so is the entrant value
    [beta * (VF . nu)] that the search compares with [ce]. *)
Theorem entrant_value_nondecreasing_in_price self p1 p2 k :
  0 < p1 < p2 -> 0 < theta self < 1 -> 0 < wage self ->
  length (grid_z self) = Nz self -> positive (grid_z self) ->
  0 <= beta self ->
  Forall (Forall (fun x => 0 <= x)) (pi self) ->
  Forall (fun x => 0 <= x) (nu self) ->
  let firm_profit1 := fst (fst (incumbent_firm self p1)) in
  let firm_profit2 := fst (fst (incumbent_firm self p2)) in
  Forall2 Rle (vf_iter self firm_profit1 k) (vf_iter self firm_profit2 k) /\
  entry_condition self (vf_iter self firm_profit1 k)
  <= entry_condition self (vf_iter self firm_profit2 k).
Proof.
  intros Hp Hth Hw Hlen Hpos Hb Hpi Hnu. cbv zeta.
  rewrite !incumbent_firm_profit by assumption.
  assert (Hfp : Forall2 Rle (map (static_profit self p1) (grid_z self))
                            (map (static_profit self p2) (grid_z self))).
  { unfold positive in Hpos. clear Hlen.
    induction Hpos as [|z g Hz _ IH]; simpl; [constructor|].
    constructor; [|exact IH].
    apply Rlt_le, static_profit_increasing_in_price; assumption. }
  pose proof (vf_iter_le self _ _ k Hb Hpi Hfp) as Hle.
  split; [exact Hle|].
  unfold entry_condition. apply Rmult_le_compat_l; [exact Hb|].
  apply dot_le_l; assumption.
Qed.

Lemma entrant_value_nondecreasing_in_price_witness :
  let firm_profit1 := fst (fst (incumbent_firm persistent 1)) in
  let firm_profit2 := fst (fst (incumbent_firm persistent 2)) in
  Forall2 Rle (vf_iter persistent firm_profit1 3)
              (vf_iter persistent firm_profit2 3) /\
  entry_condition persistent (vf_iter persistent firm_profit1 3)
  <= entry_condition persistent (vf_iter persistent firm_profit2 3).
Proof.
  apply (entrant_value_nondecreasing_in_price persistent 1 2 3).
  - lra.
  - change (theta persistent) with (2 / 3). lra.
  - change (wage persistent) with 1. lra.
  - reflexivity.
  - exact persistent_grid_positive.
  - change (beta persistent) with 0.8. lra.
  - change (pi persistent) with [[3 / 4; 1 / 4]; [1 / 4; 3 / 4]].
    repeat (constructor; try lra).
  - change (nu persistent) with [1 / 2; 1 / 2].
    repeat (constructor; try lra).
Defined.

(** ** Further properties: the accuracy of the returned value function *)

Lemma Forall2_dist_triangle X Y Z C1 C2 :
  Forall2 (fun a b => Rabs (a - b) <= C1) X Y ->
  Forall2 (fun a b => Rabs (a - b) <= C2) Y Z ->
  Forall2 (fun a b => Rabs (a - b) <= C1 + C2) X Z.
Proof.
  intros HXY. revert Z.
  induction HXY as [|a b X Y Hab _ IH]; intros Z HYZ;
    inversion HYZ as [|b' c Y' Z' Hbc HYZ']; subst; constructor.
  - replace (a - c) with ((a - b) + (b - c)) by ring.
    eapply Rle_trans; [apply Rabs_triang|]. lra.
  - apply IH. exact HYZ'.
Qed.

Lemma vf_dist_triangle X Y Z :
  length X = length Y -> length Y = length Z ->
  vf_dist X Z <= vf_dist X Y + vf_dist Y Z.
Proof.
  intros HXY HYZ.
  apply vf_dist_bound.
  - pose proof (vf_dist_nonneg X Y). pose proof (vf_dist_nonneg Y Z). lra.
  - apply (Forall2_dist_triangle X Y Z); apply vf_dist_entries; assumption.
Qed.

Lemma vf_dist_sym X Y : vf_dist X Y = vf_dist Y X.
Proof.
  unfold vf_dist. f_equal. unfold vsub. revert Y.
  induction X as [|a X IH]; intros [|b Y]; simpl; auto.
  rewrite IH. f_equal. rewrite <- Rabs_Ropp. f_equal. ring.
Qed.

(** X20.  Accuracy of the value function: under the conditions of
    convergence ([beta ^ k * B < tol] for a bound [B] on the static profits
    and some [k < maxit]) and with [beta < 1], the value [solve_vf] returns
    is within [beta * tol / (1 - beta)], in the sup norm, of any solution
    of the Bellman equation [V = profit + beta * max(pi . V, 0)]. *)
Theorem solve_vf_near_fixed_point self price k B Vstar :
  transition_matrix (Nz self) (pi self) -> 0 <= beta self < 1 ->
  length (grid_z self) = Nz self ->
  0 <= B ->
  Forall (fun p => Rabs p <= B) (fst (fst (incumbent_firm self price))) ->
  (k < maxit self)%nat -> beta self ^ k * B < tol self ->
  length Vstar = Nz self ->
  vf_update self (fst (fst (incumbent_firm self price))) Vstar = Vstar ->
  let '(VF, _, _, _) := solve_vf self price in
  vf_dist VF Vstar <= beta self * tol self / (1 - beta self).
Proof.
  intros Hpi Hb Hgrid HB Hfp Hk Htol Hlen Hfix. unfold solve_vf.
  pose proof (incumbent_firm_lengths self price Hgrid) as Hlens.
  destruct (incumbent_firm self price) as [[fp fo] pn].
  cbn [fst] in Hfp, Hfix.
  assert (Hlfp : length fp = Nz self) by exact (proj1 Hlens).
  assert (Hk' : vf_iter_dist self fp k < tol self).
  { eapply Rle_lt_trans; [apply vf_iter_dist_geometric; auto; lra|].
    eapply Rle_lt_trans; [|exact Htol].
    apply Rmult_le_compat_l; [apply pow_le; lra|].
    apply vf_iter_dist_0; auto. apply Hpi. }
  destruct (vf_loop_iter self fp (maxit self) 0)
    as (j & Hj & Heq & Hbefore & Hshort).
  cbn [vf_iter] in Heq. rewrite Heq.
  assert (Hstop : exists i, j = S i /\ vf_iter_dist self fp i < tol self).
  { destruct (le_lt_dec j (S k)) as [Hle|Hgt].
    - destruct (Nat.eq_dec j (S k)) as [->|Hne]; [eauto|].
      destruct Hshort as (i & -> & _ & Hi); [lia|]. eauto.
    - exfalso. apply (Hbefore k); [lia|lia|exact Hk']. }
  destruct Hstop as (i & -> & Hi). unfold vf_iter_dist in Hi.
  pose proof (proj1 (proj1 Hpi)) as Hlpi.
  pose proof (vf_iter_length self fp i Hlfp Hlpi) as Hli.
  pose proof (vf_iter_length self fp (S i) Hlfp Hlpi) as HlSi.
  set (V := vf_iter self fp i) in *.
  set (V' := vf_iter self fp (S i)) in *.
  assert (Hcontr : vf_dist V' Vstar <= beta self * vf_dist V Vstar).
  { unfold V'. cbn [vf_iter]. fold V. rewrite <- Hfix at 1.
    apply vf_update_contracts; [exact Hpi|lra|lia]. }
  assert (Htri : vf_dist V Vstar <= vf_dist V V' + vf_dist V' Vstar)
    by (apply vf_dist_triangle; lia).
  pose proof (vf_dist_nonneg V' Vstar) as H0.
  unfold Rdiv. apply Rmult_le_reg_r with (1 - beta self); [lra|].
  rewrite Rmult_assoc, Rinv_l by lra. nra.
Qed.

Lemma solve_vf_near_fixed_point_witness :
  let '(VF, _, _, _) := solve_vf persistent 1 in
  vf_dist VF [4 / 27 * 1 ^ 3 - 20; 4 / 27 * (1 * exp 1) ^ 3 - 20]
  <= beta persistent * tol persistent / (1 - beta persistent).
Proof.
  pose proof exp_1_bounds as [He1 He2].
  assert (He3 : 8 <= (1 * exp 1) ^ 3 <= 27) by (split; nra).
  apply (solve_vf_near_fixed_point persistent 1 100 20
           [4 / 27 * 1 ^ 3 - 20; 4 / 27 * (1 * exp 1) ^ 3 - 20]).
  - exact persistent_transition_matrix.
  - change (beta persistent) with 0.8. lra.
  - reflexivity.
  - lra.
  - rewrite (two_state_incumbent_firm persistent 1) by (reflexivity || lra).
    cbn [fst]. change (cf persistent) with 20.
    constructor; [|constructor; [|constructor]]; apply Rabs_le; lra.
  - change (maxit persistent) with (S 1999). lia.
  - change (beta persistent) with 0.8. change (tol persistent) with 1e-8.
    lra.
  - reflexivity.
  - rewrite (two_state_incumbent_firm persistent 1) by (reflexivity || lra).
    cbn [fst]. change (cf persistent) with 20.
    apply vf_update_no_continuation.
    + simpl. lia.
    + change (pi persistent) with [[3 / 4; 1 / 4]; [1 / 4; 3 / 4]].
      constructor; [|constructor; [|constructor]]; simpl; lra.
Defined.
